(** * grainjs: the Emitter / Listener list of [lib/emit.ts] and the
      length-specialised binders [bindB], [bindUB], [bindBU].

    The objects of [emit.ts] live in an explicit heap: every [LLink] is a heap
    cell holding its [_next] and [_prev] references, and the methods are
    state-passing functions that may return, throw or run out of fuel.
    Callbacks are JavaScript functions; they are represented by scripts of
    API calls which an interpreter runs against the same heap, so that a
    callback can add or dispose listeners while an emission is in progress. *)

From Stdlib Require Import ZArith String List Lia.
From stdpp Require Import base tactics option list sets.

Set Default Proof Using "Type".
Set Warnings "-register-all,-clear-no-such-hyp".

(** ** Values, functions and objects *)

(** A reference is a heap address. *)
Abbreviation ref := nat (only parsing).

Inductive value :=
| VUndefined
| VBool (b : bool)
| VNum (n : Z)
| VStr (s : string)
| VObj (r : ref).

(** What a callback may do.  References are heap addresses; a method called
    through a reference is dispatched on the class of the object found
    there, as in JavaScript. *)
Inductive cmd :=
| CNewEmitter
| CAddListener (e : ref) (cb : func) (ctx : value)
| CEmit (e : ref) (args : list value)
| CSetChangeCB (e : ref) (cb : option func) (ctx : value)
| CDispose (x : ref)
| CThrow
| CTry (body : list cmd)
with func :=
| Fn (body : value -> list value -> list cmd).

Definition fn_body (f : func) : value -> list value -> list cmd :=
  match f with Fn b => b end.

(** [function _noop() {}] *)
Definition _noop : func := Fn (fun _ _ => []).

Definition ListenerCB := func.
Definition ChangeCB := func.

Record LLink := mkLLink { _next : option ref; _prev : option ref }.

Inductive obj :=
| Emitter (lnk : LLink) (_changeCB : ChangeCB) (_changeCBContext : value)
| Listener (lnk : LLink) (emitter : ref) (callback : ListenerCB) (context : value).

Definition links (o : obj) : LLink :=
  match o with
  | Emitter l _ _ => l
  | Listener l _ _ _ => l
  end.

Definition set_links (l : LLink) (o : obj) : obj :=
  match o with
  | Emitter _ cb ctx => Emitter l cb ctx
  | Listener _ e cb ctx => Listener l e cb ctx
  end.

(** Observable events: a listener callback being called, and the
    change-notification callback being called. *)
Inductive event :=
| ECall (lis : ref) (this : value) (args : list value)
| EChange (em : ref) (this : value) (hasListeners : bool).

Record state := mkState { heap : list obj; trace : list event }.

Inductive error := TypeError | UserError.

Inductive result (A : Type) :=
| Ret (a : A) (s : state)
| Throw (e : error) (s : state)
| Timeout.
Arguments Ret {A} a s.
Arguments Throw {A} e s.
Arguments Timeout {A}.

Definition M (A : Type) := state -> result A.

Definition ret {A} (a : A) : M A := fun s => Ret a s.
Definition throw {A} (e : error) : M A := fun s => Throw e s.
Definition bind {A B} (m : M A) (k : A -> M B) : M B :=
  fun s =>
    match m s with
    | Ret a s' => k a s'
    | Throw e s' => Throw e s'
    | Timeout => Timeout
    end.
Definition catch (m : M unit) : M unit :=
  fun s =>
    match m s with
    | Throw _ s' => Ret tt s'
    | r => r
    end.

Declare Scope mon_scope.
Delimit Scope mon_scope with mon.
Notation "'let*' x ':=' c 'in' k" := (bind c (fun x => k))
  (at level 10, x name, c at level 100, k at level 200) : mon_scope.
Notation "c1 >> c2" := (bind c1 (fun _ => c2))
  (at level 100, c2 at level 200, right associativity) : mon_scope.
Local Open Scope mon_scope.

(** ** Heap primitives *)

(** Reading through a reference that is [null] (or names no object) is a
    [TypeError]. *)
Definition deref (r : option ref) : M obj :=
  fun s =>
    match r with
    | Some a =>
        match heap s !! a with
        | Some o => Ret o s
        | None => Throw TypeError s
        end
    | None => Throw TypeError s
    end.

(** Writing a field through a reference updates the object in place. *)
Definition modify (r : option ref) (f : obj -> obj) : M unit :=
  fun s =>
    match r with
    | Some a =>
        match heap s !! a with
        | Some _ => Ret tt (mkState (alter f a (heap s)) (trace s))
        | None => Throw TypeError s
        end
    | None => Throw TypeError s
    end.

Definition alloc (o : ref -> obj) : M ref :=
  fun s =>
    let this := length (heap s) in
    Ret this (mkState (heap s ++ [o this]) (trace s)).

Definition log (ev : event) : M unit :=
  fun s => Ret tt (mkState (heap s) (trace s ++ [ev])).

Definition get_next (r : option ref) : M (option ref) :=
  let* o := deref r in ret (_next (links o)).
Definition get_prev (r : option ref) : M (option ref) :=
  let* o := deref r in ret (_prev (links o)).
Definition with_next (v : option ref) (o : obj) : obj :=
  set_links (mkLLink v (_prev (links o))) o.
Definition with_prev (v : option ref) (o : obj) : obj :=
  set_links (mkLLink (_next (links o)) v) o.
Definition set_next (r : option ref) (v : option ref) : M unit :=
  modify r (with_next v).
Definition set_prev (r : option ref) (v : option ref) : M unit :=
  modify r (with_prev v).

(** ** class LLink *)

(** [constructor() { this._next = this; this._prev = this; }] *)
Definition self_links (this : ref) : LLink := mkLLink (Some this) (Some this).
Definition null_links : LLink := mkLLink None None.

(** [isDisposed(): return !this._next] *)
Definition isDisposed (this : ref) : M bool :=
  let* n := get_next (Some this) in
  ret (match n with None => true | Some _ => false end).

(** [const last = next._prev!; last._next = node; next._prev = node;
     node._prev = last; node._next = next;] *)
Definition _insertBefore (next node : ref) : M unit :=
  let* last := get_prev (Some next) in
  set_next last (Some node) >>
  set_prev (Some next) (Some node) >>
  set_prev (Some node) last >>
  set_next (Some node) (Some next).

(** [if (node._prev) { node._prev._next = node._next;
                       node._next!._prev = node._prev; }
     node._prev = node._next = null;]
    The chained assignment writes [_next] first. *)
Definition _removeNode (node : ref) : M unit :=
  let* p := get_prev (Some node) in
  (match p with
   | Some _ =>
       (let* n := get_next (Some node) in set_next p n) >>
       (let* n := get_next (Some node) in
        let* p' := get_prev (Some node) in set_prev n p')
   | None => ret tt
   end) >>
  set_next (Some node) None >>
  set_prev (Some node) None.

(** The loop of [_disposeList]:
    [while (next !== null) { node._next = node._prev = null;
                             node = next; next = node._next; }] *)
Fixpoint _disposeList_loop (fuel : nat) (node : ref) (next : option ref) : M unit :=
  match next with
  | None => ret tt
  | Some nx =>
      match fuel with
      | 0 => fun _ => Timeout
      | S fuel' =>
          set_prev (Some node) None >>
          set_next (Some node) None >>
          let* next' := get_next (Some nx) in
          _disposeList_loop fuel' nx next'
      end
  end.

(** [let node = this; let next = node._next; while ...]
    Every iteration nulls a [_next] field that was not null, so the number
    of heap cells bounds the number of iterations (proved below). *)
Definition _disposeList (this : ref) : M unit :=
  fun s =>
    (let* next := get_next (Some this) in
     _disposeList_loop (length (heap s)) this next) s.

(** ** classes Emitter and Listener *)

(** A method is applied to objects of its own class only: [run_cmd] below
    dispatches on the class, and a method reached with an object of the
    other class has no such field or method, a [TypeError]. *)

Section Methods.
(** [call] runs the body of a JavaScript function; [loops] bounds the
    iterations of the [while] loop of [callAll]. *)
Variable call : list cmd -> M unit.
Variable loops : nat.

(** [new Emitter()]: the sentinel of an empty list, linked to itself. *)
Definition Emitter_new : M ref :=
  alloc (fun this => Emitter (self_links this) _noop VUndefined).

(** [return this._next !== this] *)
Definition hasListeners (this : ref) : M bool :=
  let* n := get_next (Some this) in
  ret (negb (bool_decide (n = Some this))).

(** [this._changeCB.call(this._changeCBContext, this.hasListeners())] *)
Definition _triggerChangeCB (this : ref) : M unit :=
  let* o := deref (Some this) in
  match o with
  | Emitter _ cb ctx =>
      let* b := hasListeners this in
      log (EChange this ctx b) >>
      call (fn_body cb ctx [VBool b])
  | Listener _ _ _ _ => throw TypeError
  end.

(** [this._changeCB = changeCB || _noop; this._changeCBContext = optContext] *)
Definition setChangeCB (this : ref) (changeCB : option ChangeCB) (optContext : value)
  : M unit :=
  let* o := deref (Some this) in
  match o with
  | Emitter l _ _ =>
      modify (Some this)
        (fun _ => Emitter l (match changeCB with Some f => f | None => _noop end)
                    optContext)
  | Listener _ _ _ _ => throw TypeError
  end.

(** [this._disposeList(); this._changeCB = _noop;
     this._changeCBContext = undefined] *)
Definition Emitter_dispose (this : ref) : M unit :=
  _disposeList this >>
  let* o := deref (Some this) in
  match o with
  | Emitter l _ _ => modify (Some this) (fun _ => Emitter l _noop VUndefined)
  | Listener _ _ _ _ => throw TypeError
  end.

(** [new Listener(emitter, callback, context)]:
    [super(); this._insertBefore(emitter, this); emitter._triggerChangeCB()] *)
Definition Listener_new (emitter : ref) (callback : ListenerCB) (context : value)
  : M ref :=
  let* this := alloc (fun this => Listener (self_links this) emitter callback context) in
  _insertBefore emitter this >>
  _triggerChangeCB emitter >>
  ret this.

(** [if (this.isDisposed()) { return; }
     this._removeNode(this); this.emitter._triggerChangeCB()] *)
Definition Listener_dispose (this : ref) : M unit :=
  let* d := isDisposed this in
  if d then ret tt
  else
    _removeNode this >>
    let* o := deref (Some this) in
    match o with
    | Listener _ em _ _ => _triggerChangeCB em
    | Emitter _ _ _ => throw TypeError
    end.

(** [while (begin !== end) { const lis = begin as Listener;
       lis.callback.call(lis.context, ...args); begin = lis._next!; }] *)
Fixpoint callAll_loop (fuel : nat) (begin : option ref) (end_ : ref)
  (args : list value) : M unit :=
  if bool_decide (begin = Some end_) then ret tt
  else
    match fuel with
    | 0 => fun _ => Timeout
    | S fuel' =>
        match begin with
        | None => throw TypeError
        | Some b =>
            let* lis := deref (Some b) in
            match lis with
            | Listener _ _ cb ctx =>
                log (ECall b ctx args) >>
                call (fn_body cb ctx args) >>
                let* next := get_next (Some b) in
                callAll_loop fuel' next end_ args
            | Emitter _ _ _ => throw TypeError
            end
        end
    end.

Definition callAll (begin : option ref) (end_ : ref) (args : list value) : M unit :=
  callAll_loop loops begin end_ args.

(** [return new Listener(this, callback, optContext)] *)
Definition addListener (this : ref) (callback : ListenerCB) (optContext : value)
  : M ref :=
  Listener_new this callback optContext.

(** [Listener.callAll(this._next!, this, args)] *)
Definition emit (this : ref) (args : list value) : M unit :=
  let* n := get_next (Some this) in
  callAll n this args.

(** One statement of a script. *)
Definition run_cmd (c : cmd) : M unit :=
  match c with
  | CNewEmitter => Emitter_new >> ret tt
  | CAddListener e cb ctx =>
      let* o := deref (Some e) in
      match o with
      | Emitter _ _ _ => addListener e cb ctx >> ret tt
      | Listener _ _ _ _ => throw TypeError
      end
  | CEmit e args =>
      let* o := deref (Some e) in
      match o with
      | Emitter _ _ _ => emit e args
      | Listener _ _ _ _ => throw TypeError
      end
  | CSetChangeCB e cb ctx => setChangeCB e cb ctx
  | CDispose x =>
      let* o := deref (Some x) in
      match o with
      | Emitter _ _ _ => Emitter_dispose x
      | Listener _ _ _ _ => Listener_dispose x
      end
  | CThrow => throw UserError
  | CTry body => catch (call body)
  end.

Fixpoint run_script (cs : list cmd) : M unit :=
  match cs with
  | [] => ret tt
  | c :: cs' => run_cmd c >> run_script cs'
  end.
End Methods.

(** The interpreter: function bodies are run with one unit of fuel less. *)
Fixpoint exec (fuel : nat) (cs : list cmd) : M unit :=
  match fuel with
  | 0 => fun _ => Timeout
  | S fuel' => run_script (exec fuel') fuel' cs
  end.

Definition init : state := mkState [] [].

(** ** Views of the heap used in the statements *)

Definition nextOf (h : list obj) (r : ref) : option ref :=
  h !! r ≫= (fun o => _next (links o)).
Definition prevOf (h : list obj) (r : ref) : option ref :=
  h !! r ≫= (fun o => _prev (links o)).

Definition is_emitter (h : list obj) (e : ref) : Prop :=
  exists l cb ctx, h !! e = Some (Emitter l cb ctx).
Definition listener_of (h : list obj) (l e : ref) : Prop :=
  exists lnk cb ctx, h !! l = Some (Listener lnk e cb ctx).

(** [a] and [b] are neighbours: [a._next = b] and [b._prev = a]. *)
Definition link (h : list obj) (a b : ref) : Prop :=
  nextOf h a = Some b /\ prevOf h b = Some a.

Fixpoint path (h : list obj) (a : ref) (ls : list ref) : Prop :=
  match ls with
  | [] => True
  | b :: ls' => link h a b /\ path h b ls'
  end.

(** The circular list of emitter [e]: the sentinel [e], then the listeners
    [ls] in registration order, then [e] again. *)
Definition ring (h : list obj) (e : ref) (ls : list ref) : Prop :=
  NoDup (e :: ls) /\ path h e (ls ++ [e]).

(** The listeners met when following [_next] from the sentinel until the
    sentinel (or [null]) is reached. *)
Fixpoint walk (fuel : nat) (h : list obj) (cur : option ref) (end_ : ref) : list ref :=
  match fuel, cur with
  | S fuel', Some c =>
      if decide (c = end_) then [] else c :: walk fuel' h (nextOf h c) end_
  | _, _ => []
  end.
Definition linked_listeners (h : list obj) (e : ref) : list ref :=
  walk (length h) h (nextOf h e) e.

(** Node [l] is linked into a list: its [_next] is another node.  The
    [_next] of a disposed node is null, and a node that was constructed but
    not inserted is its own [_next]. *)
Definition linked (h : list obj) (l : ref) : Prop :=
  exists n, nextOf h l = Some n /\ n <> l.

(** [_next] links only: from [a] through [ls]. *)
Fixpoint nchain (h : list obj) (a : ref) (ls : list ref) : Prop :=
  match ls with
  | [] => True
  | b :: ls' => nextOf h a = Some b /\ nchain h b ls'
  end.

(** The last node of [a :: ls], and all nodes of [a :: ls] but the last:
    the targets of the links of [path h a ls] are [ls], their sources are
    [sources a ls]. *)
Fixpoint lastOf (a : ref) (ls : list ref) : ref :=
  match ls with
  | [] => a
  | b :: ls' => lastOf b ls'
  end.
Fixpoint sources (a : ref) (ls : list ref) : list ref :=
  match ls with
  | [] => []
  | b :: ls' => a :: sources b ls'
  end.

(** [node._next = node._prev = null] *)
Definition null_node (h : list obj) (r : ref) : list obj :=
  alter (with_next None) r (alter (with_prev None) r h).

Definition nullify (h : list obj) (ns : list ref) : list obj := foldl null_node h ns.

(** The number of cells whose [_next] is not null: the measure that the
    loop of [_disposeList] decreases. *)
Definition live (o : obj) : bool :=
  match _next (links o) with Some _ => true | None => false end.
Definition live_count (h : list obj) : nat := length (List.filter live h).

(** ** Well-formed heaps

    An object with its links erased: what no list operation changes. *)
Definition unlink (o : obj) : obj := set_links null_links o.
Definition same_shape (h h' : list obj) : Prop :=
  forall r, unlink <$> h' !! r = unlink <$> h !! r.

Definition null_at (h : list obj) (r : ref) : Prop :=
  nextOf h r = None /\ prevOf h r = None.
Definition self_at (h : list obj) (r : ref) : Prop :=
  nextOf h r = Some r /\ prevOf h r = Some r.

(** Emitter [e] is either the sentinel of the ring of its linked listeners
    [ls], or disposed.  Each of its other listeners is unlinked: disposed,
    or still self-linked because its constructor threw before inserting it. *)
Definition emitter_inv (h : list obj) (e : ref) (ls : list ref) : Prop :=
  (ring h e ls \/ (ls = [] /\ null_at h e)) /\
  (forall l, l ∈ ls -> listener_of h l e) /\
  (forall l, listener_of h l e -> l ∈ ls \/ null_at h l \/ self_at h l).

Definition wf (h : list obj) : Prop :=
  (forall l e, listener_of h l e -> is_emitter h e) /\
  (forall e, is_emitter h e -> exists ls, emitter_inv h e ls).

Definition same_classes (h h' : list obj) : Prop :=
  (forall l e, listener_of h' l e <-> listener_of h l e) /\
  (forall e, is_emitter h' e <-> is_emitter h e).

(** What every operation preserves from one heap to a later one: objects
    keep their class and fields other than links, and a disposed node stays
    disposed. *)
Definition evolves (h h' : list obj) : Prop :=
  length h <= length h' /\
  (forall l e, listener_of h l e -> listener_of h' l e) /\
  (forall e, is_emitter h e -> is_emitter h' e) /\
  (forall r, is_Some (h !! r) -> null_at h r -> null_at h' r).

Definition good {A} (s : state) (r : result A) : Prop :=
  match r with
  | Ret _ s' | Throw _ s' => wf (heap s') /\ evolves (heap s) (heap s')
  | Timeout => True
  end.

(** A computation that keeps the heap well formed, also when it throws. *)
Definition safe {A} (P : list obj -> Prop) (m : M A) : Prop :=
  forall s, wf (heap s) -> P (heap s) -> good s (m s).

(** A computation that leaves the heap alone, whatever it returns. *)
Definition pure {A} (m : M A) : Prop :=
  forall s, match m s with
            | Ret _ s' | Throw _ s' => heap s' = heap s
            | Timeout => True
            end.

Definition safe_call (call : list cmd -> M unit) : Prop :=
  forall cs, safe (fun _ => True) (call cs).

(** The state in which a computation ends, returning or throwing. *)
Definition outcome_state {A} (r : result A) : option state :=
  match r with
  | Ret _ s | Throw _ s => Some s
  | Timeout => None
  end.

(** The ways in which listener [l] can have been disposed before
    [l.dispose()] is called in state [s]: it reports [isDisposed()], its
    emitter was disposed while it was linked, or its own [dispose()] ran. *)
Inductive already_disposed (l : ref) (s : state) : Prop :=
| disposed_flag :
    isDisposed l s = Ret true s -> already_disposed l s
| disposed_by_emitter s0 e lnk cb ctx ls :
    heap s0 !! e = Some (Emitter lnk cb ctx) -> ring (heap s0) e ls -> l ∈ ls ->
    Emitter_dispose e s0 = Ret tt s -> already_disposed l s
| disposed_by_dispose fuel0 cs s0 fuel e :
    outcome_state (exec fuel0 cs init) = Some s0 -> listener_of (heap s0) l e ->
    outcome_state (Listener_dispose (exec fuel) l s0) = Some s ->
    already_disposed l s.

(** ** Observing an emission *)

(** The event of [callAll] calling listener [l]:
    [l.callback.call(l.context, ...args)]. *)
Definition call_event (h : list obj) (args : list value) (l : ref) : event :=
  match h !! l with
  | Some (Listener _ _ _ ctx) => ECall l ctx args
  | _ => ECall l VUndefined args
  end.

(** The objects at [rs] are what they were, links included. *)
Definition unmodified (h h' : list obj) (rs : list ref) : Prop :=
  forall r, r ∈ rs -> h' !! r = h !! r.

(** [emit] as its specification words it, not taken from the code of
    [callAll]: "invokes every callback currently linked, in insertion order,
    passing [args] to each".  For the listeners [ls], taken as they are in
    heap [h0], the callback of each is called once, in the order of [ls], on
    its own context and with [args]; a callback is called when the one
    before it has returned.  Unlike [callAll], this reads no link. *)
Fixpoint emit_spec (call : list cmd -> M unit) (h0 : list obj)
  (args : list value) (ls : list ref) : M unit :=
  match ls with
  | [] => ret tt
  | l :: ls' =>
      match h0 !! l with
      | Some (Listener _ _ cb ctx) =>
          log (ECall l ctx args) >>
          call (fn_body cb ctx args) >>
          emit_spec call h0 args ls'
      | _ => throw TypeError
      end
  end.

(** The list is not modified during the emission.  The emission is in state
    [s1] and has the listeners [rest] left to call: whenever the callback of
    the next one returns, the listeners [ls] are what they were in [h0], and
    so on for the callbacks after it.  Nothing is asked of a callback that
    throws, nor of states that the emission does not reach.  (Adding or
    removing a listener of a list that is not empty, and disposing the
    emitter, all write the links of one of the listeners.) *)
Fixpoint kept_during (call : list cmd -> M unit) (h0 : list obj) (ls : list ref)
  (args : list value) (rest : list ref) (s1 : state) : Prop :=
  match rest with
  | [] => True
  | l :: rest' =>
      match h0 !! l with
      | Some (Listener _ _ cb ctx) =>
          forall s2,
            call (fn_body cb ctx args)
                 (mkState (heap s1) (trace s1 ++ [ECall l ctx args])) = Ret tt s2 ->
            unmodified h0 (heap s2) ls /\ kept_during call h0 ls args rest' s2
      | _ => True
      end
  end.

Definition list_kept (call : list cmd -> M unit) (s : state) (ls : list ref)
  (args : list value) : Prop :=
  kept_during call (heap s) ls args ls s.

(** Listener [l] has a callback that, called with [args], does nothing. *)
Definition quiet (h : list obj) (args : list value) (l : ref) : Prop :=
  exists lnk em cb ctx,
    h !! l = Some (Listener lnk em cb ctx) /\ fn_body cb ctx args = [].

(** Listener [l] has a callback that, called with [args] in heap [h],
    returns leaving the state as it is. *)
Definition silent (call : list cmd -> M unit) (h : list obj) (args : list value)
  (l : ref) : Prop :=
  exists lnk em cb ctx,
    h !! l = Some (Listener lnk em cb ctx) /\
    forall t, call (fn_body cb ctx args) (mkState h t) = Ret tt (mkState h t).

(** ** Example scripts *)

(** A callback that does nothing but be called. *)
Definition recorder : func := Fn (fun _ _ => []).

(** An emitter with two listeners. *)
Definition two_listeners : list cmd :=
  [CNewEmitter; CAddListener 0 recorder (VStr "a"); CAddListener 0 recorder (VStr "b")].
Definition two_listeners_heap : list obj :=
  [Emitter (mkLLink (Some 1) (Some 2)) _noop VUndefined;
   Listener (mkLLink (Some 2) (Some 0)) 0 recorder (VStr "a");
   Listener (mkLLink (Some 0) (Some 1)) 0 recorder (VStr "b")].
Definition two_listeners_trace : list event :=
  [EChange 0 VUndefined true; EChange 0 VUndefined true].
Definition two_listeners_disposed : list obj :=
  [Emitter null_links _noop VUndefined;
   Listener null_links 0 recorder (VStr "a");
   Listener null_links 0 recorder (VStr "b")].

(** The same after the first listener was disposed. *)
Definition first_disposed : state :=
  mkState
    [Emitter (mkLLink (Some 2) (Some 2)) _noop VUndefined;
     Listener null_links 0 recorder (VStr "a");
     Listener (mkLLink (Some 0) (Some 0)) 0 recorder (VStr "b")]
    (two_listeners_trace ++ [EChange 0 VUndefined true]).

(** The scenario of three listeners [L1], [L2], [L3] where the callback of
    [L2] disposes [L3]. *)
Definition three_listeners : list cmd :=
  [CNewEmitter;
   CAddListener 0 recorder (VStr "L1");
   CAddListener 0 (Fn (fun _ _ => [CDispose 3])) (VStr "L2");
   CAddListener 0 recorder (VStr "L3")].
Definition three_listeners_heap : list obj :=
  [Emitter (mkLLink (Some 1) (Some 3)) _noop VUndefined;
   Listener (mkLLink (Some 2) (Some 0)) 0 recorder (VStr "L1");
   Listener (mkLLink (Some 3) (Some 1)) 0 (Fn (fun _ _ => [CDispose 3])) (VStr "L2");
   Listener (mkLLink (Some 0) (Some 2)) 0 recorder (VStr "L3")].
Definition three_listeners_after : list obj :=
  [Emitter (mkLLink (Some 1) (Some 2)) _noop VUndefined;
   Listener (mkLLink (Some 2) (Some 0)) 0 recorder (VStr "L1");
   Listener (mkLLink (Some 0) (Some 1)) 0 (Fn (fun _ _ => [CDispose 3])) (VStr "L2");
   Listener null_links 0 recorder (VStr "L3")].

(** A listener that disposes itself, followed by a recorder. *)
Definition self_disposer : list cmd :=
  [CNewEmitter;
   CAddListener 0 (Fn (fun _ _ => [CDispose 1])) (VStr "once");
   CAddListener 0 recorder (VStr "next")].
Definition self_disposer_heap : list obj :=
  [Emitter (mkLLink (Some 1) (Some 2)) _noop VUndefined;
   Listener (mkLLink (Some 2) (Some 0)) 0 (Fn (fun _ _ => [CDispose 1])) (VStr "once");
   Listener (mkLLink (Some 0) (Some 1)) 0 recorder (VStr "next")].
Definition self_disposer_after : list obj :=
  [Emitter (mkLLink (Some 2) (Some 2)) _noop VUndefined;
   Listener null_links 0 (Fn (fun _ _ => [CDispose 1])) (VStr "once");
   Listener (mkLLink (Some 0) (Some 0)) 0 recorder (VStr "next")].

(** A listener whose callback registers another listener. *)
Definition adder : list cmd :=
  [CNewEmitter;
   CAddListener 0 (Fn (fun _ _ => [CAddListener 0 recorder (VStr "late")])) (VStr "adder")].
Definition adder_heap : list obj :=
  [Emitter (mkLLink (Some 1) (Some 1)) _noop VUndefined;
   Listener (mkLLink (Some 0) (Some 0)) 0
     (Fn (fun _ _ => [CAddListener 0 recorder (VStr "late")])) (VStr "adder")].
Definition adder_after : list obj :=
  [Emitter (mkLLink (Some 1) (Some 2)) _noop VUndefined;
   Listener (mkLLink (Some 2) (Some 0)) 0
     (Fn (fun _ _ => [CAddListener 0 recorder (VStr "late")])) (VStr "adder");
   Listener (mkLLink (Some 0) (Some 1)) 0 recorder (VStr "late")].

(** A callback that throws. *)
Definition thrower : func := Fn (fun _ _ => [CThrow]).

(** An emitter whose change callback throws, with one linked listener. *)
Definition thrower_heap : list obj :=
  [Emitter (mkLLink (Some 1) (Some 1)) thrower VUndefined;
   Listener (mkLLink (Some 0) (Some 0)) 0 recorder (VStr "a")].

(** An emitter whose first listener throws. *)
Definition throwing_listener_heap : list obj :=
  [Emitter (mkLLink (Some 1) (Some 2)) _noop VUndefined;
   Listener (mkLLink (Some 2) (Some 0)) 0 thrower (VStr "bad");
   Listener (mkLLink (Some 0) (Some 1)) 0 recorder (VStr "next")].

(** An emitter whose first listener disposes the emitter. *)
Definition emitter_disposer_heap : list obj :=
  [Emitter (mkLLink (Some 1) (Some 2)) _noop VUndefined;
   Listener (mkLLink (Some 2) (Some 0)) 0 (Fn (fun _ _ => [CDispose 0])) (VStr "stop");
   Listener (mkLLink (Some 0) (Some 1)) 0 recorder (VStr "next")].

(** An emitter whose second listener disposes the first. *)
Definition visited_disposer_heap : list obj :=
  [Emitter (mkLLink (Some 1) (Some 2)) _noop VUndefined;
   Listener (mkLLink (Some 2) (Some 0)) 0 recorder (VStr "a");
   Listener (mkLLink (Some 0) (Some 1)) 0 (Fn (fun _ _ => [CDispose 1])) (VStr "b")].

(** Two emitters: the first listener of the first emitter emits on the
    second emitter, its second listener does nothing. *)
Definition relay_two_heap : list obj :=
  [Emitter (mkLLink (Some 2) (Some 4)) _noop VUndefined;
   Emitter (mkLLink (Some 3) (Some 3)) _noop VUndefined;
   Listener (mkLLink (Some 4) (Some 0)) 0 (Fn (fun _ a => [CEmit 1 a])) (VStr "relay");
   Listener (mkLLink (Some 1) (Some 1)) 1 recorder (VStr "sink");
   Listener (mkLLink (Some 0) (Some 2)) 0 recorder (VStr "b")].

(** Two emitters: the listener of the first emits on the second. *)
Definition relay_heap : list obj :=
  [Emitter (mkLLink (Some 2) (Some 2)) _noop VUndefined;
   Emitter (mkLLink (Some 3) (Some 3)) _noop VUndefined;
   Listener (mkLLink (Some 0) (Some 0)) 0 (Fn (fun _ a => [CEmit 1 a])) (VStr "relay");
   Listener (mkLLink (Some 1) (Some 1)) 1 recorder (VStr "sink")].

(** ** The binders [bindB], [bindUB], [bindBU]

    A JavaScript function takes its actual arguments as a list; [b[i]] is
    [undefined] past the end of the array, and so is a missing argument.

    The bound array is passed by reference, and the closure keeps that
    reference, not a copy of the elements: [switch (b.length)] reads the
    array when the binder is called, while [b[i]], [...b] and
    [func.apply(undefined, b)] read it when the closure is called.  An array
    store gives the elements of every array at one moment; a binder takes
    the store of the moment of binding, and the closure it returns takes the
    store of the moment of its call. *)
Definition idx (b : list value) (i : nat) : value := default VUndefined (b !! i).

Definition arrays := ref -> list value.

(** [b[i]], read in the store [st]. *)
Definition elt (st : arrays) (b : ref) (i : nat) : value := idx (st b) i.

Section Bind.
Context {T : Type}.
Variable func : list value -> T.

Definition bindB (st : arrays) (b : ref) : arrays -> list value -> T :=
  match length (st b) with
  | 0 => fun st' _ => func []
  | 1 => fun st' _ => func [elt st' b 0]
  | 2 => fun st' _ => func [elt st' b 0; elt st' b 1]
  | 3 => fun st' _ => func [elt st' b 0; elt st' b 1; elt st' b 2]
  | 4 => fun st' _ => func [elt st' b 0; elt st' b 1; elt st' b 2; elt st' b 3]
  | 5 => fun st' _ =>
           func [elt st' b 0; elt st' b 1; elt st' b 2; elt st' b 3; elt st' b 4]
  | 6 => fun st' _ =>
           func [elt st' b 0; elt st' b 1; elt st' b 2; elt st' b 3; elt st' b 4;
                 elt st' b 5]
  | 7 => fun st' _ =>
           func [elt st' b 0; elt st' b 1; elt st' b 2; elt st' b 3; elt st' b 4;
                 elt st' b 5; elt st' b 6]
  | 8 => fun st' _ =>
           func [elt st' b 0; elt st' b 1; elt st' b 2; elt st' b 3; elt st' b 4;
                 elt st' b 5; elt st' b 6; elt st' b 7]
  | _ => fun st' _ => func (st' b)
  end.

Definition bindUB (st : arrays) (b : ref) : arrays -> list value -> T :=
  match length (st b) with
  | 0 => fun st' a => let arg := idx a 0 in func [arg]
  | 1 => fun st' a => let arg := idx a 0 in func [arg; elt st' b 0]
  | 2 => fun st' a => let arg := idx a 0 in func [arg; elt st' b 0; elt st' b 1]
  | 3 => fun st' a => let arg := idx a 0 in
           func [arg; elt st' b 0; elt st' b 1; elt st' b 2]
  | 4 => fun st' a => let arg := idx a 0 in
           func [arg; elt st' b 0; elt st' b 1; elt st' b 2; elt st' b 3]
  | 5 => fun st' a => let arg := idx a 0 in
           func [arg; elt st' b 0; elt st' b 1; elt st' b 2; elt st' b 3; elt st' b 4]
  | 6 => fun st' a => let arg := idx a 0 in
           func [arg; elt st' b 0; elt st' b 1; elt st' b 2; elt st' b 3;
                 elt st' b 4; elt st' b 5]
  | 7 => fun st' a => let arg := idx a 0 in
           func [arg; elt st' b 0; elt st' b 1; elt st' b 2; elt st' b 3;
                 elt st' b 4; elt st' b 5; elt st' b 6]
  | 8 => fun st' a => let arg := idx a 0 in
           func [arg; elt st' b 0; elt st' b 1; elt st' b 2; elt st' b 3;
                 elt st' b 4; elt st' b 5; elt st' b 6; elt st' b 7]
  | _ => fun st' a => let arg := idx a 0 in func (arg :: st' b)
  end.

Definition bindBU (st : arrays) (b : ref) : arrays -> list value -> T :=
  match length (st b) with
  | 0 => fun st' a => let arg := idx a 0 in func [arg]
  | 1 => fun st' a => let arg := idx a 0 in func [elt st' b 0; arg]
  | 2 => fun st' a => let arg := idx a 0 in func [elt st' b 0; elt st' b 1; arg]
  | 3 => fun st' a => let arg := idx a 0 in
           func [elt st' b 0; elt st' b 1; elt st' b 2; arg]
  | 4 => fun st' a => let arg := idx a 0 in
           func [elt st' b 0; elt st' b 1; elt st' b 2; elt st' b 3; arg]
  | 5 => fun st' a => let arg := idx a 0 in
           func [elt st' b 0; elt st' b 1; elt st' b 2; elt st' b 3; elt st' b 4; arg]
  | 6 => fun st' a => let arg := idx a 0 in
           func [elt st' b 0; elt st' b 1; elt st' b 2; elt st' b 3; elt st' b 4;
                 elt st' b 5; arg]
  | 7 => fun st' a => let arg := idx a 0 in
           func [elt st' b 0; elt st' b 1; elt st' b 2; elt st' b 3; elt st' b 4;
                 elt st' b 5; elt st' b 6; arg]
  | 8 => fun st' a => let arg := idx a 0 in
           func [elt st' b 0; elt st' b 1; elt st' b 2; elt st' b 3; elt st' b 4;
                 elt st' b 5; elt st' b 6; elt st' b 7; arg]
  | _ => fun st' a => let arg := idx a 0 in func (st' b ++ [arg])
  end.
End Bind.

(** * Proofs *)

(** ** Running the primitives *)

Lemma deref_ok h t r o :
  h !! r = Some o -> deref (Some r) (mkState h t) = Ret o (mkState h t).
Proof. intros H. unfold deref. simpl. by rewrite H. Qed.

Lemma deref_fail h t r :
  h !! r = None -> deref (Some r) (mkState h t) = Throw TypeError (mkState h t).
Proof. intros H. unfold deref. simpl. by rewrite H. Qed.

Lemma get_next_ok h t r :
  is_Some (h !! r) ->
  get_next (Some r) (mkState h t) = Ret (nextOf h r) (mkState h t).
Proof.
  intros [o H]. unfold get_next, bind, nextOf. rewrite (deref_ok _ _ _ _ H).
  by rewrite H.
Qed.

Lemma get_prev_ok h t r :
  is_Some (h !! r) ->
  get_prev (Some r) (mkState h t) = Ret (prevOf h r) (mkState h t).
Proof.
  intros [o H]. unfold get_prev, bind, prevOf. rewrite (deref_ok _ _ _ _ H).
  by rewrite H.
Qed.

Lemma modify_ok h t r f :
  is_Some (h !! r) ->
  modify (Some r) f (mkState h t) = Ret tt (mkState (alter f r h) t).
Proof. intros [o H]. unfold modify. simpl. by rewrite H. Qed.

Lemma set_next_ok h t r v :
  is_Some (h !! r) ->
  set_next (Some r) v (mkState h t) = Ret tt (mkState (alter (with_next v) r h) t).
Proof. apply modify_ok. Qed.

Lemma set_prev_ok h t r v :
  is_Some (h !! r) ->
  set_prev (Some r) v (mkState h t) = Ret tt (mkState (alter (with_prev v) r h) t).
Proof. apply modify_ok. Qed.

Lemma bind_ret {A B} (m : M A) (k : A -> M B) s a s' :
  m s = Ret a s' -> bind m k s = k a s'.
Proof. intros H. unfold bind. by rewrite H. Qed.

Lemma bind_throw {A B} (m : M A) (k : A -> M B) s e s' :
  m s = Throw e s' -> bind m k s = Throw e s'.
Proof. intros H. unfold bind. by rewrite H. Qed.

(** ** What the field writes do to the views *)

Lemma links_with_next v o : links (with_next v o) = mkLLink v (_prev (links o)).
Proof. by destruct o. Qed.
Lemma links_with_prev v o : links (with_prev v o) = mkLLink (_next (links o)) v.
Proof. by destruct o. Qed.

Lemma nextOf_alter_next_eq h r v :
  is_Some (h !! r) -> nextOf (alter (with_next v) r h) r = v.
Proof.
  intros [o H]. unfold nextOf. rewrite list_lookup_alter_eq, H. simpl.
  by rewrite links_with_next.
Qed.
Lemma nextOf_alter_ne h r r' f :
  r <> r' -> nextOf (alter f r h) r' = nextOf h r'.
Proof. intros H. unfold nextOf. by rewrite list_lookup_alter_ne. Qed.
Lemma nextOf_alter_prev h r r' v :
  nextOf (alter (with_prev v) r h) r' = nextOf h r'.
Proof.
  unfold nextOf. destruct (decide (r = r')) as [->|Hne].
  - rewrite list_lookup_alter_eq. destruct (h !! r') as [o|]; [|done]. simpl.
    by rewrite links_with_prev.
  - by rewrite list_lookup_alter_ne.
Qed.
Lemma prevOf_alter_prev_eq h r v :
  is_Some (h !! r) -> prevOf (alter (with_prev v) r h) r = v.
Proof.
  intros [o H]. unfold prevOf. rewrite list_lookup_alter_eq, H. simpl.
  by rewrite links_with_prev.
Qed.
Lemma prevOf_alter_ne h r r' f :
  r <> r' -> prevOf (alter f r h) r' = prevOf h r'.
Proof. intros H. unfold prevOf. by rewrite list_lookup_alter_ne. Qed.
Lemma prevOf_alter_next h r r' v :
  prevOf (alter (with_next v) r h) r' = prevOf h r'.
Proof.
  unfold prevOf. destruct (decide (r = r')) as [->|Hne].
  - rewrite list_lookup_alter_eq. destruct (h !! r') as [o|]; [|done]. simpl.
    by rewrite links_with_next.
  - by rewrite list_lookup_alter_ne.
Qed.

Lemma is_Some_alter (h : list obj) f r r' :
  is_Some (alter f r h !! r') <-> is_Some (h !! r').
Proof. rewrite !lookup_lt_is_Some, length_alter. done. Qed.

(** ** The binders *)

(** A closure called with the array as long as it was at binding, or bound
    to an array of more than eight elements. *)
Ltac by_length st' b x H :=
  destruct H as [H|H];
  do 9 (destruct x as [|? x];
        [try (exfalso; simpl in H; lia);
         cbv beta iota delta [length]; unfold elt;
         destruct (st' b) as [|? [|? [|? [|? [|? [|? [|? [|? [|? ?]]]]]]]]];
         try discriminate H; reflexivity|]);
  reflexivity.

(** C10, as stated, fails: the closure keeps the array itself.  Bound to an
    array of three elements that is cut to one element before the call,
    [bindB(func, b)()] calls [func(b[0], b[1], b[2])], that is
    [func(1, undefined, undefined)], where [func(...b)] is [func(1)]. *)
Lemma bind_after_resize_differs :
  let func := fun args : list value => args in
  let st : arrays := fun _ => [VNum 1; VNum 2; VNum 3] in
  let st' : arrays := fun _ => [VNum 1] in
  bindB func st 0 st' [] = [VNum 1; VUndefined; VUndefined] /\
  func (st' 0) = [VNum 1] /\
  bindB func st 0 st' [] <> func (st' 0).
Proof. by repeat split. Qed.

(** C10, amended: when the bound array has, at the call, the length it had
    at binding (its elements may have been replaced), or had more than eight
    elements at binding, the length-specialised closures agree with their
    generic forms on the elements that the array holds at the call:
    [bindB(func, b)()] calls [func(...b)], [bindUB(func, b)(arg)] calls
    [func(arg, ...b)] and [bindBU(func, b)(arg)] calls [func(...b, arg)];
    further actual arguments are ignored. *)
Theorem bind_specialised_eq_generic {T : Type} (func : list value -> T)
  (st st' : arrays) (b : ref) (arg : value) (extra : list value) :
  length (st' b) = length (st b) \/ 8 < length (st b) ->
  bindB func st b st' [] = func (st' b) /\
  bindUB func st b st' [arg] = func (arg :: st' b) /\
  bindBU func st b st' [arg] = func (st' b ++ [arg]) /\
  bindB func st b st' extra = func (st' b) /\
  bindUB func st b st' (arg :: extra) = func (arg :: st' b) /\
  bindBU func st b st' (arg :: extra) = func (st' b ++ [arg]).
Proof.
  unfold bindB, bindUB, bindBU. generalize (st b). intros x H.
  repeat split; by_length st' b x H.
Qed.

Lemma bind_specialised_eq_generic_witness :
  let func := fun args : list value => args in
  let st : arrays := fun _ => [VNum 1; VNum 2; VNum 3] in
  let st' : arrays := fun _ => [VNum 1; VStr "two"; VNum 3] in
  bindB func st 0 st' [] = func (st' 0) /\
  bindUB func st 0 st' [VNum 9] = func (VNum 9 :: st' 0) /\
  bindBU func st 0 st' [VNum 9] = func (st' 0 ++ [VNum 9]) /\
  bindB func st 0 st' [VBool true] = func (st' 0) /\
  bindUB func st 0 st' [VNum 9; VBool true] = func (VNum 9 :: st' 0) /\
  bindBU func st 0 st' [VNum 9; VBool true] = func (st' 0 ++ [VNum 9]).
Proof.
  intros func st st'.
  apply (bind_specialised_eq_generic func st st' 0 (VNum 9) [VBool true]).
  left. reflexivity.
Defined.

(** ** Paths and rings *)

Lemma nextOf_valid h r x : nextOf h r = Some x -> is_Some (h !! r).
Proof. unfold nextOf. destruct (h !! r); [eauto | done]. Qed.
Lemma prevOf_valid h r x : prevOf h r = Some x -> is_Some (h !! r).
Proof. unfold prevOf. destruct (h !! r); [eauto | done]. Qed.

Lemma lastOf_app a l1 l2 : lastOf a (l1 ++ l2) = lastOf (lastOf a l1) l2.
Proof. revert a. induction l1 as [|b l1 IH]; intros a; simpl; [done|]. apply IH. Qed.

Lemma lastOf_snoc a ls x : lastOf a (ls ++ [x]) = x.
Proof. by rewrite lastOf_app. Qed.

Lemma sources_lastOf a ls : a :: ls = sources a ls ++ [lastOf a ls].
Proof.
  revert a. induction ls as [|b ls IH]; intros a; simpl; [done|]. by rewrite <- IH.
Qed.

Lemma sources_snoc a ls z : sources a (ls ++ [z]) = a :: ls.
Proof. revert a. induction ls as [|b ls IH]; intros a; simpl; [done|]. by rewrite IH. Qed.

Lemma lastOf_in a ls : lastOf a ls ∈ a :: ls.
Proof. rewrite (sources_lastOf a ls). set_solver. Qed.

Lemma sources_sub a ls x : x ∈ sources a ls -> x ∈ a :: ls.
Proof. rewrite (sources_lastOf a ls). set_solver. Qed.

Lemma lastOf_not_source a ls : NoDup (a :: ls) -> lastOf a ls ∉ sources a ls.
Proof.
  rewrite (sources_lastOf a ls). intros [_ [H _]]%NoDup_app.
  intros Hin. apply (H _ Hin). set_solver.
Qed.

Lemma path_app h a l1 l2 :
  path h a (l1 ++ l2) <-> path h a l1 /\ path h (lastOf a l1) l2.
Proof.
  revert a. induction l1 as [|b l1 IH]; intros a; simpl; [tauto|].
  rewrite IH. tauto.
Qed.

Lemma path_mono h h' a ls :
  path h a ls ->
  (forall x y, x ∈ sources a ls -> y ∈ ls -> link h x y -> link h' x y) ->
  path h' a ls.
Proof.
  revert a. induction ls as [|b ls IH]; intros a; simpl; [done|].
  intros [Hl Hp] Hm. split.
  - apply Hm; [set_solver | set_solver | done].
  - apply IH; [done|]. intros x y Hx Hy. apply Hm; set_solver.
Qed.

Lemma path_nchain h a ls : path h a ls -> nchain h a ls.
Proof.
  revert a. induction ls as [|b ls IH]; intros a; simpl; [done|].
  intros [[Hn _] Hp]. auto.
Qed.

Lemma nchain_mono h h' a ls :
  nchain h a ls ->
  (forall x, x ∈ sources a ls -> nextOf h' x = nextOf h x) ->
  nchain h' a ls.
Proof.
  revert a. induction ls as [|b ls IH]; intros a; simpl; [done|].
  intros [Hl Hp] Hm. split.
  - rewrite Hm; [done | set_solver].
  - apply IH; [done|]. intros x Hx. apply Hm; set_solver.
Qed.

Lemma nchain_valid h a ls x : nchain h a ls -> x ∈ sources a ls -> is_Some (h !! x).
Proof.
  revert a. induction ls as [|b ls IH]; intros a; simpl; [set_solver|].
  intros [Hl Hp] [->|Hx]%elem_of_cons; [by eapply nextOf_valid | eauto].
Qed.

Lemma ring_valid h e ls x : ring h e ls -> x ∈ e :: ls -> is_Some (h !! x).
Proof.
  intros [_ Hp] Hx. apply path_nchain in Hp.
  eapply nchain_valid; [done|]. by rewrite sources_snoc.
Qed.

(** Distinct valid references are no more than the heap has cells. *)
Lemma NoDup_valid_length (h : list obj) (rs : list nat) :
  NoDup rs -> (forall x, x ∈ rs -> is_Some (h !! x)) -> length rs <= length h.
Proof.
  intros Hnd Hv. transitivity (length (seq 0 (length h))); [|by rewrite length_seq].
  apply submseteq_length, NoDup_submseteq; [done|].
  intros x Hx. apply Hv, lookup_lt_is_Some in Hx. apply elem_of_seq. lia.
Qed.

Lemma ring_length h e ls : ring h e ls -> length ls < length h.
Proof.
  intros Hr. pose proof (NoDup_valid_length h (e :: ls)) as H.
  simpl in H. apply H; [apply Hr|]. intros x. by apply ring_valid.
Qed.

(** ** Severing links *)

Lemma null_both o : with_next None (with_prev None o) = set_links null_links o.
Proof. by destruct o. Qed.
Lemma null_both' o : with_prev None (with_next None o) = set_links null_links o.
Proof. by destruct o. Qed.

Lemma lookup_null_node h r x :
  null_node h r !! x = if decide (x = r) then set_links null_links <$> h !! x else h !! x.
Proof.
  unfold null_node. case_decide as Hx.
  - subst. rewrite !list_lookup_alter_eq. destruct (h !! r); [|done]. simpl.
    by rewrite null_both.
  - by rewrite !list_lookup_alter_ne.
Qed.

Lemma null_node_alt h r :
  alter (with_prev None) r (alter (with_next None) r h) = null_node h r.
Proof.
  apply list_eq. intros x. rewrite lookup_null_node. case_decide as Hx.
  - subst. rewrite !list_lookup_alter_eq. destruct (h !! r); [|done]. simpl.
    by rewrite null_both'.
  - by rewrite !list_lookup_alter_ne.
Qed.

Lemma set_links_idem l o : set_links l (set_links l o) = set_links l o.
Proof. by destruct o. Qed.

Lemma lookup_nullify h ns x :
  nullify h ns !! x = if decide (x ∈ ns) then set_links null_links <$> h !! x else h !! x.
Proof.
  unfold nullify. revert h. induction ns as [|r ns IH]; intros h; cbn [foldl].
  - destruct (decide (x ∈ [])); [set_solver | done].
  - rewrite IH, lookup_null_node.
    destruct (decide (x = r)) as [->|Hne]; destruct (decide (_ ∈ ns)) as [H1|H1];
      destruct (decide (_ ∈ _ :: ns)) as [H2|H2]; try set_solver;
      destruct (h !! _); simpl; rewrite ?set_links_idem; done.
Qed.

Lemma links_set_links l o : links (set_links l o) = l.
Proof. by destruct o. Qed.

Lemma nextOf_null_node h r x :
  nextOf (null_node h r) x = if decide (x = r) then None else nextOf h x.
Proof.
  unfold nextOf. rewrite lookup_null_node. destruct (decide (x = r)); [|done].
  destruct (h !! x); [|done]. simpl. by rewrite links_set_links.
Qed.
Lemma prevOf_null_node h r x :
  prevOf (null_node h r) x = if decide (x = r) then None else prevOf h x.
Proof.
  unfold prevOf. rewrite lookup_null_node. destruct (decide (x = r)); [|done].
  destruct (h !! x); [|done]. simpl. by rewrite links_set_links.
Qed.

Lemma is_Some_null_node h r x : is_Some (null_node h r !! x) <-> is_Some (h !! x).
Proof. unfold null_node. by rewrite !is_Some_alter. Qed.

(** [node._next = node._prev = null], as the loop of [_disposeList] does it. *)
Lemma run_null_node {A} h t r (k : M A) :
  is_Some (h !! r) ->
  (set_prev (Some r) None >> set_next (Some r) None >> k) (mkState h t)
  = k (mkState (null_node h r) t).
Proof.
  intros Hr. erewrite bind_ret by by apply set_prev_ok.
  erewrite bind_ret by by apply set_next_ok, is_Some_alter. done.
Qed.

Lemma disposeList_loop_ring rest : forall node z h t fuel,
  NoDup (node :: rest) -> z ∉ rest -> is_Some (h !! z) ->
  node = z \/ nextOf h z = None ->
  nchain h node (rest ++ [z]) -> length rest < fuel ->
  _disposeList_loop fuel node (nextOf h node) (mkState h t)
  = Ret tt (mkState (nullify h (node :: rest)) t).
Proof.
  induction rest as [|r rest IH]; intros node z h t fuel Hnd Hz Hvz Hzn Hch Hfuel.
  - simpl in Hch. destruct Hch as [Hn _]. rewrite Hn.
    destruct fuel as [|fuel]; [lia|]. simpl.
    rewrite run_null_node by by eapply nextOf_valid.
    erewrite bind_ret by by apply get_next_ok, is_Some_null_node.
    rewrite nextOf_null_node. destruct (decide (z = node)) as [Hc|Hc].
    + by destruct fuel.
    + destruct Hzn as [-> | ->]; [done|]. by destruct fuel.
  - simpl in Hch. destruct Hch as [Hn Hch]. rewrite Hn.
    destruct fuel as [|fuel]; [simpl in Hfuel; lia|].
    cbn [_disposeList_loop].
    rewrite run_null_node by by eapply nextOf_valid.
    assert (r <> node) as Hrn by (apply NoDup_cons in Hnd as [Hnd _]; set_solver).
    assert (is_Some (h !! r)) as Hvr.
    { eapply (nchain_valid h r (rest ++ [z])); [done|]. rewrite sources_snoc. set_solver. }
    erewrite bind_ret by by apply get_next_ok, is_Some_null_node.
    change (nullify h (node :: r :: rest))
      with (nullify (null_node h node) (r :: rest)).
    apply NoDup_cons in Hnd as [Hnode Hnd].
    apply (IH r z).
    + done.
    + set_solver.
    + by apply is_Some_null_node.
    + right. rewrite nextOf_null_node. destruct (decide (z = node)); [done|].
      destruct Hzn; congruence.
    + eapply nchain_mono; [done|]. intros x Hx. rewrite sources_snoc in Hx.
      rewrite nextOf_null_node, decide_False; [done|]. set_solver.
    + simpl in Hfuel. lia.
Qed.

Lemma disposeList_ring h t e ls :
  ring h e ls ->
  _disposeList e (mkState h t) = Ret tt (mkState (nullify h (e :: ls)) t).
Proof.
  intros Hr. pose proof (ring_length _ _ _ Hr) as Hlen.
  pose proof (ring_valid _ _ _ e Hr ltac:(set_solver)) as Hv.
  destruct Hr as [Hnd Hp]. unfold _disposeList.
  erewrite bind_ret by by apply get_next_ok.
  apply (disposeList_loop_ring ls e e); auto.
  - apply NoDup_cons in Hnd. tauto.
  - by apply path_nchain.
Qed.

Lemma disposeList_disposed h t e :
  is_Some (h !! e) -> nextOf h e = None ->
  _disposeList e (mkState h t) = Ret tt (mkState h t).
Proof.
  intros Hv Hn. unfold _disposeList. erewrite bind_ret by by apply get_next_ok.
  rewrite Hn. by destruct (length (heap (mkState h t))).
Qed.

Lemma Emitter_dispose_ring h t e lnk cb ctx ls :
  h !! e = Some (Emitter lnk cb ctx) ->
  ring h e ls ->
  Emitter_dispose e (mkState h t)
  = Ret tt (mkState (alter (fun _ => Emitter null_links _noop VUndefined) e
                       (nullify h (e :: ls))) t).
Proof.
  intros He Hr. unfold Emitter_dispose.
  erewrite bind_ret by by apply disposeList_ring.
  assert (nullify h (e :: ls) !! e = Some (Emitter null_links cb ctx)) as He'.
  { rewrite lookup_nullify, decide_True by set_solver. by rewrite He. }
  erewrite bind_ret by by apply deref_ok.
  cbv beta iota. by rewrite modify_ok.
Qed.

(** ** [_disposeList] terminates on every heap *)

Lemma live_count_app h1 h2 : live_count (h1 ++ h2) = live_count h1 + live_count h2.
Proof. unfold live_count. by rewrite List.filter_app, length_app. Qed.

Lemma live_count_le h : live_count h <= length h.
Proof. apply List.filter_length_le. Qed.

Lemma null_node_middle h1 o h2 :
  null_node (h1 ++ o :: h2) (length h1) = h1 ++ set_links null_links o :: h2.
Proof.
  apply list_eq. intros x. rewrite lookup_null_node.
  destruct (decide (x = length h1)) as [->|Hne].
  - by rewrite !list_lookup_middle.
  - destruct (decide (x < length h1)) as [Hlt|Hge].
    + by rewrite !lookup_app_l.
    + rewrite !lookup_app_r by lia.
      destruct (x - length h1) as [|k] eqn:Hk; [lia|done].
Qed.

Lemma live_count_null_node h r x :
  nextOf h r = Some x -> live_count (null_node h r) < live_count h.
Proof.
  unfold nextOf. destruct (h !! r) as [o|] eqn:Hr; [|done]. simpl. intros Hn.
  apply list_elem_of_split_length in Hr as (h1 & h2 & -> & ->).
  rewrite null_node_middle, !live_count_app. unfold live_count. simpl.
  assert (live (set_links null_links o) = false) as ->
    by (unfold live; by rewrite links_set_links).
  assert (live o = true) as -> by (unfold live; by rewrite Hn).
  simpl. lia.
Qed.

Lemma disposeList_loop_terminates : forall fuel h t node,
  live_count h <= fuel ->
  _disposeList_loop fuel node (nextOf h node) (mkState h t) <> Timeout.
Proof.
  induction fuel as [|fuel IH]; intros h t node Hfuel.
  - destruct (nextOf h node) as [nx|] eqn:Hn; [|done].
    apply live_count_null_node in Hn. lia.
  - destruct (nextOf h node) as [nx|] eqn:Hn; [|done]. cbn [_disposeList_loop].
    rewrite run_null_node by by eapply nextOf_valid.
    destruct (null_node h node !! nx) as [o|] eqn:Hnx.
    + erewrite bind_ret by by apply get_next_ok.
      apply IH. apply live_count_null_node in Hn. lia.
    + unfold get_next. erewrite bind_throw; [done|].
      erewrite bind_throw; [done|]. by apply deref_fail.
Qed.

(** X16: the loop of [_disposeList] terminates from every node of every
    heap, well formed or not: a visited node has its links nulled, so the
    walk cannot go round a cycle twice, and the fuel that [_disposeList]
    gives its loop is always enough. *)
Lemma disposeList_terminates this s : _disposeList this s <> Timeout.
Proof.
  destruct s as [h t]. unfold _disposeList.
  destruct (h !! this) as [o|] eqn:Ho.
  - erewrite bind_ret by by apply get_next_ok.
    apply disposeList_loop_terminates, live_count_le.
  - unfold get_next. erewrite bind_throw; [done|].
    erewrite bind_throw; [done|]. by apply deref_fail.
Qed.

(** ** Use after disposal *)

Lemma emit_null_next call loops h t e args :
  is_Some (h !! e) -> nextOf h e = None -> 0 < loops ->
  emit call loops e args (mkState h t) = Throw TypeError (mkState h t).
Proof.
  intros Hv Hn Hl. unfold emit. erewrite bind_ret by by apply get_next_ok.
  rewrite Hn. unfold callAll. destruct loops; [lia|]. done.
Qed.

Lemma insertBefore_null_prev h t e node :
  is_Some (h !! e) -> prevOf h e = None ->
  _insertBefore e node (mkState h t) = Throw TypeError (mkState h t).
Proof.
  intros Hv Hp. unfold _insertBefore. erewrite bind_ret by by apply get_prev_ok.
  by rewrite Hp.
Qed.

Lemma addListener_null_prev call h t e cb ctx :
  is_Some (h !! e) -> prevOf h e = None ->
  addListener call e cb ctx (mkState h t)
  = Throw TypeError (mkState (h ++ [Listener (self_links (length h)) e cb ctx]) t).
Proof.
  intros Hv Hp. unfold addListener, Listener_new.
  erewrite bind_ret by reflexivity. simpl heap. simpl trace.
  apply bind_throw, insertBefore_null_prev.
  - rewrite lookup_lt_is_Some, length_app. apply lookup_lt_is_Some in Hv. lia.
  - unfold prevOf in *. destruct Hv as [o Ho]. by rewrite (lookup_app_l_Some _ _ _ _ Ho), <- Ho.
Qed.

(** ** Shapes *)

Lemma unlink_with_next v o : unlink (with_next v o) = unlink o.
Proof. by destruct o. Qed.
Lemma unlink_with_prev v o : unlink (with_prev v o) = unlink o.
Proof. by destruct o. Qed.

Lemma same_shape_refl h : same_shape h h.
Proof. by intros r. Qed.
Lemma same_shape_trans h1 h2 h3 :
  same_shape h1 h2 -> same_shape h2 h3 -> same_shape h1 h3.
Proof. intros H1 H2 r. by rewrite H2, H1. Qed.

Lemma same_shape_alter h r f :
  (forall o, unlink (f o) = unlink o) -> same_shape h (alter f r h).
Proof.
  intros Hf x. destruct (decide (r = x)) as [->|Hne].
  - rewrite list_lookup_alter_eq. destruct (h !! x); [|done]. simpl. by rewrite Hf.
  - by rewrite list_lookup_alter_ne.
Qed.
Lemma same_shape_next h r v : same_shape h (alter (with_next v) r h).
Proof. apply same_shape_alter, unlink_with_next. Qed.
Lemma same_shape_prev h r v : same_shape h (alter (with_prev v) r h).
Proof. apply same_shape_alter, unlink_with_prev. Qed.

Lemma same_shape_valid h h' r : same_shape h h' -> is_Some (h' !! r) <-> is_Some (h !! r).
Proof.
  intros Hs. specialize (Hs r).
  rewrite <- (fmap_is_Some unlink (h' !! r)), <- (fmap_is_Some unlink (h !! r)).
  by rewrite Hs.
Qed.

Lemma same_shape_length h h' : same_shape h h' -> length h' = length h.
Proof.
  intros Hs. destruct (Nat.lt_trichotomy (length h') (length h)) as [Hl|[Hl|Hl]]; [|done|].
  - apply lookup_lt_is_Some in Hl. apply (same_shape_valid _ _ _ Hs) in Hl as Hl'.
    apply lookup_lt_is_Some in Hl'. lia.
  - apply lookup_lt_is_Some in Hl. apply (same_shape_valid _ _ _ Hs) in Hl as Hl'.
    apply lookup_lt_is_Some in Hl'. lia.
Qed.

Lemma unlink_Emitter o l cb ctx :
  unlink o = Emitter l cb ctx -> exists l', o = Emitter l' cb ctx.
Proof. destruct o; simpl; intros [= <- <- <-]; eauto. Qed.
Lemma unlink_Listener o l e cb ctx :
  unlink o = Listener l e cb ctx -> exists l', o = Listener l' e cb ctx.
Proof. destruct o; simpl; intros [= <- <- <- <-]; eauto. Qed.

Lemma same_shape_emitter_fields h h' e l cb ctx :
  same_shape h h' -> h !! e = Some (Emitter l cb ctx) ->
  exists l', h' !! e = Some (Emitter l' cb ctx).
Proof.
  intros Hs He. specialize (Hs e). rewrite He in Hs. simpl in Hs.
  destruct (h' !! e) as [o|]; [|done]. simpl in Hs.
  injection Hs as Hs. apply unlink_Emitter in Hs as [l' ->]. eauto.
Qed.
Lemma same_shape_listener_fields h h' x l e cb ctx :
  same_shape h h' -> h !! x = Some (Listener l e cb ctx) ->
  exists l', h' !! x = Some (Listener l' e cb ctx).
Proof.
  intros Hs He. specialize (Hs x). rewrite He in Hs. simpl in Hs.
  destruct (h' !! x) as [o|]; [|done]. simpl in Hs.
  injection Hs as Hs. apply unlink_Listener in Hs as [l' ->]. eauto.
Qed.

Lemma same_shape_sym h h' : same_shape h h' -> same_shape h' h.
Proof. intros Hs r. by rewrite Hs. Qed.

Lemma same_shape_is_emitter h h' e : same_shape h h' -> is_emitter h e -> is_emitter h' e.
Proof.
  intros Hs (l & cb & ctx & He).
  destruct (same_shape_emitter_fields _ _ _ _ _ _ Hs He) as [l' H]. by exists l', cb, ctx.
Qed.
Lemma same_shape_listener_of h h' l e :
  same_shape h h' -> listener_of h l e -> listener_of h' l e.
Proof.
  intros Hs (lnk & cb & ctx & He).
  destruct (same_shape_listener_fields _ _ _ _ _ _ _ Hs He) as [l' H]. by exists l', cb, ctx.
Qed.

Lemma emitter_not_listener h e x : is_emitter h e -> listener_of h e x -> False.
Proof. intros (l & cb & ctx & He) (l' & cb' & ctx' & Hl). congruence. Qed.

Lemma listener_of_inj h l e e' : listener_of h l e -> listener_of h l e' -> e = e'.
Proof. intros (l1 & cb & ctx & He) (l' & cb' & ctx' & Hl). congruence. Qed.

(** ** [_insertBefore] and [_removeNode] on the views *)

Lemma nextOf_alter_next h r x v :
  is_Some (h !! r) ->
  nextOf (alter (with_next v) r h) x = if decide (x = r) then v else nextOf h x.
Proof.
  intros Hr. destruct (decide (x = r)) as [->|Hne].
  - by apply nextOf_alter_next_eq.
  - by apply nextOf_alter_ne.
Qed.
Lemma prevOf_alter_prev h r x v :
  is_Some (h !! r) ->
  prevOf (alter (with_prev v) r h) x = if decide (x = r) then v else prevOf h x.
Proof.
  intros Hr. destruct (decide (x = r)) as [->|Hne].
  - by apply prevOf_alter_prev_eq.
  - by apply prevOf_alter_ne.
Qed.

Lemma insertBefore_views h t e n last :
  prevOf h e = Some last -> is_Some (h !! last) -> is_Some (h !! n) ->
  exists h',
    _insertBefore e n (mkState h t) = Ret tt (mkState h' t) /\
    same_shape h h' /\
    (forall r, nextOf h' r =
               if decide (r = n) then Some e
               else if decide (r = last) then Some n else nextOf h r) /\
    (forall r, prevOf h' r =
               if decide (r = n) then Some last
               else if decide (r = e) then Some n else prevOf h r).
Proof.
  intros Hp Hl Hn. pose proof (prevOf_valid _ _ _ Hp) as He.
  eexists. split; [|split; [|split]].
  - unfold _insertBefore. erewrite bind_ret by by apply get_prev_ok.
    rewrite Hp. erewrite bind_ret by by apply set_next_ok.
    erewrite bind_ret by by apply set_prev_ok, is_Some_alter.
    erewrite bind_ret by by apply set_prev_ok; rewrite !is_Some_alter.
    apply set_next_ok. by rewrite !is_Some_alter.
  - repeat (eapply same_shape_trans;
            [|first [apply same_shape_next | apply same_shape_prev]]).
    apply same_shape_refl.
  - intros r. rewrite nextOf_alter_next by by rewrite !is_Some_alter.
    destruct (decide (r = n)); [done|].
    rewrite !nextOf_alter_prev. by rewrite nextOf_alter_next.
  - intros r. rewrite prevOf_alter_next.
    rewrite prevOf_alter_prev by by rewrite !is_Some_alter.
    destruct (decide (r = n)); [done|].
    rewrite prevOf_alter_prev by by rewrite !is_Some_alter.
    destruct (decide (r = e)); [done|]. by rewrite prevOf_alter_next.
Qed.

Lemma removeNode_views h t l p n :
  prevOf h l = Some p -> nextOf h l = Some n ->
  is_Some (h !! p) -> is_Some (h !! n) ->
  exists h',
    _removeNode l (mkState h t) = Ret tt (mkState h' t) /\
    same_shape h h' /\
    (forall r, nextOf h' r =
               if decide (r = l) then None
               else if decide (r = p) then Some n else nextOf h r) /\
    (forall r, prevOf h' r =
               if decide (r = l) then None
               else if decide (r = n) then Some p else prevOf h r).
Proof.
  intros Hp Hn Hvp Hvn. pose proof (prevOf_valid _ _ _ Hp) as Hl.
  exists (null_node (alter (with_prev (Some p)) n (alter (with_next (Some n)) p h)) l).
  split; [|split; [|split]].
  - unfold _removeNode. erewrite bind_ret by by apply get_prev_ok.
    rewrite Hp.
    erewrite bind_ret.
    2: { erewrite bind_ret.
         2: { erewrite bind_ret by by apply get_next_ok.
              rewrite Hn. by apply set_next_ok. }
         cbv beta.
         erewrite bind_ret by by apply get_next_ok, is_Some_alter.
         erewrite bind_ret by by apply get_prev_ok, is_Some_alter.
         rewrite nextOf_alter_next, prevOf_alter_next, Hp by done.
         destruct (decide (l = p)); rewrite ?Hn; by apply set_prev_ok, is_Some_alter. }
    cbv beta.
    erewrite bind_ret by by apply set_next_ok; rewrite !is_Some_alter.
    rewrite set_prev_ok by by rewrite !is_Some_alter.
    by rewrite null_node_alt.
  - unfold null_node.
    repeat (eapply same_shape_trans;
            [|first [apply same_shape_next | apply same_shape_prev]]).
    apply same_shape_refl.
  - intros r. rewrite nextOf_null_node. destruct (decide (r = l)); [done|].
    rewrite nextOf_alter_prev. by rewrite nextOf_alter_next.
  - intros r. rewrite prevOf_null_node. destruct (decide (r = l)); [done|].
    rewrite prevOf_alter_prev by by rewrite !is_Some_alter.
    destruct (decide (r = n)); [done|]. by rewrite prevOf_alter_next.
Qed.

(** ** Rings under insertion and removal *)

Lemma ring_last_link h e ls : ring h e ls -> link h (lastOf e ls) e.
Proof. intros [_ Hp]. apply path_app in Hp as [_ Hp]. simpl in Hp. tauto. Qed.

Lemma ring_path h e ls : ring h e ls -> path h e ls.
Proof. intros [_ Hp]. by apply path_app in Hp as [Hp _]. Qed.

Lemma ring_insert h h' e ls n :
  ring h e ls -> n ∉ e :: ls ->
  (forall r, nextOf h' r =
             if decide (r = n) then Some e
             else if decide (r = lastOf e ls) then Some n else nextOf h r) ->
  (forall r, prevOf h' r =
             if decide (r = n) then Some (lastOf e ls)
             else if decide (r = e) then Some n else prevOf h r) ->
  ring h' e (ls ++ [n]).
Proof.
  intros Hr Hn Hnext Hprev. pose proof (ring_path _ _ _ Hr) as Hp.
  destruct Hr as [Hnd _]. pose proof (lastOf_in e ls) as Hlast.
  split.
  - rewrite app_comm_cons. apply NoDup_app. split; [done|]. split.
    + intros x Hx ?. set_solver.
    + apply NoDup_singleton.
  - rewrite <- app_assoc. apply path_app. split.
    + eapply path_mono; [done|]. intros x y Hx Hy [H1 H2].
      pose proof (lastOf_not_source e ls Hnd) as Hns.
      apply sources_sub in Hx as Hx'.
      apply NoDup_cons in Hnd as [He _].
      split.
      * rewrite Hnext, decide_False, decide_False; [done| congruence | set_solver].
      * rewrite Hprev, decide_False, decide_False; [done| set_solver | set_solver].
    + simpl. repeat split.
      * rewrite Hnext, decide_False, decide_True; [done| done | set_solver].
      * by rewrite Hprev, decide_True.
      * by rewrite Hnext, decide_True.
      * rewrite Hprev, decide_False, decide_True; [done | done | set_solver].
Qed.

Lemma ring_remove h h' e l1 l l2 :
  ring h e (l1 ++ l :: l2) ->
  (forall r, nextOf h' r =
             if decide (r = l) then None
             else if decide (r = lastOf e l1) then Some (hd e l2) else nextOf h r) ->
  (forall r, prevOf h' r =
             if decide (r = l) then None
             else if decide (r = hd e l2) then Some (lastOf e l1) else prevOf h r) ->
  ring h' e (l1 ++ l2).
Proof.
  intros [Hnd Hp] Hnext Hprev.
  rewrite <- app_assoc in Hp. apply path_app in Hp as [Hp1 Hp2].
  change ((l :: l2) ++ [e]) with (l :: (l2 ++ [e])) in Hp2.
  destruct Hp2 as [Hpl Hp2].
  assert (NoDup (e :: l1 ++ l2) /\ l ∉ e :: l1 ++ l2) as [Hnd' Hl].
  { rewrite app_comm_cons in *. apply NoDup_app in Hnd as (H1 & H2 & H3).
    apply NoDup_cons in H3 as [H3 H4]. split.
    - apply NoDup_app. split; [done|]. split; [|done]. intros x Hx ?. apply (H2 x Hx).
      set_solver.
    - intros [Hin|Hin]%elem_of_app; [|done]. apply (H2 _ Hin). set_solver. }
  pose proof (lastOf_in e l1) as Hlast.
  assert (NoDup (e :: l1)) as Hnd1.
  { rewrite app_comm_cons in Hnd'. by apply NoDup_app in Hnd' as [? _]. }
  pose proof (lastOf_not_source e l1 Hnd1) as Hns.
  assert (hd e l2 ∈ e :: l2) as Hhd by (destruct l2; set_solver).
  assert (forall x, x ∈ e :: l1 -> x ∈ l2 -> False) as Hdisj.
  { intros x Hx Hx2. rewrite app_comm_cons in Hnd'.
    apply NoDup_app in Hnd' as (_ & H2 & _). by apply (H2 x). }
  apply NoDup_cons in Hnd1 as Hnd1'. destruct Hnd1' as [He1 _].
  assert (e ∉ l2) as He2 by (apply NoDup_cons in Hnd' as [? _]; set_solver).
  split; [done|].
  rewrite <- app_assoc. apply path_app. split.
  - eapply path_mono; [done|]. intros x y Hx Hy [H1 H2].
    apply sources_sub in Hx as Hx'. split.
    + rewrite Hnext, decide_False, decide_False; [done | congruence | set_solver].
    + rewrite Hprev, decide_False, decide_False; [done | | set_solver].
      intros ->. apply elem_of_cons in Hhd as [Heq|Hhd].
      * rewrite Heq in Hy. done.
      * apply (Hdisj (hd e l2)); set_solver.
  - assert (link h' (lastOf e l1) (hd e l2)) as Hlink.
    { split.
      - rewrite Hnext, decide_False, decide_True; [done | done | set_solver].
      - rewrite Hprev, decide_False, decide_True; [done | done | set_solver]. }
    destruct l2 as [|n l2]; simpl in *; [done|]. split; [done|].
    destruct Hp2 as [_ Hp2].
    apply NoDup_cons in Hnd' as [_ Hnd'].
    apply NoDup_app in Hnd' as (_ & _ & Hnd2).
    apply NoDup_cons in Hnd2 as [Hn2 Hnd2].
    eapply path_mono; [done|]. intros x y Hx Hy [H1 H2].
    rewrite sources_snoc in Hx. split.
    + rewrite Hnext, decide_False, decide_False; [done | | set_solver].
      intros ->. apply (Hdisj (lastOf e l1)); set_solver.
    + rewrite Hprev, decide_False, decide_False; [done | | set_solver].
      intros ->. apply elem_of_app in Hy as [Hy|Hy]; set_solver.
Qed.

(** ** Frames *)

Lemma same_shape_classes h h' : same_shape h h' -> same_classes h h'.
Proof.
  intros Hs. pose proof (same_shape_sym _ _ Hs) as Hs'. split.
  - intros l e. split; by apply same_shape_listener_of.
  - intros e. split; by apply same_shape_is_emitter.
Qed.

Lemma evolves_refl h : evolves h h.
Proof. unfold evolves. auto. Qed.

Lemma evolves_trans h1 h2 h3 : evolves h1 h2 -> evolves h2 h3 -> evolves h1 h3.
Proof.
  intros (Hl1 & Hli1 & He1 & Hn1) (Hl2 & Hli2 & He2 & Hn2).
  split; [lia|]. split; [auto|]. split; [auto|].
  intros r Hr Hn. apply Hn2; [|by apply Hn1].
  apply lookup_lt_is_Some. apply lookup_lt_is_Some in Hr. lia.
Qed.

Lemma evolves_classes h h' :
  length h = length h' -> same_classes h h' ->
  (forall r, null_at h r -> null_at h' r) -> evolves h h'.
Proof.
  intros Hlen [Hl He] Hn. split; [lia|]. split; [|split].
  - intros. by apply Hl.
  - intros. by apply He.
  - auto.
Qed.

Lemma good_trans {A} s s1 (r : result A) :
  evolves (heap s) (heap s1) -> good s1 r -> good s r.
Proof.
  intros Hev. destruct r as [a s'|e s'|]; simpl; [| |done];
    intros [Hwf Hev']; (split; [done|]); by eapply evolves_trans.
Qed.

Lemma good_here {A} s (r : result A) :
  wf (heap s) ->
  match r with Ret _ s' | Throw _ s' => heap s' = heap s | Timeout => True end ->
  good s r.
Proof.
  intros Hwf. destruct r as [a s'|e s'|]; simpl; [| |done];
    intros ->; split; auto using evolves_refl.
Qed.

Lemma emitter_inv_frame h h' e ls :
  emitter_inv h e ls ->
  (forall l, listener_of h l e -> listener_of h' l e) ->
  (forall l, listener_of h' l e -> listener_of h l e \/ null_at h' l \/ self_at h' l) ->
  (forall r, r = e \/ listener_of h r e ->
             nextOf h' r = nextOf h r /\ prevOf h' r = prevOf h r) ->
  emitter_inv h' e ls.
Proof.
  intros (Hring & Hmem & Hoth) Hl1 Hl2 Hfr. repeat split.
  - destruct Hring as [[Hnd Hp]|[-> [Hn1 Hn2]]]; [left|right].
    + split; [done|]. eapply path_mono; [done|].
      intros x y Hx Hy [H1 H2]. rewrite sources_snoc in Hx.
      destruct (Hfr x) as [Hx1 _].
      { apply elem_of_cons in Hx as [->|Hx]; auto. }
      destruct (Hfr y) as [_ Hy2].
      { apply elem_of_app in Hy as [Hy|Hy]; [auto|]. left. set_solver. }
      split; congruence.
    + destruct (Hfr e) as [H1 H2]; [auto|]. split; [done|]. split; congruence.
  - auto.
  - intros l Hl. apply Hl2 in Hl as [Hl|Hl]; [|auto].
    destruct (Hfr l) as [H1 H2]; [auto|].
    destruct (Hoth l Hl) as [?|[[Hn1 Hn2]|[Hn1 Hn2]]]; [auto| |].
    + right; left. split; congruence.
    + right; right. split; congruence.
Qed.

(** An update that touches only emitter [e0] and its listeners. *)
Lemma wf_family_update h h' e0 ls' :
  wf h -> same_classes h h' -> is_emitter h e0 ->
  (forall r, r <> e0 -> ~ listener_of h r e0 ->
             nextOf h' r = nextOf h r /\ prevOf h' r = prevOf h r) ->
  emitter_inv h' e0 ls' -> wf h'.
Proof.
  intros [Hty Hem] [Hcl Hce] He0 Hfr Hinv. split.
  - intros l e Hl. apply Hce. apply Hcl in Hl. eauto.
  - intros e He. destruct (decide (e = e0)) as [->|Hne]; [eauto|].
    apply Hce in He. destruct (Hem e He) as [ls Hls]. exists ls.
    eapply emitter_inv_frame; [done| | |].
    + intros l. apply Hcl.
    + intros l Hl. left. by apply Hcl.
    + intros r [->|Hr]; apply Hfr; auto.
      * intros Hl. exact (emitter_not_listener _ _ _ He Hl).
      * intros Heq. subst r. exact (emitter_not_listener _ _ _ He0 Hr).
      * intros Hr'. apply Hne. exact (listener_of_inj _ _ _ _ Hr Hr').
Qed.

(** ** Allocation *)

Lemma lookup_snoc_ne (h : list obj) o r : r <> length h -> (h ++ [o]) !! r = h !! r.
Proof.
  intros Hr. destruct (decide (r < length h)) as [Hlt|Hge].
  - by apply lookup_app_l.
  - rewrite !lookup_ge_None_2; [done | lia | rewrite length_app; simpl; lia].
Qed.
Lemma lookup_snoc_eq (h : list obj) o : (h ++ [o]) !! length h = Some o.
Proof. by rewrite list_lookup_middle. Qed.

Lemma valid_ne_length (h : list obj) r : is_Some (h !! r) -> r <> length h.
Proof. intros Hr%lookup_lt_is_Some. lia. Qed.

Lemma listener_of_valid h l e : listener_of h l e -> is_Some (h !! l).
Proof. intros (? & ? & ? & ->). eauto. Qed.
Lemma is_emitter_valid h e : is_emitter h e -> is_Some (h !! e).
Proof. intros (? & ? & ? & ->). eauto. Qed.

Lemma wf_alloc h o :
  wf h ->
  match o with
  | Emitter l _ _ => l = self_links (length h)
  | Listener l e _ _ => l = self_links (length h) /\ is_emitter h e
  end ->
  wf (h ++ [o]) /\ evolves h (h ++ [o]).
Proof.
  intros [Hty Hem] Ho.
  set (n := length h). set (h' := h ++ [o]).
  assert (forall r, r <> n -> h' !! r = h !! r) as F1 by (intros; by apply lookup_snoc_ne).
  assert (h' !! n = Some o) as F2 by apply lookup_snoc_eq.
  assert (forall r, r <> n ->
            nextOf h' r = nextOf h r /\ prevOf h' r = prevOf h r) as F3.
  { intros r Hr. unfold nextOf, prevOf. by rewrite F1. }
  assert (forall l e, l <> n -> listener_of h' l e <-> listener_of h l e) as F4.
  { intros l e Hl. unfold listener_of. by rewrite F1. }
  assert (forall e, e <> n -> is_emitter h' e <-> is_emitter h e) as F5.
  { intros e He. unfold is_emitter. by rewrite F1. }
  assert (self_at h' n) as F6.
  { unfold self_at, nextOf, prevOf. rewrite F2. simpl.
    destruct o as [l ? ?|l ? ? ?]; simpl in *; [subst l | destruct Ho as [-> _]]; done. }
  split.
  - split.
    + intros l e Hl. destruct (decide (l = n)) as [->|Hne].
      * destruct Hl as (lnk & cb & ctx & Hl). rewrite F2 in Hl.
        injection Hl as ->. destruct Ho as [_ Ho].
        apply F5; [|done]. by apply valid_ne_length, is_emitter_valid.
      * apply F4 in Hl; [|done]. apply Hty in Hl as He.
        apply F5; [|done]. by apply valid_ne_length, is_emitter_valid.
    + intros e He. destruct (decide (e = n)) as [->|Hne].
      * exists []. split; [|split].
        -- left. split; [apply NoDup_singleton|]. simpl. unfold link.
           destruct F6. auto.
        -- intros l Hl. set_solver.
        -- intros l Hl. exfalso.
           destruct (decide (l = n)) as [->|Hln].
           ++ exact (emitter_not_listener _ _ _ He Hl).
           ++ apply F4 in Hl; [|done]. apply Hty, is_emitter_valid, valid_ne_length in Hl.
              done.
      * apply F5 in He; [|done]. destruct (Hem e He) as [ls Hls]. exists ls.
        eapply emitter_inv_frame; [done| | |].
        -- intros l Hl. apply F4; [|done]. by eapply valid_ne_length, listener_of_valid.
        -- intros l Hl. destruct (decide (l = n)) as [->|Hln]; [auto|].
           left. by apply F4.
        -- intros r Hr. apply F3. destruct Hr as [->|Hr]; [done|].
           by eapply valid_ne_length, listener_of_valid.
  - split; [|split; [|split]].
    + unfold h'. rewrite length_app. lia.
    + intros l e Hl. apply F4; [|done]. by eapply valid_ne_length, listener_of_valid.
    + intros e He. apply F5; [|done]. by eapply valid_ne_length, is_emitter_valid.
    + intros r Hr [H1 H2]. apply valid_ne_length in Hr. destruct (F3 r Hr) as [H3 H4].
      split; congruence.
Qed.

(** ** The methods keep the heap well formed *)

Lemma good_bind {A B} (m : M A) (k : A -> M B) s :
  good s (m s) ->
  (forall a s1, m s = Ret a s1 -> wf (heap s1) -> evolves (heap s) (heap s1) ->
                good s1 (k a s1)) ->
  good s (bind m k s).
Proof.
  intros Hm Hk. unfold bind. destruct (m s) as [a s1|e s1|] eqn:Heq; [|done|done].
  destruct Hm as [Hwf Hev]. eapply good_trans; [done|]. by apply Hk.
Qed.

Lemma emitter_inv_ring_or_null h e ls :
  emitter_inv h e ls -> ring h e ls \/ (ls = [] /\ null_at h e).
Proof. by intros [? _]. Qed.

Lemma ring_not_self h e ls x : ring h e ls -> x ∈ ls -> ~ self_at h x.
Proof.
  intros [Hnd Hp] Hx [Hs _].
  apply list_elem_of_split in Hx as (l1 & l2 & ->).
  rewrite <- app_assoc in Hp. apply path_app in Hp as [_ Hp].
  change ((x :: l2) ++ [e]) with (x :: (l2 ++ [e])) in Hp.
  destruct Hp as [_ Hp].
  assert (NoDup (x :: l2 ++ [e])) as Hnd'.
  { apply NoDup_cons in Hnd as [He Hnd]. apply NoDup_app in Hnd as (_ & _ & Hnd).
    apply NoDup_cons in Hnd as [Hx Hnd]. apply NoDup_cons. split.
    - set_solver.
    - apply NoDup_app. split; [done|]. split; [|apply NoDup_singleton]. set_solver. }
  apply NoDup_cons in Hnd' as [Hx' _].
  destruct (l2 ++ [e]) as [|n rest] eqn:Heq; simpl in Hp; [by destruct l2|].
  destruct Hp as [[Hn _] _]. rewrite Hs in Hn. injection Hn as <-. set_solver.
Qed.

Lemma insert_good h t e n ls :
  wf h -> is_emitter h e -> emitter_inv h e ls ->
  listener_of h n e -> self_at h n ->
  match _insertBefore e n (mkState h t) with
  | Ret _ s' =>
      wf (heap s') /\ evolves h (heap s') /\ trace s' = t /\
      emitter_inv (heap s') e (ls ++ [n])
  | Throw _ s' => s' = mkState h t /\ null_at h e
  | Timeout => False
  end.
Proof.
  intros Hwf He Hinv Hn Hself.
  pose proof (is_emitter_valid _ _ He) as Hve.
  pose proof (listener_of_valid _ _ _ Hn) as Hvn.
  destruct (emitter_inv_ring_or_null _ _ _ Hinv) as [Hr|[-> [Hn1 Hn2]]].
  2: { rewrite insertBefore_null_prev by done. by repeat split. }
  destruct Hinv as (_ & Hmem & Hoth).
  assert (n ∉ e :: ls) as Hnin.
  { intros [->|Hin]%elem_of_cons.
    - exact (emitter_not_listener _ _ _ He Hn).
    - exact (ring_not_self _ _ _ _ Hr Hin Hself). }
  pose proof (lastOf_in e ls) as Hlast.
  destruct (ring_last_link _ _ _ Hr) as [Hln Hlp].
  destruct (insertBefore_views h t e n (lastOf e ls)) as (h' & -> & Hsh & Hnext & Hprev);
    [done | by eapply ring_valid | done |].
  pose proof (same_shape_classes _ _ Hsh) as Hcl.
  assert (forall r, r <> n -> r <> e -> r <> lastOf e ls ->
            nextOf h' r = nextOf h r /\ prevOf h' r = prevOf h r) as Hfr.
  { intros r H1 H2 H3. by rewrite Hnext, Hprev, !decide_False. }
  assert (emitter_inv h' e (ls ++ [n])) as Hinv'.
  { split; [|split].
    - left. by eapply ring_insert.
    - intros l Hl. apply Hcl. apply elem_of_app in Hl as [Hl|Hl]; [auto|]. set_solver.
    - intros l Hl. apply Hcl in Hl.
      destruct (decide (l ∈ ls ++ [n])) as [?|Hnl]; [auto|]. right.
      assert (l <> n) by set_solver.
      assert (l <> e) by (intros ->; exact (emitter_not_listener _ _ _ He Hl)).
      assert (l <> lastOf e ls) by set_solver.
      destruct (Hfr l) as [HA HB]; [done..|]. unfold null_at, self_at. rewrite HA, HB.
      destruct (Hoth l Hl) as [?|?]; [set_solver | done]. }
  simpl. split; [|split; [|split]]; [| |done|done].
  - eapply wf_family_update; [exact Hwf|done|done| |exact Hinv'].
    intros r H1 H2. apply Hfr; [by intros -> | done |].
    intros ->. apply elem_of_cons in Hlast as [?|?]; [done|]. apply H2. auto.
  - apply evolves_classes; [by rewrite (same_shape_length _ _ Hsh) | done |].
    intros r [Hr1 Hr2]. destruct (Hfr r) as [H1 H2]; [| | |split; congruence].
    + intros ->. destruct Hself. congruence.
    + intros ->. congruence.
    + intros ->. congruence.
Qed.

Lemma hasListeners_run h t e :
  is_Some (h !! e) ->
  hasListeners e (mkState h t)
  = Ret (negb (bool_decide (nextOf h e = Some e))) (mkState h t).
Proof. intros He. unfold hasListeners. by erewrite bind_ret by by apply get_next_ok. Qed.

Lemma triggerChangeCB_safe call e :
  safe_call call -> safe (fun _ => True) (_triggerChangeCB call e).
Proof.
  intros Hc [h t] Hwf _. simpl in Hwf. unfold _triggerChangeCB.
  destruct (h !! e) as [o|] eqn:He.
  - erewrite bind_ret by by apply deref_ok. destruct o as [l cb ctx|l em cb ctx].
    + erewrite bind_ret by by apply hasListeners_run.
      erewrite bind_ret by reflexivity.
      exact (Hc _ (mkState h _) Hwf I).
    + by apply good_here.
  - erewrite bind_throw by by apply deref_fail. by apply good_here.
Qed.

Lemma Listener_new_safe call e cb ctx :
  safe_call call -> safe (fun h => is_emitter h e) (Listener_new call e cb ctx).
Proof.
  intros Hc [h t] Hwf He. simpl in Hwf, He. unfold Listener_new.
  erewrite bind_ret by reflexivity. simpl heap. simpl trace.
  pose proof (lookup_snoc_eq h (Listener (self_links (length h)) e cb ctx)) as Hlk.
  destruct (wf_alloc h (Listener (self_links (length h)) e cb ctx) Hwf)
    as [Hwf1 Hev1]; [done|].
  set (n := length h) in *. set (h1 := h ++ [Listener (self_links n) e cb ctx]) in *.
  eapply (good_trans _ (mkState h1 t)); [done|].
  assert (listener_of h1 n e) as Hn by (by exists (self_links n), cb, ctx).
  assert (self_at h1 n) as Hself.
  { unfold self_at, nextOf, prevOf. by rewrite Hlk. }
  assert (is_emitter h1 e) as He1 by by apply Hev1.
  destruct Hwf1 as [Hty1 Hem1]. destruct (Hem1 e He1) as [ls Hinv].
  pose proof (insert_good h1 t e n ls (conj Hty1 Hem1) He1 Hinv Hn Hself) as Hins.
  apply good_bind.
  - destruct (_insertBefore e n (mkState h1 t)) as [[] s'|err s'|]; [| |done].
    + destruct Hins as (? & ? & _). by split.
    + destruct Hins as [-> _]. split; [done | apply evolves_refl].
  - intros [] s2 Heq Hwf2 Hev2. apply good_bind.
    + by apply triggerChangeCB_safe.
    + intros [] s3 _ Hwf3 Hev3. split; [done | apply evolves_refl].
Qed.

Lemma ring_frame h h' e ls :
  ring h e ls ->
  (forall r, r ∈ e :: ls -> nextOf h' r = nextOf h r /\ prevOf h' r = prevOf h r) ->
  ring h' e ls.
Proof.
  intros [Hnd Hp] Hfr. split; [done|]. eapply path_mono; [done|].
  intros x y Hx Hy [H1 H2]. rewrite sources_snoc in Hx.
  destruct (Hfr x Hx) as [Hx1 _]. destruct (Hfr y) as [_ Hy2]; [set_solver|].
  split; congruence.
Qed.

Lemma ring_neighbours h e l1 l l2 :
  ring h e (l1 ++ l :: l2) -> link h (lastOf e l1) l /\ link h l (hd e l2).
Proof.
  intros [_ Hp]. rewrite <- app_assoc in Hp. apply path_app in Hp as [_ Hp].
  change ((l :: l2) ++ [e]) with (l :: (l2 ++ [e])) in Hp.
  destruct Hp as [Hl Hp]. split; [done|].
  destruct l2; simpl in *; tauto.
Qed.

Lemma wf_same_views h h' :
  wf h -> same_classes h h' -> length h = length h' ->
  (forall r, nextOf h' r = nextOf h r /\ prevOf h' r = prevOf h r) ->
  wf h' /\ evolves h h'.
Proof.
  intros [Hty Hem] [Hcl Hce] Hlen Hv. split.
  - split.
    + intros l e Hl. apply Hce. apply Hcl in Hl. eauto.
    + intros e He. apply Hce in He. destruct (Hem e He) as [ls Hls]. exists ls.
      eapply emitter_inv_frame; [done| | |].
      * intros l. apply Hcl.
      * intros l Hl. left. by apply Hcl.
      * intros r _. apply Hv.
  - apply evolves_classes; [done|done|]. intros r [H1 H2].
    destruct (Hv r) as [H3 H4]. split; congruence.
Qed.

(** Unlinking listener [l] of emitter [e], linked or still self-linked. *)
Lemma remove_good h t l e :
  wf h -> listener_of h l e -> nextOf h l <> None ->
  exists h', _removeNode l (mkState h t) = Ret tt (mkState h' t) /\
             wf h' /\ evolves h h' /\ null_at h' l.
Proof.
  intros Hwf Hl Hnn. pose proof Hwf as [Hty Hem].
  pose proof (Hty _ _ Hl) as He. destruct (Hem e He) as [ls Hinv].
  pose proof Hinv as (Hrn & Hmem & Hoth).
  destruct (decide (l ∈ ls)) as [Hin|Hnin].
  - destruct Hrn as [Hr|[-> _]]; [|set_solver].
    apply list_elem_of_split in Hin as (l1 & l2 & ->).
    destruct (ring_neighbours _ _ _ _ _ Hr) as [[Hpn Hlp] [Hln Hnp]].
    destruct (removeNode_views h t l (lastOf e l1) (hd e l2))
      as (h' & Hrun & Hsh & Hnext & Hprev);
      [done | done | by eapply nextOf_valid | by eapply prevOf_valid |].
    pose proof (same_shape_classes _ _ Hsh) as Hcl.
    pose proof (lastOf_in e l1) as Hlast.
    assert (hd e l2 ∈ e :: l2) as Hhd by (destruct l2; set_solver).
    assert (forall r, r <> l -> r <> lastOf e l1 -> r <> hd e l2 ->
              nextOf h' r = nextOf h r /\ prevOf h' r = prevOf h r) as Hfr.
    { intros r HA HB HC. by rewrite Hnext, Hprev, !decide_False. }
    assert (null_at h' l) as Hnull.
    { split; [rewrite Hnext | rewrite Hprev]; by rewrite decide_True. }
    assert (forall r, ~ listener_of h r e -> r <> e ->
              r <> l /\ r <> lastOf e l1 /\ r <> hd e l2) as Hout.
    { intros r HA HB. split; [by intros ->|]. split; intros ->.
      - apply elem_of_cons in Hlast as [?|?]; [done|]. apply HA, Hmem. set_solver.
      - apply elem_of_cons in Hhd as [?|?]; [done|]. apply HA, Hmem. set_solver. }
    exists h'. split; [done|]. split; [|split; [|done]].
    + eapply (wf_family_update h h' e (l1 ++ l2)); [done..| |].
      * intros r HA HB. destruct (Hout r HB HA) as (? & ? & ?). by apply Hfr.
      * split; [|split].
        -- left. by eapply ring_remove.
        -- intros x Hx. apply Hcl, Hmem. set_solver.
        -- intros x Hx. apply Hcl in Hx.
           destruct (decide (x = l)) as [->|Hxl]; [auto|].
           destruct (Hoth x Hx) as [Hin|Hns]; [left; set_solver|]. right.
           assert (x <> e) by (intros ->; exact (emitter_not_listener _ _ _ He Hx)).
           destruct (Hfr x) as [HA HB]; [done| | |].
           ++ intros ->. destruct Hns as [[? _]|[? _]]; congruence.
           ++ intros ->. destruct Hns as [[_ ?]|[_ ?]]; congruence.
           ++ unfold null_at, self_at. by rewrite HA, HB.
    + apply evolves_classes; [by rewrite (same_shape_length _ _ Hsh) | done |].
      intros r [Hr1 Hr2]. destruct (decide (r = l)) as [->|Hrl]; [done|].
      destruct (Hfr r) as [HA HB]; [done| | |split; congruence]; intros ->; congruence.
  - destruct (Hoth l Hl) as [?|[[? _]|[Hs1 Hs2]]]; [done..|].
    destruct (removeNode_views h t l l l)
      as (h' & Hrun & Hsh & Hnext & Hprev);
      [done | done | by eapply nextOf_valid | by eapply prevOf_valid |].
    pose proof (same_shape_classes _ _ Hsh) as Hcl.
    assert (forall r, r <> l -> nextOf h' r = nextOf h r /\ prevOf h' r = prevOf h r)
      as Hfr.
    { intros r HA. by rewrite Hnext, Hprev, !decide_False. }
    assert (null_at h' l) as Hnull.
    { split; [rewrite Hnext | rewrite Hprev]; by rewrite decide_True. }
    assert (l <> e) by (intros ->; exact (emitter_not_listener _ _ _ He Hl)).
    exists h'. split; [done|]. split; [|split; [|done]].
    + eapply (wf_family_update h h' e ls); [done..| |].
      * intros r HA HB. apply Hfr. by intros ->.
      * split; [|split].
        -- destruct Hrn as [Hr|[-> [Hn1 Hn2]]]; [left|right].
           ++ eapply ring_frame; [done|]. intros r Hr'. apply Hfr. set_solver.
           ++ destruct (Hfr e) as [HA HB]; [done|]. split; [done|]. split; congruence.
        -- intros x Hx. apply Hcl, Hmem. set_solver.
        -- intros x Hx. apply Hcl in Hx.
           destruct (decide (x = l)) as [->|Hxl]; [auto|].
           destruct (Hfr x Hxl) as [HA HB]. unfold null_at, self_at. rewrite HA, HB.
           by apply Hoth.
    + apply evolves_classes; [by rewrite (same_shape_length _ _ Hsh) | done |].
      intros r [Hr1 Hr2]. destruct (decide (r = l)) as [->|Hrl]; [done|].
      destruct (Hfr r Hrl) as [HA HB]. split; congruence.
Qed.

Lemma pure_good {A} (m : M A) s : pure m -> wf (heap s) -> good s (m s).
Proof. intros Hp Hwf. apply good_here; [done|]. apply Hp. Qed.

Lemma pure_deref r : pure (deref r).
Proof. intros s. unfold deref. destruct r as [a|]; [|done]. by destruct (heap s !! a). Qed.
Lemma pure_get_next r : pure (get_next r).
Proof.
  intros s. unfold get_next, bind. pose proof (pure_deref r s) as H.
  by destruct (deref r s).
Qed.
Lemma pure_log ev : pure (log ev).
Proof. by intros s. Qed.
Lemma pure_throw {A} e : pure (@throw A e).
Proof. by intros s. Qed.
Lemma pure_ret {A} (a : A) : pure (ret a).
Proof. by intros s. Qed.
Lemma pure_isDisposed r : pure (isDisposed r).
Proof.
  intros s. unfold isDisposed, bind. pose proof (pure_get_next (Some r) s) as H.
  by destruct (get_next (Some r) s).
Qed.

Lemma deref_inv r s o s' :
  deref r s = Ret o s' -> s' = s /\ exists a, r = Some a /\ heap s !! a = Some o.
Proof.
  unfold deref. destruct r as [a|]; [|done].
  destruct (heap s !! a) eqn:Ha; [|done]. intros [= <- <-]. eauto.
Qed.

Lemma isDisposed_inv r s b s' :
  isDisposed r s = Ret b s' ->
  s' = s /\ is_Some (heap s !! r) /\ (b = true <-> nextOf (heap s) r = None).
Proof.
  unfold isDisposed, get_next, bind.
  destruct (deref (Some r) s) as [o s1|?|] eqn:Hd; [|done..].
  apply deref_inv in Hd as (-> & a & [= <-] & Ha). unfold ret. intros [= <- <-].
  split; [done|]. split; [eauto|]. unfold nextOf. rewrite Ha. simpl.
  by destruct (_next (links o)).
Qed.

Lemma Listener_dispose_safe call l :
  safe_call call ->
  safe (fun h => exists e, listener_of h l e) (Listener_dispose call l).
Proof.
  intros Hc [h t] Hwf [e Hl]. simpl in Hwf, Hl. unfold Listener_dispose.
  apply good_bind; [apply pure_good; [apply pure_isDisposed | done]|].
  intros b s1 Hb _ _. apply isDisposed_inv in Hb as (-> & Hv & Hb). simpl in *.
  destruct b; [apply pure_good; [apply pure_ret | done]|].
  assert (nextOf h l <> None) as Hnn by (intros ?; by apply Hb in H).
  destruct (remove_good h t l e Hwf Hl Hnn) as (h' & Hrun & Hwf' & Hev & Hnull).
  erewrite bind_ret by done. eapply (good_trans _ (mkState h' t)); [done|].
  apply Hev in Hl as (lnk & cb & ctx & Hl').
  erewrite bind_ret by by apply deref_ok.
  by apply triggerChangeCB_safe.
Qed.

Lemma set_cb_views h e l cb ctx cb' ctx' :
  h !! e = Some (Emitter l cb ctx) ->
  let h' := alter (fun _ => Emitter l cb' ctx') e h in
  same_classes h h' /\ length h = length h' /\
  (forall r, nextOf h' r = nextOf h r /\ prevOf h' r = prevOf h r).
Proof.
  intros He h'. split; [|split].
  - split.
    + intros x y. unfold listener_of, h'. destruct (decide (e = x)) as [->|Hne].
      * rewrite list_lookup_alter_eq, He. simpl. split; intros (?&?&?&?); done.
      * by rewrite list_lookup_alter_ne.
    + intros x. unfold is_emitter, h'. destruct (decide (e = x)) as [->|Hne].
      * rewrite list_lookup_alter_eq, He. simpl. split; eauto.
      * by rewrite list_lookup_alter_ne.
  - unfold h'. by rewrite length_alter.
  - intros r. unfold nextOf, prevOf, h'. destruct (decide (e = r)) as [->|Hne].
    + by rewrite list_lookup_alter_eq, He.
    + by rewrite list_lookup_alter_ne.
Qed.

Lemma setChangeCB_safe e cb ctx : safe (fun _ => True) (setChangeCB e cb ctx).
Proof.
  intros [h t] Hwf _. simpl in Hwf. unfold setChangeCB.
  apply good_bind; [apply pure_good; [apply pure_deref | done]|].
  intros o s1 Ho _ _. apply deref_inv in Ho as (-> & a & [= <-] & Ha). simpl in Ha.
  destruct o as [l cb0 ctx0|]; [|apply pure_good; [apply pure_throw | done]].
  rewrite modify_ok by eauto.
  destruct (set_cb_views h e l cb0 ctx0 (match cb with Some f => f | None => _noop end)
              ctx Ha) as (Hcl & Hlen & Hv).
  by apply wf_same_views.
Qed.

Lemma same_shape_nullify h ns : same_shape h (nullify h ns).
Proof.
  intros r. rewrite lookup_nullify. destruct (decide (r ∈ ns)); [|done].
  destruct (h !! r); [|done]. simpl. unfold unlink. by rewrite set_links_idem.
Qed.

Lemma nextOf_nullify h ns r :
  nextOf (nullify h ns) r = if decide (r ∈ ns) then None else nextOf h r.
Proof.
  unfold nextOf. rewrite lookup_nullify. destruct (decide (r ∈ ns)); [|done].
  destruct (h !! r); [|done]. simpl. by rewrite links_set_links.
Qed.
Lemma prevOf_nullify h ns r :
  prevOf (nullify h ns) r = if decide (r ∈ ns) then None else prevOf h r.
Proof.
  unfold prevOf. rewrite lookup_nullify. destruct (decide (r ∈ ns)); [|done].
  destruct (h !! r); [|done]. simpl. by rewrite links_set_links.
Qed.

Lemma nullify_good h e ls :
  wf h -> is_emitter h e -> emitter_inv h e ls -> ring h e ls ->
  wf (nullify h (e :: ls)) /\ evolves h (nullify h (e :: ls)) /\
  emitter_inv (nullify h (e :: ls)) e [].
Proof.
  intros Hwf He (_ & Hmem & Hoth) Hr.
  set (h' := nullify h (e :: ls)).
  pose proof (same_shape_nullify h (e :: ls)) as Hsh. fold h' in Hsh.
  pose proof (same_shape_classes _ _ Hsh) as Hcl.
  assert (emitter_inv h' e []) as Hinv.
  { split; [|split].
    - right. split; [done|]. unfold h'.
      split; [rewrite nextOf_nullify | rewrite prevOf_nullify];
        rewrite decide_True; set_solver.
    - set_solver.
    - intros l Hl. right. apply Hcl in Hl. unfold null_at, self_at, h'.
      rewrite nextOf_nullify, prevOf_nullify.
      destruct (decide (l ∈ e :: ls)) as [Hin|Hnin]; [auto|].
      destruct (Hoth l Hl); [set_solver | done]. }
  split; [|split; [|done]].
  - eapply (wf_family_update h h' e []); [done..| |done].
    intros r HA HB. unfold h'. rewrite nextOf_nullify, prevOf_nullify.
    destruct (decide (r ∈ e :: ls)) as [Hin|?]; [|done].
    apply elem_of_cons in Hin as [?|Hin]; [done|]. exfalso. apply HB. auto.
  - apply evolves_classes; [by rewrite (same_shape_length _ _ Hsh) | done |].
    intros r [Hr1 Hr2]. unfold null_at, h'. rewrite nextOf_nullify, prevOf_nullify.
    by destruct (decide (r ∈ e :: ls)).
Qed.

Lemma Emitter_dispose_safe e : safe (fun h => is_emitter h e) (Emitter_dispose e).
Proof.
  intros [h t] Hwf He. simpl in Hwf, He. pose proof Hwf as [Hty Hem].
  destruct (Hem e He) as [ls Hinv]. pose proof He as (l & cb & ctx & Hle).
  destruct (emitter_inv_ring_or_null _ _ _ Hinv) as [Hr|[-> [Hn1 Hn2]]].
  - rewrite (Emitter_dispose_ring h t e l cb ctx ls) by done.
    destruct (nullify_good h e ls Hwf He Hinv Hr) as (Hwf1 & Hev1 & _).
    assert (nullify h (e :: ls) !! e = Some (Emitter null_links cb ctx)) as He'.
    { rewrite lookup_nullify, decide_True by set_solver. by rewrite Hle. }
    destruct (set_cb_views _ e null_links cb ctx _noop VUndefined He')
      as (Hcl & Hlen & Hv).
    destruct (wf_same_views _ _ Hwf1 Hcl Hlen Hv) as [Hwf2 Hev2].
    split; [done|]. by eapply evolves_trans.
  - unfold Emitter_dispose.
    erewrite bind_ret by by apply disposeList_disposed; eauto.
    erewrite bind_ret by by apply deref_ok. cbv beta iota.
    rewrite modify_ok by eauto.
    destruct (set_cb_views h e l cb ctx _noop VUndefined Hle) as (Hcl & Hlen & Hv).
    by apply wf_same_views.
Qed.

Lemma callAll_loop_safe call fuel : forall begin end_ args,
  safe_call call -> safe (fun _ => True) (callAll_loop call fuel begin end_ args).
Proof.
  induction fuel as [|fuel IH]; intros begin end_ args Hc s Hwf _; simpl.
  - destruct (bool_decide (begin = Some end_)); [|done].
    apply pure_good; [apply pure_ret | done].
  - destruct (bool_decide (begin = Some end_)); [apply pure_good; [apply pure_ret | done]|].
    destruct begin as [b|]; [|apply pure_good; [apply pure_throw | done]].
    apply good_bind; [apply pure_good; [apply pure_deref | done]|].
    intros lis s1 _ Hwf1 _.
    destruct lis as [|lnk em cb ctx]; [apply pure_good; [apply pure_throw | done]|].
    apply good_bind; [apply pure_good; [apply pure_log | done]|].
    intros _ s2 _ Hwf2 _. apply good_bind; [by apply Hc|].
    intros _ s3 _ Hwf3 _. apply good_bind; [apply pure_good; [apply pure_get_next | done]|].
    intros next s4 _ Hwf4 _. by apply IH.
Qed.

Lemma emit_safe call loops e args :
  safe_call call -> safe (fun _ => True) (emit call loops e args).
Proof.
  intros Hc s Hwf _. unfold emit.
  apply good_bind; [apply pure_good; [apply pure_get_next | done]|].
  intros n s1 _ Hwf1 _. by apply callAll_loop_safe.
Qed.

Lemma Emitter_new_safe : safe (fun _ => True) Emitter_new.
Proof.
  intros [h t] Hwf _. simpl in Hwf. unfold Emitter_new, alloc. simpl.
  by apply wf_alloc.
Qed.

Lemma run_cmd_safe call loops c :
  safe_call call -> safe (fun _ => True) (run_cmd call loops c).
Proof.
  intros Hc s Hwf _. destruct c as [|e cb ctx|e args|e cb ctx|x| |body]; cbn [run_cmd].
  - apply good_bind; [by apply Emitter_new_safe|].
    intros _ s1 _ Hwf1 _. apply pure_good; [apply pure_ret | done].
  - apply good_bind; [apply pure_good; [apply pure_deref | done]|].
    intros o s1 Ho _ _. apply deref_inv in Ho as (-> & a & [= <-] & Ha).
    destruct o as [l cb0 ctx0|]; [|apply pure_good; [apply pure_throw | done]].
    apply good_bind.
    + apply Listener_new_safe; [done..|]. by exists l, cb0, ctx0.
    + intros _ s1 _ Hwf1 _. apply pure_good; [apply pure_ret | done].
  - apply good_bind; [apply pure_good; [apply pure_deref | done]|].
    intros o s1 Ho Hwf1 _.
    destruct o as [l cb0 ctx0|]; [|apply pure_good; [apply pure_throw | done]].
    by apply emit_safe.
  - by apply setChangeCB_safe.
  - apply good_bind; [apply pure_good; [apply pure_deref | done]|].
    intros o s1 Ho _ _. apply deref_inv in Ho as (-> & a & [= <-] & Ha).
    destruct o as [l cb0 ctx0|l em cb0 ctx0].
    + apply Emitter_dispose_safe; [done|]. by exists l, cb0, ctx0.
    + apply Listener_dispose_safe; [done..|]. exists em. by exists l, cb0, ctx0.
  - apply pure_good; [apply pure_throw | done].
  - unfold catch. pose proof (Hc body s Hwf I) as Hb.
    by destruct (call body s).
Qed.

Lemma run_script_safe call loops cs :
  safe_call call -> safe (fun _ => True) (run_script call loops cs).
Proof.
  intros Hc. induction cs as [|c cs IH]; intros s Hwf _; cbn [run_script].
  - apply pure_good; [apply pure_ret | done].
  - apply good_bind; [by apply run_cmd_safe|].
    intros _ s1 _ Hwf1 _. by apply IH.
Qed.

Lemma exec_safe fuel : safe_call (exec fuel).
Proof.
  induction fuel as [|fuel IH]; intros cs s Hwf _; simpl; [done|].
  by apply run_script_safe.
Qed.

Lemma wf_init : wf (heap init).
Proof.
  split.
  - intros l e (? & ? & ? & H). done.
  - intros e (? & ? & ? & H). done.
Qed.

(** Every state a script reaches from the empty heap is well formed. *)
Lemma reachable_wf fuel cs :
  match exec fuel cs init with
  | Ret _ s | Throw _ s => wf (heap s)
  | Timeout => True
  end.
Proof.
  pose proof (exec_safe fuel cs init wf_init I) as H.
  destruct (exec fuel cs init); simpl in H; tauto.
Qed.

(** ** The example states *)

Ltac ring_by_computation :=
  split; [compute_done | vm_compute; repeat split].

Example two_listeners_built :
  exec 3 two_listeners init = Ret tt (mkState two_listeners_heap two_listeners_trace).
Proof. reflexivity. Qed.

Example two_listeners_ring : ring two_listeners_heap 0 [1; 2].
Proof. ring_by_computation. Qed.

Example first_disposed_built :
  exec 3 (two_listeners ++ [CDispose 1]) init = Ret tt first_disposed.
Proof. reflexivity. Qed.

Example self_disposer_built :
  exec 3 self_disposer init
  = Ret tt (mkState self_disposer_heap
              [EChange 0 VUndefined true; EChange 0 VUndefined true]).
Proof. reflexivity. Qed.

(** ** Disposing an emitter *)

Lemma disposed_heap_lookup h e lnk cb ctx ls :
  h !! e = Some (Emitter lnk cb ctx) ->
  ring h e ls ->
  let h' := alter (fun _ => Emitter null_links _noop VUndefined) e (nullify h (e :: ls)) in
  h' !! e = Some (Emitter null_links _noop VUndefined) /\
  (forall l, l ∈ ls -> h' !! l = set_links null_links <$> h !! l) /\
  (forall r, r ∉ e :: ls -> h' !! r = h !! r).
Proof.
  intros He [Hnd Hp] h'. apply NoDup_cons in Hnd as [Hnin _].
  split; [|split].
  - unfold h'. rewrite list_lookup_alter_eq, lookup_nullify, decide_True by set_solver.
    by rewrite He.
  - intros l Hl. assert (e <> l) by (intros ->; done).
    unfold h'. rewrite list_lookup_alter_ne by done.
    by rewrite lookup_nullify, decide_True by set_solver.
  - intros r Hnr. unfold h'. rewrite list_lookup_alter_ne by set_solver.
    by rewrite lookup_nullify, decide_False.
Qed.

Lemma isDisposed_null h t l :
  is_Some (h !! l) -> nextOf h l = None ->
  isDisposed l (mkState h t) = Ret true (mkState h t).
Proof.
  intros Hv Hn. unfold isDisposed. erewrite bind_ret by by apply get_next_ok.
  by rewrite Hn.
Qed.

Lemma isDisposed_unlinked (h h' : list obj) t l :
  is_Some (h !! l) -> h' !! l = set_links null_links <$> h !! l ->
  isDisposed l (mkState h' t) = Ret true (mkState h' t).
Proof.
  intros [o Ho] Hl. rewrite Ho in Hl. apply isDisposed_null; [eauto|].
  unfold nextOf. rewrite Hl. simpl. by rewrite links_set_links.
Qed.

(** C7: [Emitter.dispose()] on a live emitter with linked listeners [ls]
    returns normally; afterwards the emitter and every listener of [ls] have
    both links null (so [isDisposed()] holds of each), their other fields are
    as before, every other object is untouched, the change callback is
    [_noop] with an undefined context, and the trace is the same: no listener
    callback and no change callback was called. *)
Theorem Emitter_dispose_severs_links (s : state) (e : ref) lnk cb ctx (ls : list ref) :
  heap s !! e = Some (Emitter lnk cb ctx) ->
  ring (heap s) e ls ->
  exists h',
    Emitter_dispose e s = Ret tt (mkState h' (trace s)) /\
    h' !! e = Some (Emitter null_links _noop VUndefined) /\
    (forall l, l ∈ ls ->
       isDisposed l (mkState h' (trace s)) = Ret true (mkState h' (trace s)) /\
       h' !! l = set_links null_links <$> heap s !! l) /\
    (forall r, r ∉ e :: ls -> h' !! r = heap s !! r).
Proof.
  destruct s as [h t]. simpl. intros He Hr.
  destruct (disposed_heap_lookup h e lnk cb ctx ls He Hr) as (H1 & H2 & H3).
  eexists. split; [by eapply Emitter_dispose_ring|].
  split; [done|]. split; [|done].
  intros l Hl. split; [|by apply H2].
  eapply isDisposed_unlinked; [|by apply H2].
  eapply ring_valid; [done | set_solver].
Qed.

Lemma Emitter_dispose_severs_links_witness :
  exists h',
    Emitter_dispose 0 (mkState two_listeners_heap two_listeners_trace)
    = Ret tt (mkState h' two_listeners_trace) /\
    h' !! 0 = Some (Emitter null_links _noop VUndefined) /\
    (forall l, l ∈ [1; 2] ->
       isDisposed l (mkState h' two_listeners_trace)
       = Ret true (mkState h' two_listeners_trace) /\
       h' !! l = set_links null_links <$> two_listeners_heap !! l) /\
    (forall r, r ∉ [0; 1; 2] -> h' !! r = two_listeners_heap !! r).
Proof.
  apply (Emitter_dispose_severs_links
           (mkState two_listeners_heap two_listeners_trace) 0
           (mkLLink (Some 1) (Some 2)) _noop VUndefined [1; 2]).
  - reflexivity.
  - ring_by_computation.
Defined.

(** ** Use after [Emitter.dispose()] *)

(** C5, as stated, fails: emitting on a disposed emitter throws. *)
Lemma emit_after_dispose_not_silent :
  exec 3 (two_listeners ++ [CDispose 0; CEmit 0 [VNum 7]]) init
  = Throw TypeError (mkState two_listeners_disposed two_listeners_trace).
Proof. reflexivity. Qed.

(** C5, amended: after [Emitter.dispose()] the emitter's own [_next] is
    null, so [emit] calls no callback but dereferences null in [callAll] and
    throws a [TypeError]; the state is left as it was. *)
Theorem emit_after_dispose_throws call loops (s : state) (e : ref) lnk cb ctx
  (ls : list ref) (args : list value) :
  heap s !! e = Some (Emitter lnk cb ctx) ->
  ring (heap s) e ls ->
  0 < loops ->
  exists s',
    Emitter_dispose e s = Ret tt s' /\
    emit call loops e args s' = Throw TypeError s'.
Proof.
  destruct s as [h t]. simpl. intros He Hr Hl.
  eexists. split; [by eapply Emitter_dispose_ring|].
  set (h' := alter _ e _).
  assert (h' !! e = Some (Emitter null_links _noop VUndefined)) as He'.
  { unfold h'. rewrite list_lookup_alter_eq, lookup_nullify, decide_True by set_solver.
    by rewrite He. }
  apply emit_null_next; [eauto| |done]. unfold nextOf. by rewrite He'.
Qed.

Lemma emit_after_dispose_throws_witness :
  exists s',
    Emitter_dispose 0 (mkState two_listeners_heap two_listeners_trace) = Ret tt s' /\
    emit (exec 1) 1 0 [VNum 7] s' = Throw TypeError s'.
Proof.
  apply (emit_after_dispose_throws (exec 1) 1
           (mkState two_listeners_heap two_listeners_trace) 0
           (mkLLink (Some 1) (Some 2)) _noop VUndefined [1; 2]).
  - reflexivity.
  - ring_by_computation.
  - lia.
Defined.

Lemma linked_listeners_disposed h e : nextOf h e = None -> linked_listeners h e = [].
Proof. intros Hn. unfold linked_listeners. rewrite Hn. by destruct (length h). Qed.

(** C9: [addListener] on an emitter that [Emitter.dispose()] has severed
    does not register anything.  The constructor allocates the listener,
    then [_insertBefore] reads the emitter's null [_prev] and writes through
    it: the call throws a [TypeError].  The existing objects and the trace
    are unchanged, and the emitter still has no linked listener. *)
Theorem addListener_after_dispose_throws call (s : state) (e : ref) lnk cb0 ctx0
  (ls : list ref) (cb : ListenerCB) (ctx : value) :
  heap s !! e = Some (Emitter lnk cb0 ctx0) ->
  ring (heap s) e ls ->
  exists s',
    Emitter_dispose e s = Ret tt s' /\
    addListener call e cb ctx s'
    = Throw TypeError
        (mkState (heap s' ++ [Listener (self_links (length (heap s'))) e cb ctx])
           (trace s')) /\
    linked_listeners (heap s' ++ [Listener (self_links (length (heap s'))) e cb ctx]) e
    = [].
Proof.
  destruct s as [h t]. simpl. intros He Hr.
  eexists. split; [by eapply Emitter_dispose_ring|]. cbn [heap trace].
  pose proof (ring_valid _ _ _ e Hr ltac:(set_solver)) as Hv.
  set (h' := alter _ e _).
  assert (h' !! e = Some (Emitter null_links _noop VUndefined)) as He'.
  { unfold h'. rewrite list_lookup_alter_eq, lookup_nullify, decide_True by set_solver.
    by rewrite He. }
  split.
  - apply addListener_null_prev; [eauto|]. unfold prevOf. by rewrite He'.
  - apply linked_listeners_disposed. unfold nextOf.
    by rewrite (lookup_app_l_Some _ _ _ _ He').
Qed.

Lemma addListener_after_dispose_throws_witness :
  exists s',
    Emitter_dispose 0 (mkState two_listeners_heap two_listeners_trace) = Ret tt s' /\
    addListener (exec 1) 0 recorder (VStr "c") s'
    = Throw TypeError
        (mkState (heap s' ++ [Listener (self_links (length (heap s'))) 0 recorder
                                (VStr "c")])
           (trace s')) /\
    linked_listeners
      (heap s' ++ [Listener (self_links (length (heap s'))) 0 recorder (VStr "c")]) 0
    = [].
Proof.
  apply (addListener_after_dispose_throws (exec 1)
           (mkState two_listeners_heap two_listeners_trace) 0
           (mkLLink (Some 1) (Some 2)) _noop VUndefined [1; 2]).
  - reflexivity.
  - ring_by_computation.
Defined.

(** ** Disposing a listener twice *)

Lemma Listener_dispose_disposed call l s :
  isDisposed l s = Ret true s -> Listener_dispose call l s = Ret tt s.
Proof. intros H. unfold Listener_dispose. by erewrite bind_ret by done. Qed.

Lemma good_outcome {A} s (r : result A) s' :
  good s r -> outcome_state r = Some s' -> wf (heap s') /\ evolves (heap s) (heap s').
Proof. destruct r; simpl; [| |done]; by intros ? [= <-]. Qed.

Lemma Listener_dispose_disposes call l e s s' :
  safe_call call -> wf (heap s) -> listener_of (heap s) l e ->
  outcome_state (Listener_dispose call l s) = Some s' ->
  isDisposed l s' = Ret true s'.
Proof.
  intros Hc Hwf Hl. destruct s as [h t]. simpl in Hwf, Hl.
  pose proof (listener_of_valid _ _ _ Hl) as Hv.
  unfold Listener_dispose. unfold isDisposed at 1.
  erewrite bind_ret by by erewrite bind_ret by by apply get_next_ok.
  destruct (nextOf h l) as [x|] eqn:Hn.
  - assert (nextOf h l <> None) as Hnn by congruence.
    destruct (remove_good h t l e Hwf Hl Hnn) as (h' & Hrun & Hwf' & Hev & Hnull).
    erewrite bind_ret by done.
    apply Hev in Hl as Hl'. destruct Hl' as (lnk & cb & ctx & Hl').
    erewrite bind_ret by by apply deref_ok. intros Hout.
    pose proof (triggerChangeCB_safe call e Hc (mkState h' t) Hwf' I) as Hg.
    destruct (good_outcome _ _ _ Hg Hout) as [_ (Hlen & _ & _ & Hnm)].
    simpl in Hlen, Hnm. destruct s' as [h2 t2]. simpl in *.
    destruct (Hnm l) as [Hn2 _]; [eauto | done |].
    apply isDisposed_null; [|done].
    apply lookup_lt_is_Some. apply lookup_lt_Some in Hl'. lia.
  - intros [= <-]. by apply isDisposed_null.
Qed.

(** C8: [Listener.dispose()] on a listener that is already disposed, because
    it reports [isDisposed()], because its emitter was disposed while it was
    linked, or because its own [dispose()] already ran (returning or
    throwing from the change callback), returns normally and leaves the
    whole state as it is: no link changes and nothing is added to the trace,
    so the change callback is not called again. *)
Theorem Listener_dispose_idempotent call (l : ref) (s : state) :
  already_disposed l s -> Listener_dispose call l s = Ret tt s.
Proof.
  intros [H|s0 e lnk cb ctx ls He Hr Hl Hd|fuel0 cs s0 fuel e Hs0 Hl Hd];
    apply Listener_dispose_disposed.
  - done.
  - destruct s0 as [h0 t0]. simpl in He, Hr.
    rewrite (Emitter_dispose_ring h0 t0 e lnk cb ctx ls He Hr) in Hd. injection Hd as <-.
    destruct (disposed_heap_lookup h0 e lnk cb ctx ls He Hr) as (_ & H2 & _).
    eapply isDisposed_unlinked; [|by apply H2].
    eapply ring_valid; [done | set_solver].
  - eapply (Listener_dispose_disposes (exec fuel)); [apply exec_safe| |done..].
    pose proof (reachable_wf fuel0 cs) as Hwf.
    destruct (exec fuel0 cs init); simpl in Hs0; [| |done]; by injection Hs0 as ->.
Qed.

Lemma Listener_dispose_idempotent_witness :
  Listener_dispose (exec 2) 1 first_disposed = Ret tt first_disposed.
Proof.
  apply Listener_dispose_idempotent.
  apply (disposed_by_dispose 1 first_disposed 3 two_listeners
           (mkState two_listeners_heap two_listeners_trace) 2 0).
  - reflexivity.
  - by exists (mkLLink (Some 2) (Some 0)), recorder, (VStr "a").
  - reflexivity.
Defined.

(** ** [hasListeners] and the linked listeners *)

Lemma walk_nchain h e ls : forall a fuel,
  nchain h a (ls ++ [e]) -> e ∉ ls -> length ls < fuel ->
  walk fuel h (nextOf h a) e = ls.
Proof.
  induction ls as [|b ls IH]; intros a fuel Hch He Hf; simpl in Hch.
  - destruct Hch as [-> _]. destruct fuel; [lia|]. simpl. by rewrite decide_True.
  - destruct Hch as [-> Hch]. destruct fuel; [simpl in Hf; lia|]. simpl.
    rewrite decide_False by set_solver. f_equal. apply IH; [done|set_solver|].
    simpl in Hf. lia.
Qed.

Lemma linked_listeners_ring h e ls : ring h e ls -> linked_listeners h e = ls.
Proof.
  intros Hr. pose proof (ring_length _ _ _ Hr). destruct Hr as [Hnd Hp].
  apply NoDup_cons in Hnd as [He _].
  apply walk_nchain; [by apply path_nchain | done | done].
Qed.

Lemma ring_linked h e ls l : ring h e ls -> l ∈ ls -> linked h l.
Proof.
  intros Hr Hl. apply list_elem_of_split in Hl as (l1 & l2 & ->).
  destruct (ring_neighbours _ _ _ _ _ Hr) as [_ [Hn _]].
  exists (hd e l2). split; [done|]. destruct Hr as [Hnd _].
  apply NoDup_cons in Hnd as [He Hnd]. apply NoDup_app in Hnd as (_ & _ & Hnd).
  apply NoDup_cons in Hnd as [Hl2 _].
  destruct l2 as [|y l2]; simpl; [|set_solver].
  intros ->. set_solver.
Qed.

Lemma unlinked_not_linked h l : null_at h l \/ self_at h l -> ~ linked h l.
Proof. intros [[Hn _]|[Hn _]] (n & Hl & Hne); congruence. Qed.

(** In a well-formed heap the circular list of a live emitter holds exactly
    its linked listeners, and a disposed emitter has none. *)
Lemma hasListeners_wf h t e :
  wf h -> is_emitter h e ->
  exists b, hasListeners e (mkState h t) = Ret b (mkState h t) /\
    match nextOf h e with
    | Some _ =>
        exists ls,
          ring h e ls /\
          (forall l, l ∈ ls <-> listener_of h l e /\ linked h l) /\
          linked_listeners h e = ls /\
          (b = true <-> ls <> [])
    | None =>
        b = true /\
        null_at h e /\
        (forall l, listener_of h l e -> ~ linked h l) /\
        linked_listeners h e = []
    end.
Proof.
  intros [_ Hem] He. destruct (Hem e He) as (ls & [Hr|[-> [Hn Hp]]] & Hin & Hall).
  - eexists. split; [by apply hasListeners_run, is_emitter_valid|].
    assert (exists x, nextOf h e = Some x /\ (x = e <-> ls = [])) as (x & Hx & Hxe).
    { pose proof Hr as [Hnd Hp]. apply NoDup_cons in Hnd as [Hnin _].
      destruct ls as [|l ls]; simpl in Hp; destruct Hp as [[Hx _] _].
      - by exists e.
      - exists l. split; [done|]. split; [|done]. intros ->. set_solver. }
    rewrite Hx. exists ls. split; [done|]. split; [|split].
    + intros l. split.
      * intros Hl. split; [by apply Hin | by eapply ring_linked].
      * intros [Hl Hlk]. destruct (Hall l Hl) as [?|Hun]; [done|].
        by destruct (unlinked_not_linked _ _ Hun).
    + by apply linked_listeners_ring.
    + rewrite negb_true_iff, bool_decide_eq_false. rewrite <- Hxe.
      split; intros H; [by intros -> | by intros [= ->]].
  - eexists. split; [by apply hasListeners_run, is_emitter_valid|].
    rewrite Hn. split; [done|]. split; [done|]. split.
    + intros l Hl. apply unlinked_not_linked.
      destruct (Hall l Hl) as [?|?]; [set_solver | done].
    + by apply linked_listeners_disposed.
Qed.

(** C6, as stated, fails: after [Emitter.dispose()] the emitter's [_next]
    is null, which is not the emitter, so [hasListeners()] answers true
    although no listener is linked. *)
Lemma hasListeners_true_after_dispose :
  let s := mkState two_listeners_disposed two_listeners_trace in
  exec 3 (two_listeners ++ [CDispose 0]) init = Ret tt s /\
  hasListeners 0 s = Ret true s /\
  linked_listeners (heap s) 0 = [] /\
  (forall l, ~ linked (heap s) l).
Proof.
  repeat split. intros l (n & Hn & _).
  by destruct l as [|[|[|l]]].
Qed.

(** C6, amended: in every state that a sequence of operations reaches
    (scripts of [new Emitter], [addListener], [emit], [setChangeCB] and
    [dispose], with callbacks that run such scripts themselves, returning or
    throwing), an emitter that has not been disposed is the sentinel of a
    circular, doubly linked list without repetition whose other nodes [ls]
    are exactly those of its listeners that are linked, and [hasListeners()]
    is true exactly when [ls] is not empty; an emitter that has been
    disposed has null links, none of its listeners is linked, and
    [hasListeners()] is true. *)
Theorem hasListeners_iff_linked (fuel : nat) (cs : list cmd) (s : state) (e : ref) :
  outcome_state (exec fuel cs init) = Some s ->
  is_emitter (heap s) e ->
  exists b, hasListeners e s = Ret b s /\
    match nextOf (heap s) e with
    | Some _ =>
        exists ls,
          ring (heap s) e ls /\
          (forall l, l ∈ ls <-> listener_of (heap s) l e /\ linked (heap s) l) /\
          linked_listeners (heap s) e = ls /\
          (b = true <-> ls <> [])
    | None =>
        b = true /\
        null_at (heap s) e /\
        (forall l, listener_of (heap s) l e -> ~ linked (heap s) l) /\
        linked_listeners (heap s) e = []
    end.
Proof.
  intros Hs He. pose proof (reachable_wf fuel cs) as Hwf.
  destruct s as [h t]. apply hasListeners_wf; [|done].
  destruct (exec fuel cs init); simpl in Hs; [| |done]; by injection Hs as ->.
Qed.

Lemma hasListeners_iff_linked_witness :
  exists b, hasListeners 0 first_disposed = Ret b first_disposed /\
    match nextOf (heap first_disposed) 0 with
    | Some _ =>
        exists ls,
          ring (heap first_disposed) 0 ls /\
          (forall l, l ∈ ls <->
                     listener_of (heap first_disposed) l 0 /\
                     linked (heap first_disposed) l) /\
          linked_listeners (heap first_disposed) 0 = ls /\
          (b = true <-> ls <> [])
    | None =>
        b = true /\
        null_at (heap first_disposed) 0 /\
        (forall l, listener_of (heap first_disposed) l 0 ->
                   ~ linked (heap first_disposed) l) /\
        linked_listeners (heap first_disposed) 0 = []
    end.
Proof.
  apply (hasListeners_iff_linked 3 (two_listeners ++ [CDispose 1])).
  - reflexivity.
  - by exists (mkLLink (Some 2) (Some 2)), _noop, VUndefined.
Defined.

(** ** Emission *)

Lemma callAll_loop_end call fuel e args s :
  callAll_loop call fuel (Some e) e args s = Ret tt s.
Proof. destruct fuel; simpl; by rewrite bool_decide_eq_true_2. Qed.

Lemma callAll_loop_step call fuel b e args s lnk em cb ctx :
  b <> e -> heap s !! b = Some (Listener lnk em cb ctx) ->
  callAll_loop call (S fuel) (Some b) e args s
  = (log (ECall b ctx args) >>
     call (fn_body cb ctx args) >>
     let* next := get_next (Some b) in
     callAll_loop call fuel next e args) s.
Proof.
  intros Hne Hb. cbn [callAll_loop].
  rewrite bool_decide_eq_false_2 by congruence.
  unfold bind at 1. unfold deref. by rewrite Hb.
Qed.

Lemma ring_first h e ls : ring h e ls -> nextOf h e = Some (hd e ls).
Proof. intros [_ Hp]. destruct ls; simpl in *; by destruct Hp as [[? _] _]. Qed.

Lemma unmodified_next h h' rs r :
  unmodified h h' rs -> r ∈ rs -> nextOf h' r = nextOf h r.
Proof. intros Hu Hr. unfold nextOf. by rewrite Hu. Qed.

(** Two computations that differ in their continuation only. *)
Lemma bind_ext {A B} (m : M A) (k1 k2 : A -> M B) s :
  (forall a s', m s = Ret a s' -> k1 a s' = k2 a s') -> bind m k1 s = bind m k2 s.
Proof. intros H. unfold bind. destruct (m s); auto. Qed.

Lemma bind_inv_ret {A B} (m : M A) (k : A -> M B) s b s' :
  bind m k s = Ret b s' -> exists a s1, m s = Ret a s1 /\ k a s1 = Ret b s'.
Proof. unfold bind. destruct (m s) as [a s1| |]; [eauto|done..]. Qed.

Section Walk.
Variable call : list cmd -> M unit.
Variables (h0 : list obj) (e : ref) (ls : list ref) (args : list value).
Hypothesis Hring : ring h0 e ls.
Hypothesis Hlis : forall l, l ∈ ls -> listener_of h0 l e.

(** The loop of [callAll], with the listeners [rest] ahead of it in a list
    that is kept as it was, calls the callbacks of [rest] one after the
    other. *)
Lemma callAll_walk rest : forall pre s1 fuel,
  ls = pre ++ rest ->
  unmodified h0 (heap s1) ls ->
  kept_during call h0 ls args rest s1 ->
  length rest <= fuel ->
  callAll_loop call fuel (Some (hd e rest)) e args s1
  = emit_spec call h0 args rest s1 /\
  forall s', emit_spec call h0 args rest s1 = Ret tt s' ->
             unmodified h0 (heap s') ls.
Proof using Hring Hlis.
  induction rest as [|b rest IH]; intros pre s1 fuel Hls Hun Hkept Hfuel.
  - rewrite callAll_loop_end. split; [done|]. by intros s' [= <-].
  - destruct fuel as [|fuel]; [simpl in Hfuel; lia|].
    assert (b ∈ ls) as Hb by (rewrite Hls; set_solver).
    assert (b <> e) as Hbe.
    { destruct Hring as [Hnd _]. apply NoDup_cons in Hnd as [? _]. by intros ->. }
    destruct (Hlis b Hb) as (lnk & cb & ctx & Hlk).
    assert (heap s1 !! b = Some (Listener lnk e cb ctx)) as Hlk1.
    { rewrite Hun; [done | set_solver]. }
    cbn [hd emit_spec kept_during] in *. rewrite Hlk in *.
    rewrite (callAll_loop_step _ _ _ _ _ _ _ _ _ _ Hbe Hlk1).
    assert (forall s2,
               call (fn_body cb ctx args)
                    (mkState (heap s1) (trace s1 ++ [ECall b ctx args])) = Ret tt s2 ->
               (let* next := get_next (Some b) in
                callAll_loop call fuel next e args) s2
               = emit_spec call h0 args rest s2 /\
               forall s', emit_spec call h0 args rest s2 = Ret tt s' ->
                          unmodified h0 (heap s') ls) as Hstep.
    { intros s2 Hcall. destruct (Hkept s2 Hcall) as [Hun2 Hkept2].
      assert (nextOf (heap s2) b = Some (hd e rest)) as Hnext.
      { rewrite (unmodified_next _ _ _ _ Hun2) by done.
        rewrite Hls in Hring.
        by destruct (ring_neighbours _ _ _ _ _ Hring) as [_ [? _]]. }
      destruct s2 as [h2 t2]. cbn [heap trace] in *.
      erewrite bind_ret by by apply get_next_ok; eapply nextOf_valid.
      rewrite Hnext. apply (IH (pre ++ [b])); [|done..|simpl in Hfuel; lia].
      by rewrite <- app_assoc. }
    split.
    + apply bind_ext. intros [] s1' [= <-].
      apply bind_ext. intros [] s2 Hcall. by apply Hstep.
    + intros s' Hrun.
      apply bind_inv_ret in Hrun as ([] & s1' & [= <-] & Hrun).
      apply bind_inv_ret in Hrun as ([] & s2 & Hcall & Hrun).
      by apply (Hstep s2 Hcall).
Qed.
End Walk.

(** C1: when the list of emitter [e] is not modified during the emission,
    [emit(args)] is the computation [emit_spec] over the listeners [ls]
    linked in [e]'s list when it starts: it calls the callback of each of them
    once, in registration order, on the listener's context and with [args],
    each after the one before it has returned, and it returns when the last
    of them has returned (it throws what a callback throws); when it
    returns, the listeners are what they were. *)
Theorem emit_calls_each_listener_once call loops (s : state) (e : ref)
  (ls : list ref) (args : list value) :
  ring (heap s) e ls ->
  (forall l, l ∈ ls -> listener_of (heap s) l e) ->
  length ls <= loops ->
  list_kept call s ls args ->
  emit call loops e args s = emit_spec call (heap s) args ls s /\
  forall s', emit call loops e args s = Ret tt s' -> unmodified (heap s) (heap s') ls.
Proof.
  intros Hr Hl Hfuel Hk. unfold emit, callAll.
  pose proof (ring_first _ _ _ Hr) as Hn.
  destruct s as [h t]. cbn [heap trace] in *.
  erewrite bind_ret by by apply get_next_ok; eapply nextOf_valid.
  rewrite Hn.
  destruct (callAll_walk call h e ls args Hr Hl ls [] (mkState h t) loops)
    as [Heq Hun]; [done | by intros r _ | done | done |].
  split; [done|]. intros s'. rewrite Heq. apply Hun.
Qed.

Lemma emit_calls_each_listener_once_witness :
  emit (exec 2) 2 0 [VNum 7] (mkState relay_two_heap [])
  = emit_spec (exec 2) relay_two_heap [VNum 7] [2; 4] (mkState relay_two_heap []) /\
  forall s', emit (exec 2) 2 0 [VNum 7] (mkState relay_two_heap []) = Ret tt s' ->
             unmodified relay_two_heap (heap s') [2; 4].
Proof.
  apply (emit_calls_each_listener_once (exec 2) 2 (mkState relay_two_heap []) 0
           [2; 4] [VNum 7]).
  - ring_by_computation.
  - intros l Hl. assert (l = 2 \/ l = 4) as [-> | ->] by set_solver.
    + by exists (mkLLink (Some 4) (Some 0)), (Fn (fun _ a => [CEmit 1 a])), (VStr "relay").
    + by exists (mkLLink (Some 0) (Some 2)), recorder, (VStr "b").
  - simpl. lia.
  - intros s2 H2. vm_compute in H2. injection H2 as <-. split; [done|].
    intros s3 H3. vm_compute in H3. injection H3 as <-. done.
Defined.

(** The emission of the witness, evaluated: the relaying callback has run,
    the listener of the second emitter is called between the two listeners
    of the first. *)
Example relay_two_emission :
  emit (exec 2) 2 0 [VNum 7] (mkState relay_two_heap [])
  = Ret tt (mkState relay_two_heap
              [ECall 2 (VStr "relay") [VNum 7];
               ECall 3 (VStr "sink") [VNum 7];
               ECall 4 (VStr "b") [VNum 7]]).
Proof. reflexivity. Qed.

(** ** Emission over listeners that do nothing *)

Lemma quiet_shape (h h' : list obj) args l :
  unlink <$> h' !! l = unlink <$> h !! l -> quiet h args l -> quiet h' args l.
Proof.
  intros Hs (lnk & em & cb & ctx & Hl & Hq). rewrite Hl in Hs.
  destruct (h' !! l) as [o|] eqn:Ho; [|done]. simpl in Hs. injection Hs as Hs.
  apply unlink_Listener in Hs as [lnk' ->]. by exists lnk', em, cb, ctx.
Qed.

Lemma call_event_shape (h h' : list obj) args l :
  unlink <$> h' !! l = unlink <$> h !! l -> call_event h' args l = call_event h args l.
Proof.
  intros Hs. unfold call_event.
  destruct (h !! l) as [o|], (h' !! l) as [o'|]; simpl in Hs; try done.
  injection Hs as Hs. by destruct o, o'; simpl in Hs; try done; injection Hs as -> -> ->.
Qed.

Lemma call_events_shape (h h' : list obj) args ls :
  (forall l, l ∈ ls -> unlink <$> h' !! l = unlink <$> h !! l) ->
  map (call_event h' args) ls = map (call_event h args) ls.
Proof.
  intros Hs. induction ls as [|l ls IH]; [done|]. simpl.
  rewrite (call_event_shape h h') by (apply Hs; set_solver).
  rewrite IH; [done|]. intros. apply Hs. set_solver.
Qed.

Lemma quiet_silent call h args l :
  (forall s, call [] s = Ret tt s) -> quiet h args l -> silent call h args l.
Proof.
  intros Hcall (lnk & em & cb & ctx & Hl & Hq). exists lnk, em, cb, ctx.
  split; [done|]. intros t. by rewrite Hq.
Qed.

Lemma callAll_silent call e args h :
  forall rest a fuel t,
    nchain h a rest ->
    (forall l, l ∈ rest -> l <> e /\ silent call h args l) ->
    callAll_loop call (length rest + fuel) (nextOf h a) e args (mkState h t)
    = callAll_loop call fuel (nextOf h (lastOf a rest)) e args
        (mkState h (t ++ map (call_event h args) rest)).
Proof.
  induction rest as [|b rest IH]; intros a fuel t Hch Hq.
  - simpl. by rewrite app_nil_r.
  - destruct Hch as [Hn Hch]. rewrite Hn.
    destruct (Hq b) as (Hbe & lnk & em & cb & ctx & Hb & Hbody); [set_solver|].
    cbn [length Nat.add].
    rewrite (callAll_loop_step _ _ _ _ _ _ lnk em cb ctx Hbe) by done.
    erewrite bind_ret by reflexivity.
    erewrite bind_ret by apply Hbody.
    erewrite bind_ret by by apply get_next_ok; eauto.
    cbn [heap trace lastOf]. rewrite IH; [|done|intros; apply Hq; set_solver].
    cbn [map]. unfold call_event at 2. rewrite Hb. by rewrite <- app_assoc.
Qed.

Lemma isDisposed_linked h t l y :
  nextOf h l = Some y -> isDisposed l (mkState h t) = Ret false (mkState h t).
Proof.
  intros Hn. unfold isDisposed.
  erewrite bind_ret by by apply get_next_ok; eapply nextOf_valid.
  by rewrite Hn.
Qed.

Lemma triggerChangeCB_quiet call h t e lnk cb ctx :
  (forall s, call [] s = Ret tt s) ->
  h !! e = Some (Emitter lnk cb ctx) ->
  (forall b, fn_body cb ctx [VBool b] = []) ->
  _triggerChangeCB call e (mkState h t)
  = Ret tt (mkState h (t ++ [EChange e ctx (negb (bool_decide (nextOf h e = Some e)))])).
Proof.
  intros Hcall He Hq. unfold _triggerChangeCB.
  erewrite bind_ret by by apply deref_ok. cbv beta iota.
  erewrite bind_ret by by apply hasListeners_run; eauto.
  erewrite bind_ret by reflexivity. by rewrite Hq, Hcall.
Qed.

Lemma ring_hasListeners h e ls :
  ring h e ls -> negb (bool_decide (nextOf h e = Some e)) = negb (bool_decide (ls = [])).
Proof.
  intros Hr. rewrite (ring_first _ _ _ Hr). destruct Hr as [Hnd _].
  apply NoDup_cons in Hnd as [Hnin _]. destruct ls as [|l ls]; simpl.
  - by rewrite !bool_decide_eq_true_2.
  - rewrite !bool_decide_eq_false_2; [done..|]. intros [= ->]. set_solver.
Qed.

(** [x.dispose()] for a linked listener [x] of an emitter whose change
    callback does nothing. *)
Lemma Listener_dispose_linked call h t e l1 x l2 lnk cb ctx :
  (forall s, call [] s = Ret tt s) ->
  ring h e (l1 ++ x :: l2) ->
  h !! e = Some (Emitter lnk cb ctx) ->
  listener_of h x e ->
  (forall b, fn_body cb ctx [VBool b] = []) ->
  exists h',
    Listener_dispose call x (mkState h t)
    = Ret tt (mkState h' (t ++ [EChange e ctx (negb (bool_decide (l1 ++ l2 = [])))])) /\
    same_shape h h' /\ ring h' e (l1 ++ l2) /\ null_at h' x.
Proof.
  intros Hcall Hr He Hx Hq.
  destruct (ring_neighbours _ _ _ _ _ Hr) as [[Hpn Hlp] [Hln Hnp]].
  destruct (removeNode_views h t x (lastOf e l1) (hd e l2))
    as (h' & Hrun & Hsh & Hnext & Hprev);
    [done | done | by eapply nextOf_valid | by eapply prevOf_valid |].
  assert (ring h' e (l1 ++ l2)) as Hr' by by eapply ring_remove.
  exists h'. split; [|split; [done|split; [done|]]].
  - unfold Listener_dispose.
    erewrite bind_ret by by eapply isDisposed_linked.
    cbv beta iota. erewrite bind_ret by done.
    destruct (same_shape_listener_of _ _ _ _ Hsh Hx) as (lnk' & cb' & ctx' & Hx').
    erewrite bind_ret by by apply deref_ok. cbv beta iota.
    destruct (same_shape_emitter_fields _ _ _ _ _ _ Hsh He) as [lnk2 He'].
    rewrite (triggerChangeCB_quiet call h' t e lnk2 cb ctx) by done.
    by rewrite (ring_hasListeners _ _ _ Hr').
  - split; [rewrite Hnext | rewrite Hprev]; by rewrite decide_True.
Qed.

(** A whole pass over a ring of listeners whose callbacks leave the state
    as it is. *)
Lemma emit_silent call loops e args h t ls :
  ring h e ls -> length ls <= loops ->
  (forall l, l ∈ ls -> silent call h args l) ->
  emit call loops e args (mkState h t)
  = Ret tt (mkState h (t ++ map (call_event h args) ls)).
Proof.
  intros Hr Hfuel Hs. unfold emit, callAll.
  erewrite bind_ret by by apply get_next_ok; eapply ring_valid; [done|set_solver].
  replace loops with (length ls + (loops - length ls)) by lia.
  rewrite callAll_silent.
  - destruct (ring_last_link _ _ _ Hr) as [-> _]. apply callAll_loop_end.
  - by apply path_nchain, ring_path.
  - intros l Hl. split; [|by apply Hs]. destruct Hr as [Hnd _].
    apply NoDup_cons in Hnd as [? _]. by intros ->.
Qed.

Lemma exec_nil fuel s : exec (S fuel) [] s = Ret tt s.
Proof. done. Qed.

(** The callback [() => x.dispose()] for a linked listener [x]. *)
Lemma exec_dispose_linked fuel h t e l1 x l2 lnk cb ctx :
  ring h e (l1 ++ x :: l2) ->
  h !! e = Some (Emitter lnk cb ctx) ->
  listener_of h x e ->
  (forall b, fn_body cb ctx [VBool b] = []) ->
  exists h',
    exec (S (S fuel)) [CDispose x] (mkState h t)
    = Ret tt (mkState h' (t ++ [EChange e ctx (negb (bool_decide (l1 ++ l2 = [])))])) /\
    same_shape h h' /\ ring h' e (l1 ++ l2) /\ null_at h' x.
Proof.
  intros Hr He Hx Hq.
  destruct (Listener_dispose_linked (exec (S fuel)) h t e l1 x l2 lnk cb ctx)
    as (h' & Hrun & Hrest); [apply exec_nil | done..|].
  exists h'. split; [|done].
  cbn [exec run_script run_cmd]. destruct Hx as (lnk' & cb' & ctx' & Hx).
  erewrite bind_ret; [reflexivity|].
  erewrite bind_ret by by apply deref_ok. done.
Qed.

(** The same callback once [x] is disposed. *)
Lemma exec_dispose_disposed fuel h t x e :
  listener_of h x e -> nextOf h x = None ->
  exec (S fuel) [CDispose x] (mkState h t) = Ret tt (mkState h t).
Proof.
  intros (lnk' & cb' & ctx' & Hx) Hn.
  cbn [exec run_script run_cmd].
  erewrite bind_ret; [reflexivity|].
  erewrite bind_ret by by apply deref_ok. cbv beta iota.
  apply Listener_dispose_disposed, isDisposed_null; eauto.
Qed.

Lemma ring_not_sentinel h e ls l : ring h e ls -> l ∈ ls -> l <> e.
Proof. intros [Hnd _] Hl. apply NoDup_cons in Hnd as [? _]. by intros ->. Qed.

(** The start of a pass: the listeners [l1] leave the state as it is, then
    the callback of [l] is called. *)
Lemma emit_prefix_step call e args h t l1 l rest k lnk em cb ctx :
  ring h e (l1 ++ l :: rest) ->
  (forall y, y ∈ l1 -> silent call h args y) ->
  h !! l = Some (Listener lnk em cb ctx) ->
  emit call (length l1 + S k) e args (mkState h t)
  = (call (fn_body cb ctx args) >>
     let* next := get_next (Some l) in
     callAll_loop call k next e args)
      (mkState h (t ++ map (call_event h args) l1 ++ [ECall l ctx args])).
Proof.
  intros Hr Hs Hl. unfold emit, callAll.
  erewrite bind_ret by by apply get_next_ok; eapply ring_valid; [done|set_solver].
  rewrite callAll_silent.
  - destruct (ring_neighbours _ _ _ _ _ Hr) as [[-> _] _].
    rewrite (callAll_loop_step _ _ _ _ _ _ lnk em cb ctx);
      [|apply (ring_not_sentinel _ _ _ _ Hr); set_solver|done].
    erewrite bind_ret by reflexivity. cbn [heap trace]. by rewrite <- app_assoc.
  - apply ring_path in Hr. apply path_app in Hr as [Hp _]. by apply path_nchain.
  - intros y Hy. split; [|by apply Hs]. apply (ring_not_sentinel _ _ _ _ Hr). set_solver.
Qed.

(** The end of a pass: from the listener after [lastOf e pre] on, the
    listeners [rest] leave the state as it is. *)
Lemma callAll_rest_silent call e args h t pre rest k :
  ring h e (pre ++ rest) ->
  (forall y, y ∈ rest -> silent call h args y) ->
  length rest <= k ->
  callAll_loop call k (nextOf h (lastOf e pre)) e args (mkState h t)
  = Ret tt (mkState h (t ++ map (call_event h args) rest)).
Proof.
  intros Hr Hs Hk. replace k with (length rest + (k - length rest)) by lia.
  rewrite callAll_silent.
  - rewrite <- lastOf_app. destruct (ring_last_link _ _ _ Hr) as [-> _].
    apply callAll_loop_end.
  - apply ring_path in Hr. apply path_app in Hr as [_ Hp]. by apply path_nchain.
  - intros y Hy. split; [|by apply Hs]. apply (ring_not_sentinel _ _ _ _ Hr). set_solver.
Qed.

(** C2: let the listeners of [e] be [l1 ++ l :: l2 ++ x :: l3] in
    registration order, let the callback of [l] dispose the not yet visited
    listener [x], and let the other callbacks (and the change callback) do
    nothing.  Then [emit] returns normally; it has called [l1], [l], [l2]
    and [l3] in order and not [x]; afterwards [x] is disposed and the ring
    of [e] holds exactly the other listeners, and a second [emit] calls
    exactly those. *)
Theorem dispose_unvisited_during_emit (fuel loops : nat) (h : list obj) (t : list event)
  (e l x : ref) (l1 l2 l3 : list ref) lnk cb ctx lnkL cbL ctxL (args : list value) :
  2 <= fuel ->
  length (l1 ++ l :: l2 ++ l3) <= loops ->
  ring h e (l1 ++ l :: l2 ++ x :: l3) ->
  h !! e = Some (Emitter lnk cb ctx) ->
  (forall b, fn_body cb ctx [VBool b] = []) ->
  h !! l = Some (Listener lnkL e cbL ctxL) ->
  fn_body cbL ctxL args = [CDispose x] ->
  listener_of h x e ->
  (forall y, y ∈ l1 ++ l2 ++ l3 -> quiet h args y) ->
  exists h',
    emit (exec fuel) loops e args (mkState h t)
    = Ret tt (mkState h'
                (t ++ map (call_event h args) l1
                   ++ [ECall l ctxL args; EChange e ctx true]
                   ++ map (call_event h args) (l2 ++ l3))) /\
    same_shape h h' /\
    null_at h' x /\
    ring h' e (l1 ++ l :: l2 ++ l3) /\
    forall t', emit (exec fuel) loops e args (mkState h' t')
               = Ret tt (mkState h' (t' ++ map (call_event h args) (l1 ++ l :: l2 ++ l3))).
Proof.
  intros Hfuel Hloops Hr He Hcb Hl Hbody Hx Hq.
  destruct fuel as [|[|fuel]]; [lia..|].
  assert (forall h0 y, quiet h0 args y -> silent (exec (S (S fuel))) h0 args y) as Hqs.
  { intros h0 y. apply quiet_silent, exec_nil. }
  rewrite length_app in Hloops. cbn [length] in Hloops.
  replace loops with (length l1 + S (loops - length l1 - 1)) by lia.
  rewrite (emit_prefix_step _ e args h t l1 l _ _ lnkL e cbL ctxL Hr);
    [|intros; apply Hqs, Hq; set_solver|done].
  rewrite Hbody.
  assert (ring h e ((l1 ++ l :: l2) ++ x :: l3)) as Hr2 by by rewrite <- app_assoc.
  destruct (exec_dispose_linked fuel h
              (t ++ map (call_event h args) l1 ++ [ECall l ctxL args])
              e (l1 ++ l :: l2) x l3 lnk cb ctx Hr2 He Hx Hcb)
    as (h' & Hrun & Hsh & Hr' & Hnull).
  rewrite <- app_assoc in Hr'. cbn [app] in Hr'.
  rewrite bool_decide_eq_false_2 in Hrun by (by destruct l1).
  assert (forall y, y ∈ l1 ++ l2 ++ l3 -> silent (exec (S (S fuel))) h' args y) as Hs'.
  { intros y Hy. apply Hqs. eapply quiet_shape; [apply Hsh | by apply Hq]. }
  exists h'. split; [|split; [done|split; [done|split; [done|]]]].
  - erewrite bind_ret by exact Hrun.
    destruct (ring_neighbours _ _ _ _ _ Hr') as [_ [Hln _]].
    erewrite bind_ret by by apply get_next_ok; eapply nextOf_valid.
    replace (nextOf h' l) with (nextOf h' (lastOf e (l1 ++ [l])))
      by (by rewrite lastOf_snoc).
    rewrite (callAll_rest_silent _ e args h' _ (l1 ++ [l]) (l2 ++ l3)).
    + rewrite (call_events_shape h h') by (intros; apply Hsh).
      by rewrite <- !app_assoc.
    + by rewrite <- app_assoc.
    + intros y Hy. apply Hs'. set_solver.
    + rewrite length_app in *. lia.
  - intros t'. rewrite (emit_silent _ _ e args h' t' (l1 ++ l :: l2 ++ l3)).
    + by rewrite (call_events_shape h h') by (intros; apply Hsh).
    + done.
    + rewrite !length_app in *. cbn [length]. rewrite length_app. lia.
    + intros y Hy. destruct (decide (y = l)) as [->|Hne].
      * destruct (same_shape_listener_fields _ _ _ _ _ _ _ Hsh Hl) as [lnk' Hl'].
        exists lnk', e, cbL, ctxL. split; [done|]. intros t0. rewrite Hbody.
        apply (exec_dispose_disposed _ h' t0 x e); [|apply Hnull].
        by eapply same_shape_listener_of.
      * apply Hs'. set_solver.
Qed.

Example three_listeners_built :
  exec 3 three_listeners init
  = Ret tt (mkState three_listeners_heap
              [EChange 0 VUndefined true; EChange 0 VUndefined true;
               EChange 0 VUndefined true]).
Proof. reflexivity. Qed.

(** The scenario itself: [L1] and [L2] are called, [L3] is not, nothing is
    thrown, and a second [emit] calls [L1] and [L2] again. *)
Example three_listeners_scenario :
  emit (exec 2) 2 0 [] (mkState three_listeners_heap [])
  = Ret tt (mkState three_listeners_after
              [ECall 1 (VStr "L1") []; ECall 2 (VStr "L2") [];
               EChange 0 VUndefined true]) /\
  emit (exec 2) 2 0 [] (mkState three_listeners_after [])
  = Ret tt (mkState three_listeners_after
              [ECall 1 (VStr "L1") []; ECall 2 (VStr "L2") []]).
Proof. split; reflexivity. Qed.

Lemma dispose_unvisited_during_emit_witness :
  exists h',
    emit (exec 2) 2 0 [] (mkState three_listeners_heap [])
    = Ret tt (mkState h'
                ([] ++ map (call_event three_listeners_heap []) [1]
                   ++ [ECall 2 (VStr "L2") []; EChange 0 VUndefined true]
                   ++ map (call_event three_listeners_heap []) ([] ++ []))) /\
    same_shape three_listeners_heap h' /\
    null_at h' 3 /\
    ring h' 0 ([1] ++ 2 :: [] ++ []) /\
    forall t', emit (exec 2) 2 0 [] (mkState h' t')
               = Ret tt (mkState h'
                           (t' ++ map (call_event three_listeners_heap [])
                                    ([1] ++ 2 :: [] ++ []))).
Proof.
  apply (dispose_unvisited_during_emit 2 2 three_listeners_heap [] 0 2 3 [1] [] []
           (mkLLink (Some 1) (Some 3)) _noop VUndefined
           (mkLLink (Some 3) (Some 1)) (Fn (fun _ _ => [CDispose 3])) (VStr "L2") []).
  - lia.
  - simpl. lia.
  - ring_by_computation.
  - reflexivity.
  - reflexivity.
  - reflexivity.
  - reflexivity.
  - by exists (mkLLink (Some 0) (Some 2)), recorder, (VStr "L3").
  - intros y Hy. assert (y = 1) as -> by set_solver.
    by exists (mkLLink (Some 2) (Some 0)), 0, recorder, (VStr "L1").
Defined.

(** ** A listener that disposes itself *)

Lemma callAll_loop_null call fuel e args s :
  callAll_loop call (S fuel) None e args s = Throw TypeError s.
Proof. done. Qed.

(** C3 fails on the code.  Let the listeners of [e] be [l1 ++ l :: l2], let
    the callback of [l] dispose [l] itself, and let the callbacks of [l1]
    and the change callback do nothing.  Then [emit] calls [l1] and [l],
    [l] is unlinked and the ring of [e] is [l1 ++ l2]; but then [callAll]
    reads the [_next] of the disposed [l], which is null, dereferences it
    and throws a [TypeError]: no listener of [l2] is called. *)
Theorem dispose_self_during_emit_throws (fuel loops : nat) (h : list obj)
  (t : list event) (e l : ref) (l1 l2 : list ref) lnk cb ctx lnkL cbL ctxL
  (args : list value) :
  2 <= fuel ->
  length l1 + 2 <= loops ->
  ring h e (l1 ++ l :: l2) ->
  h !! e = Some (Emitter lnk cb ctx) ->
  (forall b, fn_body cb ctx [VBool b] = []) ->
  h !! l = Some (Listener lnkL e cbL ctxL) ->
  fn_body cbL ctxL args = [CDispose l] ->
  (forall y, y ∈ l1 -> quiet h args y) ->
  exists h',
    emit (exec fuel) loops e args (mkState h t)
    = Throw TypeError
        (mkState h'
           (t ++ map (call_event h args) l1
              ++ [ECall l ctxL args;
                  EChange e ctx (negb (bool_decide (l1 ++ l2 = [])))])) /\
    same_shape h h' /\
    null_at h' l /\
    ring h' e (l1 ++ l2).
Proof.
  intros Hfuel Hloops Hr He Hcb Hl Hbody Hq.
  destruct fuel as [|[|fuel]]; [lia..|].
  replace loops with (length l1 + S (S (loops - length l1 - 2))) by lia.
  rewrite (emit_prefix_step _ e args h t l1 l _ _ lnkL e cbL ctxL Hr);
    [|intros; apply quiet_silent; [apply exec_nil | by apply Hq]|done].
  rewrite Hbody.
  destruct (exec_dispose_linked fuel h
              (t ++ map (call_event h args) l1 ++ [ECall l ctxL args])
              e l1 l l2 lnk cb ctx Hr He) as (h' & Hrun & Hsh & Hr' & Hnull);
    [by exists lnkL, cbL, ctxL | done |].
  exists h'. split; [|done].
  erewrite bind_ret by exact Hrun.
  assert (is_Some (h' !! l)) as Hv by (apply (same_shape_valid _ _ _ Hsh); eauto).
  erewrite bind_ret by by apply get_next_ok.
  destruct Hnull as [-> _]. rewrite callAll_loop_null.
  by rewrite <- !app_assoc.
Qed.

Lemma dispose_self_during_emit_throws_witness :
  exists h',
    emit (exec 2) 3 0 [VNum 7] (mkState self_disposer_heap [])
    = Throw TypeError
        (mkState h'
           ([] ++ map (call_event self_disposer_heap [VNum 7]) []
              ++ [ECall 1 (VStr "once") [VNum 7];
                  EChange 0 VUndefined (negb (bool_decide ([] ++ [2] = [])))])) /\
    same_shape self_disposer_heap h' /\
    null_at h' 1 /\
    ring h' 0 ([] ++ [2]).
Proof.
  apply (dispose_self_during_emit_throws 2 3 self_disposer_heap [] 0 1 [] [2]
           (mkLLink (Some 1) (Some 2)) _noop VUndefined
           (mkLLink (Some 2) (Some 0)) (Fn (fun _ _ => [CDispose 1])) (VStr "once")
           [VNum 7]).
  - lia.
  - simpl. lia.
  - ring_by_computation.
  - reflexivity.
  - reflexivity.
  - reflexivity.
  - reflexivity.
  - intros y Hy. set_solver.
Defined.

(** The failing input, run from the empty heap. *)
Example self_disposer_scenario :
  exec 3 (self_disposer ++ [CEmit 0 [VNum 7]]) init
  = Throw TypeError
      (mkState self_disposer_after
         [EChange 0 VUndefined true; EChange 0 VUndefined true;
          ECall 1 (VStr "once") [VNum 7]; EChange 0 VUndefined true]).
Proof. reflexivity. Qed.

(** ** A listener added during an emission *)

(** [e.addListener(cbN, ctxN)] on a live emitter whose change callback does
    nothing. *)
Lemma addListener_live call h t e ls lnk cb ctx cbN ctxN :
  (forall s, call [] s = Ret tt s) ->
  ring h e ls ->
  h !! e = Some (Emitter lnk cb ctx) ->
  (forall b, fn_body cb ctx [VBool b] = []) ->
  exists h' lnkN,
    addListener call e cbN ctxN (mkState h t)
    = Ret (length h) (mkState h' (t ++ [EChange e ctx true])) /\
    ring h' e (ls ++ [length h]) /\
    h' !! length h = Some (Listener lnkN e cbN ctxN) /\
    (forall r, r <> length h -> unlink <$> h' !! r = unlink <$> h !! r).
Proof.
  intros Hcall Hr He Hcb.
  set (n := length h). set (o := Listener (self_links n) e cbN ctxN).
  pose proof (lookup_snoc_eq h o) as Hn. fold n in Hn.
  assert (forall r, r <> n -> (h ++ [o]) !! r = h !! r) as Hold
    by (intros; by apply lookup_snoc_ne).
  assert (forall r, r ∈ e :: ls -> r <> n) as Hne.
  { intros r Hin. apply valid_ne_length. by eapply ring_valid. }
  assert (ring (h ++ [o]) e ls) as Hr1.
  { eapply ring_frame; [done|]. intros r Hin. unfold nextOf, prevOf.
    by rewrite Hold by by apply Hne. }
  destruct (ring_last_link _ _ _ Hr1) as [Hln Hlp].
  destruct (insertBefore_views (h ++ [o]) t e n (lastOf e ls))
    as (h2 & Hrun & Hsh & Hnext & Hprev); [done | by eapply nextOf_valid | eauto |].
  assert (ring h2 e (ls ++ [n])) as Hr2.
  { eapply ring_insert; [done| |done..]. intros Hin. by apply Hne in Hin. }
  destruct (same_shape_listener_fields _ _ _ _ _ _ _ Hsh Hn) as [lnkN HnN].
  assert ((h ++ [o]) !! e = Some (Emitter lnk cb ctx)) as He1.
  { rewrite Hold; [done|]. apply Hne. set_solver. }
  destruct (same_shape_emitter_fields _ _ _ _ _ _ Hsh He1) as [lnk2 He2].
  exists h2, lnkN. split; [|split; [done|split; [done|]]].
  - unfold addListener, Listener_new.
    erewrite bind_ret by reflexivity. cbn [heap trace]. fold n. fold o.
    erewrite bind_ret by exact Hrun.
    erewrite bind_ret by by apply (triggerChangeCB_quiet call h2 t e lnk2 cb ctx).
    rewrite (ring_hasListeners _ _ _ Hr2).
    rewrite bool_decide_eq_false_2 by (by destruct ls). done.
  - intros r Hrn. by rewrite Hsh, Hold.
Qed.

Lemma exec_addListener_live fuel h t e ls lnk cb ctx cbN ctxN :
  ring h e ls ->
  h !! e = Some (Emitter lnk cb ctx) ->
  (forall b, fn_body cb ctx [VBool b] = []) ->
  exists h' lnkN,
    exec (S (S fuel)) [CAddListener e cbN ctxN] (mkState h t)
    = Ret tt (mkState h' (t ++ [EChange e ctx true])) /\
    ring h' e (ls ++ [length h]) /\
    h' !! length h = Some (Listener lnkN e cbN ctxN) /\
    (forall r, r <> length h -> unlink <$> h' !! r = unlink <$> h !! r).
Proof.
  intros Hr He Hcb.
  destruct (addListener_live (exec (S fuel)) h t e ls lnk cb ctx cbN ctxN)
    as (h' & lnkN & Hrun & Hrest); [apply exec_nil | done..|].
  exists h', lnkN. split; [|done].
  cbn [exec run_script run_cmd].
  erewrite bind_ret; [reflexivity|].
  erewrite bind_ret by by apply deref_ok. cbv beta iota.
  by erewrite bind_ret by exact Hrun.
Qed.

(** C4, as stated, fails: the listener that the callback of listener 1
    registers during [emit] is called in that same pass. *)
Lemma listener_added_during_emit_called :
  emit (exec 2) 2 0 [VNum 7] (mkState adder_heap [])
  = Ret tt (mkState adder_after
              [ECall 1 (VStr "adder") [VNum 7]; EChange 0 VUndefined true;
               ECall 2 (VStr "late") [VNum 7]]).
Proof. reflexivity. Qed.

(** C4, amended: [addListener] called from the callback of a linked
    listener [l] during [emit] links the new listener before the sentinel,
    and the pass, which stops only at the sentinel, reaches it: with the
    listeners [l1 ++ l :: l2] of [e], where the other callbacks, the change
    callback and the new callback do nothing, [emit] calls [l1], [l], [l2]
    and then the new listener, in that same pass. *)
Theorem listener_added_during_emit_is_called (fuel loops : nat) (h : list obj)
  (t : list event) (e l : ref) (l1 l2 : list ref) lnk cb ctx lnkL cbL ctxL
  (cbN : ListenerCB) (ctxN : value) (args : list value) :
  2 <= fuel ->
  length (l1 ++ l :: l2) + 1 <= loops ->
  ring h e (l1 ++ l :: l2) ->
  h !! e = Some (Emitter lnk cb ctx) ->
  (forall b, fn_body cb ctx [VBool b] = []) ->
  h !! l = Some (Listener lnkL e cbL ctxL) ->
  fn_body cbL ctxL args = [CAddListener e cbN ctxN] ->
  fn_body cbN ctxN args = [] ->
  (forall y, y ∈ l1 ++ l2 -> quiet h args y) ->
  exists h' lnkN,
    emit (exec fuel) loops e args (mkState h t)
    = Ret tt (mkState h'
                (t ++ map (call_event h args) l1
                   ++ [ECall l ctxL args; EChange e ctx true]
                   ++ map (call_event h args) l2
                   ++ [ECall (length h) ctxN args])) /\
    ring h' e (l1 ++ l :: l2 ++ [length h]) /\
    h' !! length h = Some (Listener lnkN e cbN ctxN).
Proof.
  intros Hfuel Hloops Hr He Hcb Hl Hbody HbodyN Hq.
  destruct fuel as [|[|fuel]]; [lia..|].
  rewrite length_app in Hloops. cbn [length] in Hloops.
  replace loops with (length l1 + S (loops - length l1 - 1)) by lia.
  rewrite (emit_prefix_step _ e args h t l1 l _ _ lnkL e cbL ctxL Hr);
    [|intros; apply quiet_silent; [apply exec_nil | apply Hq; set_solver]|done].
  rewrite Hbody.
  destruct (exec_addListener_live fuel h
              (t ++ map (call_event h args) l1 ++ [ECall l ctxL args])
              e (l1 ++ l :: l2) lnk cb ctx cbN ctxN Hr He Hcb)
    as (h' & lnkN & Hrun & Hr' & HN & Hsh).
  rewrite <- app_assoc in Hr'. cbn [app] in Hr'.
  assert (forall r, r ∈ e :: l1 ++ l :: l2 -> r <> length h) as Hne.
  { intros r Hin. apply valid_ne_length. by eapply ring_valid. }
  exists h', lnkN. split; [|done].
  erewrite bind_ret by exact Hrun.
  destruct (ring_neighbours _ _ _ _ _ Hr') as [_ [Hln _]].
  erewrite bind_ret by by apply get_next_ok; eapply nextOf_valid.
  replace (nextOf h' l) with (nextOf h' (lastOf e (l1 ++ [l])))
    by (by rewrite lastOf_snoc).
  rewrite (callAll_rest_silent _ e args h' _ (l1 ++ [l]) (l2 ++ [length h])).
  - rewrite List.map_app. cbn [map].
    replace (call_event h' args (length h)) with (ECall (length h) ctxN args)
      by (unfold call_event; by rewrite HN).
    rewrite (call_events_shape h h').
    + by rewrite <- !app_assoc.
    + intros y Hy. apply Hsh, Hne. set_solver.
  - by rewrite <- app_assoc.
  - intros y [Hy|Hy]%elem_of_app.
    + apply quiet_silent; [apply exec_nil|].
      eapply quiet_shape; [|apply Hq; set_solver]. apply Hsh, Hne. set_solver.
    + assert (y = length h) as -> by set_solver.
      apply quiet_silent; [apply exec_nil|]. by exists lnkN, e, cbN, ctxN.
  - rewrite length_app. cbn [length]. lia.
Qed.

Lemma listener_added_during_emit_is_called_witness :
  exists h' lnkN,
    emit (exec 2) 2 0 [VNum 7] (mkState adder_heap [])
    = Ret tt (mkState h'
                ([] ++ map (call_event adder_heap [VNum 7]) []
                   ++ [ECall 1 (VStr "adder") [VNum 7]; EChange 0 VUndefined true]
                   ++ map (call_event adder_heap [VNum 7]) []
                   ++ [ECall (length adder_heap) (VStr "late") [VNum 7]])) /\
    ring h' 0 ([] ++ 1 :: [] ++ [length adder_heap]) /\
    h' !! length adder_heap = Some (Listener lnkN 0 recorder (VStr "late")).
Proof.
  apply (listener_added_during_emit_is_called 2 2 adder_heap [] 0 1 [] []
           (mkLLink (Some 1) (Some 1)) _noop VUndefined
           (mkLLink (Some 0) (Some 0))
           (Fn (fun _ _ => [CAddListener 0 recorder (VStr "late")])) (VStr "adder")
           recorder (VStr "late") [VNum 7]).
  - lia.
  - simpl. lia.
  - ring_by_computation.
  - reflexivity.
  - reflexivity.
  - reflexivity.
  - reflexivity.
  - reflexivity.
  - intros y Hy. set_solver.
Defined.

Example adder_built :
  exec 3 adder init = Ret tt (mkState adder_heap [EChange 0 VUndefined true]).
Proof. reflexivity. Qed.

(** * Further properties of the list operations *)

(** ** Objects from their shape and links *)

Lemma obj_ext o o' : unlink o = unlink o' -> links o = links o' -> o = o'.
Proof. destruct o, o'; simpl; intros [= <- <-] ->; congruence. Qed.

Lemma lookup_ext (h h' : list obj) r :
  unlink <$> h' !! r = unlink <$> h !! r ->
  nextOf h' r = nextOf h r -> prevOf h' r = prevOf h r ->
  h' !! r = h !! r.
Proof.
  unfold nextOf, prevOf. destruct (h' !! r) as [o'|], (h !! r) as [o|]; simpl; try done.
  intros [= Hu] Hn Hp. f_equal. apply obj_ext; [done|].
  destruct (links o'), (links o); simpl in *; congruence.
Qed.

Lemma shape_emitter_at (h h' : list obj) e lnk cb ctx :
  unlink <$> h' !! e = unlink <$> h !! e -> h !! e = Some (Emitter lnk cb ctx) ->
  exists lnk', h' !! e = Some (Emitter lnk' cb ctx).
Proof.
  intros Hs He. rewrite He in Hs. destruct (h' !! e) as [o|] eqn:Ho; [|done].
  simpl in Hs. injection Hs as Hs. apply unlink_Emitter in Hs as [lnk' ->]. eauto.
Qed.

Lemma ring_not_null h e ls x : ring h e ls -> x ∈ e :: ls -> nextOf h x <> None.
Proof.
  intros [_ Hp] Hx. apply path_nchain in Hp. rewrite <- (sources_snoc e ls e) in Hx.
  revert Hp Hx. generalize (ls ++ [e]). intros l. revert e.
  induction l as [|b l IH]; intros a; simpl; [set_solver|].
  intros [H1 H2] [->|Hx]%elem_of_cons; [congruence | eauto].
Qed.

(** ** The change callback is called after the list was updated *)

Lemma triggerChangeCB_run call h t e lnk cb ctx :
  h !! e = Some (Emitter lnk cb ctx) ->
  _triggerChangeCB call e (mkState h t)
  = call (fn_body cb ctx [VBool (negb (bool_decide (nextOf h e = Some e)))])
      (mkState h (t ++ [EChange e ctx (negb (bool_decide (nextOf h e = Some e)))])).
Proof.
  intros He. unfold _triggerChangeCB.
  erewrite bind_ret by by apply deref_ok. cbv beta iota.
  erewrite bind_ret by by apply hasListeners_run; eauto.
  by erewrite bind_ret by reflexivity.
Qed.

(** [new Listener(e, cbN, ctxN)] up to the call of the change callback. *)
Lemma addListener_to_trigger call h t e ls lnk cb ctx cbN ctxN :
  ring h e ls ->
  h !! e = Some (Emitter lnk cb ctx) ->
  exists h',
    addListener call e cbN ctxN (mkState h t)
    = (call (fn_body cb ctx [VBool true]) >> ret (length h))
        (mkState h' (t ++ [EChange e ctx true])) /\
    ring h' e (ls ++ [length h]) /\
    h' !! length h
    = Some (Listener (mkLLink (Some e) (Some (lastOf e ls))) e cbN ctxN) /\
    (forall r, r <> length h -> unlink <$> h' !! r = unlink <$> h !! r) /\
    (forall r, r <> length h ->
       nextOf h' r = if decide (r = lastOf e ls) then Some (length h) else nextOf h r) /\
    (forall r, r <> length h ->
       prevOf h' r = if decide (r = e) then Some (length h) else prevOf h r).
Proof.
  intros Hr He.
  set (n := length h). set (o := Listener (self_links n) e cbN ctxN).
  pose proof (lookup_snoc_eq h o) as Hn. fold n in Hn.
  assert (forall r, r <> n -> (h ++ [o]) !! r = h !! r) as Hold
    by (intros; by apply lookup_snoc_ne).
  assert (forall r, r ∈ e :: ls -> r <> n) as Hne.
  { intros r Hin. apply valid_ne_length. by eapply ring_valid. }
  assert (ring (h ++ [o]) e ls) as Hr1.
  { eapply ring_frame; [done|]. intros r Hin. unfold nextOf, prevOf.
    by rewrite Hold by by apply Hne. }
  destruct (ring_last_link _ _ _ Hr1) as [Hln Hlp].
  destruct (insertBefore_views (h ++ [o]) t e n (lastOf e ls))
    as (h2 & Hrun & Hsh & Hnext & Hprev); [done | by eapply nextOf_valid | eauto |].
  assert (ring h2 e (ls ++ [n])) as Hr2.
  { eapply ring_insert; [done| |done..]. intros Hin. by apply Hne in Hin. }
  destruct (same_shape_listener_fields _ _ _ _ _ _ _ Hsh Hn) as [lnkN HnN].
  assert ((h ++ [o]) !! e = Some (Emitter lnk cb ctx)) as He1.
  { rewrite Hold; [done|]. apply Hne. set_solver. }
  destruct (same_shape_emitter_fields _ _ _ _ _ _ Hsh He1) as [lnk2 He2].
  exists h2. split; [|split; [done|split; [|split; [|split]]]].
  - unfold addListener, Listener_new.
    erewrite bind_ret by reflexivity. cbn [heap trace]. fold n. fold o.
    erewrite bind_ret by exact Hrun. unfold bind.
    rewrite (triggerChangeCB_run call h2 t e lnk2 cb ctx He2).
    rewrite (ring_hasListeners _ _ _ Hr2).
    rewrite bool_decide_eq_false_2 by (by destruct ls). done.
  - rewrite HnN. do 2 f_equal.
    pose proof (Hnext n) as H1. pose proof (Hprev n) as H2.
    rewrite decide_True in H1, H2 by done.
    unfold nextOf in H1. unfold prevOf in H2. rewrite HnN in H1, H2. simpl in H1, H2.
    destruct lnkN. simpl in *. congruence.
  - intros r Hrn. by rewrite Hsh, Hold.
  - intros r Hrn. rewrite Hnext, decide_False by done.
    destruct (decide (r = lastOf e ls)); [done|]. unfold nextOf. by rewrite Hold.
  - intros r Hrn. rewrite Hprev, decide_False by done.
    destruct (decide (r = e)); [done|]. unfold prevOf. by rewrite Hold.
Qed.

(** [x.dispose()] for a linked listener up to the call of the change
    callback. *)
Lemma dispose_to_trigger call h t e l1 x l2 :
  ring h e (l1 ++ x :: l2) ->
  listener_of h x e ->
  exists h',
    Listener_dispose call x (mkState h t) = _triggerChangeCB call e (mkState h' t) /\
    same_shape h h' /\
    ring h' e (l1 ++ l2) /\
    (forall r, nextOf h' r =
               if decide (r = x) then None
               else if decide (r = lastOf e l1) then Some (hd e l2) else nextOf h r) /\
    (forall r, prevOf h' r =
               if decide (r = x) then None
               else if decide (r = hd e l2) then Some (lastOf e l1) else prevOf h r).
Proof.
  intros Hr Hx.
  destruct (ring_neighbours _ _ _ _ _ Hr) as [[Hpn Hlp] [Hln Hnp]].
  destruct (removeNode_views h t x (lastOf e l1) (hd e l2))
    as (h' & Hrun & Hsh & Hnext & Hprev);
    [done | done | by eapply nextOf_valid | by eapply prevOf_valid |].
  exists h'. split; [|split; [done|split; [by eapply ring_remove|done]]].
  unfold Listener_dispose.
  erewrite bind_ret by by eapply isDisposed_linked.
  cbv beta iota. erewrite bind_ret by done.
  destruct (same_shape_listener_of _ _ _ _ Hsh Hx) as (lnk' & cb' & ctx' & Hx').
  by erewrite bind_ret by by apply deref_ok.
Qed.

Lemma addListener_frame (h h' : list obj) e ls r :
  (forall r, r <> length h -> unlink <$> h' !! r = unlink <$> h !! r) ->
  (forall r, r <> length h ->
     nextOf h' r = if decide (r = lastOf e ls) then Some (length h) else nextOf h r) ->
  (forall r, r <> length h ->
     prevOf h' r = if decide (r = e) then Some (length h) else prevOf h r) ->
  r ∉ [e; lastOf e ls; length h] -> h' !! r = h !! r.
Proof.
  intros Hsh Hnext Hprev Hr.
  assert (r <> length h /\ r <> e /\ r <> lastOf e ls) as (H1 & H2 & H3) by set_solver.
  apply lookup_ext; [by apply Hsh | |].
  - by rewrite Hnext, decide_False.
  - by rewrite Hprev, decide_False.
Qed.

(** X1: [addListener] on a live emitter whose change callback returns
    normally links the new listener last in the ring, between the former
    last node and the sentinel, returns its reference, and has called the
    change callback once, with [true]; only the sentinel, the former last
    node and the new listener are written. *)
Theorem addListener_appends call (h : list obj) (t : list event) (e : ref)
  (ls : list ref) lnk cb ctx (cbN : ListenerCB) (ctxN : value) :
  ring h e ls ->
  h !! e = Some (Emitter lnk cb ctx) ->
  (forall s, call (fn_body cb ctx [VBool true]) s = Ret tt s) ->
  exists h',
    addListener call e cbN ctxN (mkState h t)
    = Ret (length h) (mkState h' (t ++ [EChange e ctx true])) /\
    ring h' e (ls ++ [length h]) /\
    h' !! length h
    = Some (Listener (mkLLink (Some e) (Some (lastOf e ls))) e cbN ctxN) /\
    forall r, r ∉ [e; lastOf e ls; length h] -> h' !! r = h !! r.
Proof.
  intros Hr He Hcb.
  destruct (addListener_to_trigger call h t e ls lnk cb ctx cbN ctxN Hr He)
    as (h' & Hrun & Hr' & Hn & Hsh & Hnext & Hprev).
  exists h'. split; [|split; [done|split; [done|]]].
  - rewrite Hrun. by erewrite bind_ret by apply Hcb.
  - intros r. by apply addListener_frame.
Qed.

Lemma addListener_appends_witness :
  exists h',
    addListener (exec 1) 0 recorder (VStr "c")
      (mkState two_listeners_heap two_listeners_trace)
    = Ret (length two_listeners_heap)
        (mkState h' (two_listeners_trace ++ [EChange 0 VUndefined true])) /\
    ring h' 0 ([1; 2] ++ [length two_listeners_heap]) /\
    h' !! length two_listeners_heap
    = Some (Listener (mkLLink (Some 0) (Some (lastOf 0 [1; 2]))) 0 recorder (VStr "c")) /\
    forall r, r ∉ [0; lastOf 0 [1; 2]; length two_listeners_heap] ->
              h' !! r = two_listeners_heap !! r.
Proof.
  apply (addListener_appends (exec 1) two_listeners_heap two_listeners_trace 0 [1; 2]
           (mkLLink (Some 1) (Some 2)) _noop VUndefined).
  - ring_by_computation.
  - reflexivity.
  - intros s. reflexivity.
Defined.

(** X2: when the change callback throws, [addListener] throws too and the
    caller gets no handle, but the listener is already linked: the
    constructor inserts before it notifies. *)
Theorem addListener_links_before_notifying call (h : list obj) (t : list event)
  (e : ref) (ls : list ref) lnk cb ctx (cbN : ListenerCB) (ctxN : value) (err : error) :
  ring h e ls ->
  h !! e = Some (Emitter lnk cb ctx) ->
  (forall s, call (fn_body cb ctx [VBool true]) s = Throw err s) ->
  exists h',
    addListener call e cbN ctxN (mkState h t)
    = Throw err (mkState h' (t ++ [EChange e ctx true])) /\
    ring h' e (ls ++ [length h]) /\
    h' !! length h
    = Some (Listener (mkLLink (Some e) (Some (lastOf e ls))) e cbN ctxN).
Proof.
  intros Hr He Hcb.
  destruct (addListener_to_trigger call h t e ls lnk cb ctx cbN ctxN Hr He)
    as (h' & Hrun & Hr' & Hn & _).
  exists h'. split; [|done]. rewrite Hrun. by erewrite bind_throw by apply Hcb.
Qed.

Lemma addListener_links_before_notifying_witness :
  exists h',
    addListener (exec 1) 0 recorder (VStr "b") (mkState thrower_heap [])
    = Throw UserError (mkState h' ([] ++ [EChange 0 VUndefined true])) /\
    ring h' 0 ([1] ++ [length thrower_heap]) /\
    h' !! length thrower_heap
    = Some (Listener (mkLLink (Some 0) (Some (lastOf 0 [1]))) 0 recorder (VStr "b")).
Proof.
  apply (addListener_links_before_notifying (exec 1) thrower_heap [] 0 [1]
           (mkLLink (Some 1) (Some 1)) thrower VUndefined).
  - ring_by_computation.
  - reflexivity.
  - intros s. reflexivity.
Defined.

Lemma dispose_frame (h h' : list obj) x p n r :
  same_shape h h' ->
  (forall r, nextOf h' r =
             if decide (r = x) then None
             else if decide (r = p) then Some n else nextOf h r) ->
  (forall r, prevOf h' r =
             if decide (r = x) then None
             else if decide (r = n) then Some p else prevOf h r) ->
  (r = x -> h' !! r = set_links null_links <$> h !! r) /\
  (r ∉ [x; p; n] -> h' !! r = h !! r).
Proof.
  intros Hsh Hnext Hprev. split.
  - intros ->. specialize (Hsh x). specialize (Hnext x). specialize (Hprev x).
    rewrite decide_True in Hnext, Hprev by done. unfold nextOf, prevOf in *.
    destruct (h' !! x) as [o'|], (h !! x) as [o|]; simpl in *; try done.
    injection Hsh as Hsh. f_equal. apply obj_ext.
    + unfold unlink in *. by rewrite set_links_idem.
    + rewrite links_set_links. destruct (links o'). simpl in *. by subst.
  - intros Hr.
    assert (r <> x /\ r <> p /\ r <> n) as (H1 & H2 & H3) by set_solver.
    apply lookup_ext; [by apply Hsh | |].
    + by rewrite Hnext, !decide_False.
    + by rewrite Hprev, !decide_False.
Qed.

(** X3: [dispose()] of a linked listener [x], when the change callback
    returns normally, unlinks exactly [x]: the ring keeps the other
    listeners in their order, [x] has both links null, the change callback
    was called once, with whether a listener is left, and only [x] and its
    two neighbours are written. *)
Theorem Listener_dispose_unlinks call (h : list obj) (t : list event) (e x : ref)
  (l1 l2 : list ref) lnk cb ctx :
  ring h e (l1 ++ x :: l2) ->
  h !! e = Some (Emitter lnk cb ctx) ->
  listener_of h x e ->
  (forall s, call (fn_body cb ctx [VBool (negb (bool_decide (l1 ++ l2 = [])))]) s
             = Ret tt s) ->
  exists h',
    Listener_dispose call x (mkState h t)
    = Ret tt (mkState h' (t ++ [EChange e ctx (negb (bool_decide (l1 ++ l2 = [])))])) /\
    ring h' e (l1 ++ l2) /\
    h' !! x = set_links null_links <$> h !! x /\
    forall r, r ∉ [x; lastOf e l1; hd e l2] -> h' !! r = h !! r.
Proof.
  intros Hr He Hx Hcb.
  destruct (dispose_to_trigger call h t e l1 x l2 Hr Hx)
    as (h' & Hrun & Hsh & Hr' & Hnext & Hprev).
  destruct (same_shape_emitter_fields _ _ _ _ _ _ Hsh He) as [lnk' He'].
  exists h'. split; [|split; [done|]].
  - rewrite Hrun, (triggerChangeCB_run call h' t e lnk' cb ctx He').
    rewrite (ring_hasListeners _ _ _ Hr'). apply Hcb.
  - split.
    + by apply (dispose_frame h h' x (lastOf e l1) (hd e l2) x).
    + intros r. by apply (dispose_frame h h' x (lastOf e l1) (hd e l2) r).
Qed.

Lemma Listener_dispose_unlinks_witness :
  exists h',
    Listener_dispose (exec 1) 1 (mkState two_listeners_heap two_listeners_trace)
    = Ret tt (mkState h'
                (two_listeners_trace
                   ++ [EChange 0 VUndefined (negb (bool_decide ([] ++ [2] = [])))])) /\
    ring h' 0 ([] ++ [2]) /\
    h' !! 1 = set_links null_links <$> two_listeners_heap !! 1 /\
    forall r, r ∉ [1; lastOf 0 []; hd 0 [2]] -> h' !! r = two_listeners_heap !! r.
Proof.
  apply (Listener_dispose_unlinks (exec 1) two_listeners_heap two_listeners_trace 0 1
           [] [2] (mkLLink (Some 1) (Some 2)) _noop VUndefined).
  - ring_by_computation.
  - reflexivity.
  - by exists (mkLLink (Some 2) (Some 0)), recorder, (VStr "a").
  - intros s. reflexivity.
Defined.

(** X4: when the change callback throws, [dispose()] of a linked listener
    throws, but the listener is unlinked all the same: [_removeNode] runs
    before the notification. *)
Theorem Listener_dispose_unlinks_before_notifying call (h : list obj)
  (t : list event) (e x : ref) (l1 l2 : list ref) lnk cb ctx (err : error) :
  ring h e (l1 ++ x :: l2) ->
  h !! e = Some (Emitter lnk cb ctx) ->
  listener_of h x e ->
  (forall s, call (fn_body cb ctx [VBool (negb (bool_decide (l1 ++ l2 = [])))]) s
             = Throw err s) ->
  exists h',
    Listener_dispose call x (mkState h t)
    = Throw err
        (mkState h' (t ++ [EChange e ctx (negb (bool_decide (l1 ++ l2 = [])))])) /\
    ring h' e (l1 ++ l2) /\
    h' !! x = set_links null_links <$> h !! x.
Proof.
  intros Hr He Hx Hcb.
  destruct (dispose_to_trigger call h t e l1 x l2 Hr Hx)
    as (h' & Hrun & Hsh & Hr' & Hnext & Hprev).
  destruct (same_shape_emitter_fields _ _ _ _ _ _ Hsh He) as [lnk' He'].
  exists h'. split; [|split; [done|]].
  - rewrite Hrun, (triggerChangeCB_run call h' t e lnk' cb ctx He').
    rewrite (ring_hasListeners _ _ _ Hr'). apply Hcb.
  - by apply (dispose_frame h h' x (lastOf e l1) (hd e l2) x).
Qed.

Lemma Listener_dispose_unlinks_before_notifying_witness :
  exists h',
    Listener_dispose (exec 1) 1 (mkState thrower_heap [])
    = Throw UserError
        (mkState h'
           ([] ++ [EChange 0 VUndefined (negb (bool_decide (@nil nat ++ [] = [])))])) /\
    ring h' 0 ([] ++ []) /\
    h' !! 1 = set_links null_links <$> thrower_heap !! 1.
Proof.
  apply (Listener_dispose_unlinks_before_notifying (exec 1) thrower_heap [] 0 1 [] []
           (mkLLink (Some 1) (Some 1)) thrower VUndefined).
  - ring_by_computation.
  - reflexivity.
  - by exists (mkLLink (Some 0) (Some 0)), recorder, (VStr "a").
  - intros s. reflexivity.
Defined.

(** X5: registering a listener and disposing it again restores the list
    exactly: with change callbacks that return normally, the heap afterwards
    is the heap before plus the disposed listener object, and the change
    callback was called twice, with [true] and then with whether the emitter
    had listeners to begin with. *)
Theorem add_then_dispose_restores call (h : list obj) (t : list event) (e : ref)
  (ls : list ref) lnk cb ctx (cbN : ListenerCB) (ctxN : value) :
  ring h e ls ->
  h !! e = Some (Emitter lnk cb ctx) ->
  (forall b s, call (fn_body cb ctx [VBool b]) s = Ret tt s) ->
  (let* l := addListener call e cbN ctxN in Listener_dispose call l) (mkState h t)
  = Ret tt (mkState (h ++ [Listener null_links e cbN ctxN])
              (t ++ [EChange e ctx true; EChange e ctx (negb (bool_decide (ls = [])))])).
Proof.
  intros Hr He Hcb.
  destruct (addListener_to_trigger call h t e ls lnk cb ctx cbN ctxN Hr He)
    as (h2 & Hrun & Hr2 & Hn & Hsh2 & Hnext2 & Hprev2).
  erewrite bind_ret.
  2: { rewrite Hrun. by erewrite bind_ret by apply Hcb. }
  assert (listener_of h2 (length h) e) as Hlis by (by eexists _, _, _).
  destruct (dispose_to_trigger call h2 (t ++ [EChange e ctx true]) e ls (length h) []
              Hr2 Hlis) as (h3 & Hrun3 & Hsh3 & Hr3 & Hnext3 & Hprev3).
  rewrite app_nil_r in Hr3. cbn [hd] in Hnext3, Hprev3.
  assert (e <> length h) as Hen.
  { apply valid_ne_length. eauto. }
  destruct (shape_emitter_at h h2 e lnk cb ctx (Hsh2 e Hen) He) as [lnk2 He2].
  destruct (same_shape_emitter_fields _ _ _ _ _ _ Hsh3 He2) as [lnk3 He3].
  rewrite Hrun3, (triggerChangeCB_run call h3 _ e lnk3 cb ctx He3).
  rewrite (ring_hasListeners _ _ _ Hr3), Hcb, <- app_assoc. do 2 f_equal.
  destruct (ring_last_link _ _ _ Hr) as [Hln Hlp].
  apply list_eq. intros r. destruct (decide (r = length h)) as [->|Hrn].
  - rewrite lookup_snoc_eq.
    destruct (dispose_frame h2 h3 (length h) (lastOf e ls) e (length h) Hsh3 Hnext3 Hprev3)
      as [Hx _]. rewrite Hx by done. by rewrite Hn.
  - rewrite lookup_snoc_ne by done. apply lookup_ext.
    + by rewrite Hsh3, Hsh2.
    + rewrite Hnext3, decide_False, Hnext2 by done.
      by destruct (decide (r = lastOf e ls)) as [->|?].
    + rewrite Hprev3, decide_False, Hprev2 by done.
      by destruct (decide (r = e)) as [->|?].
Qed.

Lemma add_then_dispose_restores_witness :
  (let* l := addListener (exec 1) 0 recorder (VStr "c") in Listener_dispose (exec 1) l)
    (mkState two_listeners_heap two_listeners_trace)
  = Ret tt (mkState (two_listeners_heap ++ [Listener null_links 0 recorder (VStr "c")])
              (two_listeners_trace
                 ++ [EChange 0 VUndefined true;
                     EChange 0 VUndefined (negb (bool_decide ([1; 2] = [])))])).
Proof.
  apply (add_then_dispose_restores (exec 1) two_listeners_heap two_listeners_trace 0
           [1; 2] (mkLLink (Some 1) (Some 2)) _noop VUndefined).
  - ring_by_computation.
  - reflexivity.
  - intros b s. reflexivity.
Defined.

(** X6: a freshly constructed emitter is a live, empty list: it is not
    disposed, [hasListeners()] is false, no listener is linked, and [emit]
    returns at once, whatever the loop bound, leaving the state as it is. *)
Theorem fresh_emitter_is_empty call (loops : nat) (s : state) (args : list value) :
  exists s',
    Emitter_new s = Ret (length (heap s)) s' /\
    trace s' = trace s /\
    isDisposed (length (heap s)) s' = Ret false s' /\
    hasListeners (length (heap s)) s' = Ret false s' /\
    linked_listeners (heap s') (length (heap s)) = [] /\
    emit call loops (length (heap s)) args s' = Ret tt s'.
Proof.
  destruct s as [h t]. cbn [heap trace].
  set (o := Emitter (self_links (length h)) _noop VUndefined).
  pose proof (lookup_snoc_eq h o) as Ho.
  assert (nextOf (h ++ [o]) (length h) = Some (length h)) as Hn.
  { unfold nextOf. by rewrite Ho. }
  exists (mkState (h ++ [o]) t). split; [done|]. split; [done|].
  split; [by eapply isDisposed_linked|]. split; [|split].
  - rewrite hasListeners_run by eauto. by rewrite Hn, bool_decide_eq_true_2.
  - cbn [heap]. unfold linked_listeners. rewrite Hn, length_app. cbn [length].
    rewrite Nat.add_1_r. simpl. by rewrite decide_True.
  - unfold emit, callAll. erewrite bind_ret by by apply get_next_ok; eauto.
    rewrite Hn. apply callAll_loop_end.
Qed.

(** X7: a listener callback that throws aborts the emission: [emit] throws
    the same error, the listeners after it are not called, and the list is
    as it was. *)
Theorem emit_stops_at_throwing_listener (fuel loops : nat) (h : list obj)
  (t : list event) (e l : ref) (l1 l2 : list ref) lnkL em cbL ctxL
  (args : list value) :
  1 <= fuel ->
  length l1 < loops ->
  ring h e (l1 ++ l :: l2) ->
  h !! l = Some (Listener lnkL em cbL ctxL) ->
  fn_body cbL ctxL args = [CThrow] ->
  (forall y, y ∈ l1 -> quiet h args y) ->
  emit (exec fuel) loops e args (mkState h t)
  = Throw UserError
      (mkState h (t ++ map (call_event h args) l1 ++ [ECall l ctxL args])).
Proof.
  intros Hfuel Hloops Hr Hl Hbody Hq.
  destruct fuel as [|fuel]; [lia|].
  replace loops with (length l1 + S (loops - length l1 - 1)) by lia.
  rewrite (emit_prefix_step _ e args h t l1 l _ _ lnkL em cbL ctxL Hr);
    [|intros; apply quiet_silent; [apply exec_nil | by apply Hq]|done].
  by rewrite Hbody.
Qed.

Lemma emit_stops_at_throwing_listener_witness :
  emit (exec 1) 2 0 [VNum 7] (mkState throwing_listener_heap [])
  = Throw UserError
      (mkState throwing_listener_heap
         ([] ++ map (call_event throwing_listener_heap [VNum 7]) []
            ++ [ECall 1 (VStr "bad") [VNum 7]])).
Proof.
  apply (emit_stops_at_throwing_listener 1 2 throwing_listener_heap [] 0 1 [] [2]
           (mkLLink (Some 2) (Some 0)) 0 thrower (VStr "bad") [VNum 7]).
  - lia.
  - simpl. lia.
  - ring_by_computation.
  - reflexivity.
  - reflexivity.
  - intros y Hy. set_solver.
Defined.

(** X8: [Emitter.dispose()] is idempotent: a second call on the disposed
    emitter returns normally and leaves the state as the first call left
    it. *)
Theorem Emitter_dispose_twice (s : state) (e : ref) lnk cb ctx (ls : list ref) :
  heap s !! e = Some (Emitter lnk cb ctx) ->
  ring (heap s) e ls ->
  exists s',
    Emitter_dispose e s = Ret tt s' /\ Emitter_dispose e s' = Ret tt s'.
Proof.
  destruct s as [h t]. cbn [heap]. intros He Hr.
  destruct (disposed_heap_lookup h e lnk cb ctx ls He Hr) as (He' & _ & _).
  eexists. split; [by eapply Emitter_dispose_ring|].
  set (h' := alter _ e _) in *. unfold Emitter_dispose.
  erewrite bind_ret.
  2: { apply disposeList_disposed; [eauto|]. unfold nextOf. by rewrite He'. }
  erewrite bind_ret by by apply deref_ok. cbv beta iota.
  rewrite modify_ok by eauto. do 2 f_equal.
  apply list_eq. intros r. destruct (decide (e = r)) as [<-|Hne].
  - by rewrite list_lookup_alter_eq, He'.
  - by rewrite list_lookup_alter_ne.
Qed.

Lemma Emitter_dispose_twice_witness :
  exists s',
    Emitter_dispose 0 (mkState two_listeners_heap two_listeners_trace) = Ret tt s' /\
    Emitter_dispose 0 s' = Ret tt s'.
Proof.
  apply (Emitter_dispose_twice (mkState two_listeners_heap two_listeners_trace) 0
           (mkLLink (Some 1) (Some 2)) _noop VUndefined [1; 2]).
  - reflexivity.
  - ring_by_computation.
Defined.

(** ** What holds in every reachable state *)

Lemma reachable_state_wf fuel cs s :
  outcome_state (exec fuel cs init) = Some s -> wf (heap s).
Proof.
  intros Hs. pose proof (reachable_wf fuel cs) as Hwf.
  destruct (exec fuel cs init); simpl in Hs; [| |done]; by injection Hs as ->.
Qed.

Lemma links_eta lnk n p : _next lnk = n -> _prev lnk = p -> lnk = mkLLink n p.
Proof. destruct lnk. simpl. by intros -> ->. Qed.

(** A node of a well-formed heap whose [_next] is null has a null [_prev]
    too. *)
Lemma wf_null_next h r : wf h -> is_Some (h !! r) -> nextOf h r = None -> null_at h r.
Proof.
  intros [Hty Hem] [o Ho] Hn. destruct o as [lnk cb ctx|lnk e cb ctx].
  - destruct (Hem r) as (ls & [Hr|[_ Hnull]] & _); [by exists lnk, cb, ctx| |done].
    exfalso. eapply ring_not_null; [done| |done]. set_solver.
  - assert (listener_of h r e) as Hl by (by exists lnk, cb, ctx).
    destruct (Hem e (Hty _ _ Hl)) as (ls & Hrn & _ & Hoth).
    destruct (Hoth r Hl) as [Hin|[?|[Hs _]]]; [|done|congruence].
    destruct Hrn as [Hr|[-> _]]; [|set_solver].
    exfalso. eapply ring_not_null; [done| |done]. set_solver.
Qed.

(** X9: disposal is permanent.  In a state that a sequence of operations
    has reached, an emitter or listener that reports [isDisposed()] still
    does so after any further sequence of operations, whether that returns
    or throws: no operation links a disposed node again. *)
Theorem disposed_stays_disposed (fuel0 : nat) (cs0 : list cmd) (s : state) (r : ref)
  (fuel : nat) (cs : list cmd) (s' : state) :
  outcome_state (exec fuel0 cs0 init) = Some s ->
  isDisposed r s = Ret true s ->
  outcome_state (exec fuel cs s) = Some s' ->
  isDisposed r s' = Ret true s'.
Proof.
  intros Hs Hd Hs'. apply reachable_state_wf in Hs.
  apply isDisposed_inv in Hd as (_ & Hv & Hn).
  pose proof (wf_null_next _ _ Hs Hv (proj1 Hn eq_refl)) as Hnull.
  pose proof (exec_safe fuel cs s Hs I) as Hg.
  destruct (good_outcome _ _ _ Hg Hs') as [_ (Hlen & _ & _ & Hnm)].
  destruct (Hnm r Hv Hnull) as [Hn' _]. destruct s' as [h' t'].
  apply isDisposed_null; [|done].
  apply lookup_lt_is_Some. apply lookup_lt_is_Some in Hv. simpl in Hlen. lia.
Qed.

Lemma disposed_stays_disposed_witness :
  isDisposed 1
    (mkState
       [Emitter (mkLLink (Some 2) (Some 3)) _noop VUndefined;
        Listener null_links 0 recorder (VStr "a");
        Listener (mkLLink (Some 3) (Some 0)) 0 recorder (VStr "b");
        Listener (mkLLink (Some 0) (Some 2)) 0 recorder (VStr "c")]
       (trace first_disposed
          ++ [EChange 0 VUndefined true; ECall 2 (VStr "b") []; ECall 3 (VStr "c") []]))
  = Ret true
      (mkState
         [Emitter (mkLLink (Some 2) (Some 3)) _noop VUndefined;
          Listener null_links 0 recorder (VStr "a");
          Listener (mkLLink (Some 3) (Some 0)) 0 recorder (VStr "b");
          Listener (mkLLink (Some 0) (Some 2)) 0 recorder (VStr "c")]
         (trace first_disposed
            ++ [EChange 0 VUndefined true; ECall 2 (VStr "b") [];
                ECall 3 (VStr "c") []])).
Proof.
  apply (disposed_stays_disposed 3 (two_listeners ++ [CDispose 1]) first_disposed 1
           3 [CAddListener 0 recorder (VStr "c"); CEmit 0 []]).
  - reflexivity.
  - reflexivity.
  - reflexivity.
Defined.

(** X10: in every reachable state a listener object is in one of three
    states: linked in the list of its emitter, between two neighbours whose
    links point back at it; disposed, with both links null; or still linked
    to itself, which is how the constructor leaves it when the insertion
    into a disposed emitter throws.  Its emitter field names an emitter. *)
Theorem reachable_listener_linked_or_unlinked (fuel : nat) (cs : list cmd)
  (s : state) (l : ref) lnk (e : ref) cb ctx :
  outcome_state (exec fuel cs init) = Some s ->
  heap s !! l = Some (Listener lnk e cb ctx) ->
  is_emitter (heap s) e /\
  ((l ∈ linked_listeners (heap s) e /\
    exists p n, lnk = mkLLink (Some n) (Some p) /\
                link (heap s) p l /\ link (heap s) l n) \/
   lnk = null_links \/
   lnk = self_links l).
Proof.
  intros Hs Hl. apply reachable_state_wf in Hs as [Hty Hem].
  assert (listener_of (heap s) l e) as Hlis by (by exists lnk, cb, ctx).
  pose proof (Hty _ _ Hlis) as He. split; [done|].
  destruct (Hem e He) as (ls & Hrn & _ & Hoth).
  assert (forall n p, nextOf (heap s) l = n -> prevOf (heap s) l = p -> lnk = mkLLink n p)
    as Hlnk.
  { unfold nextOf, prevOf. rewrite Hl. simpl. apply links_eta. }
  destruct (Hoth l Hlis) as [Hin|[[Hn Hp]|[Hn Hp]]].
  - left. destruct Hrn as [Hr|[-> _]]; [|set_solver].
    rewrite (linked_listeners_ring _ _ _ Hr). split; [done|].
    apply list_elem_of_split in Hin as (l1 & l2 & ->).
    destruct (ring_neighbours _ _ _ _ _ Hr) as [Hp Hn].
    exists (lastOf e l1), (hd e l2). split; [|done].
    apply Hlnk; [apply Hn | apply Hp].
  - right; left. by apply Hlnk.
  - right; right. by apply Hlnk.
Qed.

Lemma reachable_listener_linked_or_unlinked_witness :
  is_emitter (heap first_disposed) 0 /\
  ((2 ∈ linked_listeners (heap first_disposed) 0 /\
    exists p n, mkLLink (Some 0) (Some 0) = mkLLink (Some n) (Some p) /\
                link (heap first_disposed) p 2 /\ link (heap first_disposed) 2 n) \/
   mkLLink (Some 0) (Some 0) = null_links \/
   mkLLink (Some 0) (Some 0) = self_links 2).
Proof.
  apply (reachable_listener_linked_or_unlinked 3 (two_listeners ++ [CDispose 1])
           first_disposed 2 (mkLLink (Some 0) (Some 0)) 0 recorder (VStr "b")).
  - reflexivity.
  - reflexivity.
Defined.

(** ** More on emission *)

Lemma nextOf_lookup h r o : h !! r = Some o -> nextOf h r = _next (links o).
Proof. intros H. unfold nextOf. by rewrite H. Qed.

(** X11: a listener callback that disposes the emitter makes the emission
    throw: [Emitter.dispose()] nulls the links of the listener being
    visited as well, so [callAll] reads a null [_next] and dereferences it.
    The emitter and all its listeners end up severed, the listeners after
    the disposing one are not called, and no change callback is called. *)
Theorem dispose_emitter_during_emit_throws (fuel loops : nat) (h : list obj)
  (t : list event) (e l : ref) (l1 l2 : list ref) lnk cb ctx lnkL cbL ctxL
  (args : list value) :
  1 <= fuel ->
  length l1 + 2 <= loops ->
  ring h e (l1 ++ l :: l2) ->
  h !! e = Some (Emitter lnk cb ctx) ->
  h !! l = Some (Listener lnkL e cbL ctxL) ->
  fn_body cbL ctxL args = [CDispose e] ->
  (forall y, y ∈ l1 -> quiet h args y) ->
  exists h',
    emit (exec fuel) loops e args (mkState h t)
    = Throw TypeError
        (mkState h' (t ++ map (call_event h args) l1 ++ [ECall l ctxL args])) /\
    h' !! e = Some (Emitter null_links _noop VUndefined) /\
    forall y, y ∈ l1 ++ l :: l2 -> h' !! y = set_links null_links <$> h !! y.
Proof.
  intros Hfuel Hloops Hr He Hl Hbody Hq.
  destruct fuel as [|fuel]; [lia|].
  destruct (disposed_heap_lookup h e lnk cb ctx _ He Hr) as (He' & Hls & _).
  eexists. split; [|by split].
  replace loops with (length l1 + S (S (loops - length l1 - 2))) by lia.
  rewrite (emit_prefix_step _ e args h t l1 l _ _ lnkL e cbL ctxL Hr);
    [|intros; apply quiet_silent; [apply exec_nil | by apply Hq]|done].
  rewrite Hbody. erewrite bind_ret.
  2: { cbn [exec run_script run_cmd]. erewrite bind_ret; [reflexivity|].
       erewrite bind_ret by by apply deref_ok. cbv beta iota.
       by eapply Emitter_dispose_ring. }
  assert (l ∈ l1 ++ l :: l2) as Hin by set_solver.
  pose proof (Hls l Hin) as Hl'. rewrite Hl in Hl'. cbn [fmap option_fmap option_map] in Hl'.
  erewrite bind_ret by by apply get_next_ok; eauto.
  rewrite (nextOf_lookup _ _ _ Hl'). apply callAll_loop_null.
Qed.

Lemma dispose_emitter_during_emit_throws_witness :
  exists h',
    emit (exec 1) 2 0 [] (mkState emitter_disposer_heap [])
    = Throw TypeError
        (mkState h'
           ([] ++ map (call_event emitter_disposer_heap []) []
              ++ [ECall 1 (VStr "stop") []])) /\
    h' !! 0 = Some (Emitter null_links _noop VUndefined) /\
    forall y, y ∈ [] ++ 1 :: [2] ->
              h' !! y = set_links null_links <$> emitter_disposer_heap !! y.
Proof.
  apply (dispose_emitter_during_emit_throws 1 2 emitter_disposer_heap [] 0 1 [] [2]
           (mkLLink (Some 1) (Some 2)) _noop VUndefined
           (mkLLink (Some 2) (Some 0)) (Fn (fun _ _ => [CDispose 0])) (VStr "stop") []).
  - lia.
  - simpl. lia.
  - ring_by_computation.
  - reflexivity.
  - reflexivity.
  - reflexivity.
  - intros y Hy. set_solver.
Defined.

(** X12: disposing an already visited listener during an emission does not
    disturb the pass.  With the listeners [l1 ++ x :: l2 ++ l :: l3] of [e],
    where the callback of [l] disposes the earlier listener [x] and the
    other callbacks and the change callback do nothing, [emit] returns
    after calling every listener once, in order, [x] included; afterwards
    [x] is disposed and the ring holds the others. *)
Theorem dispose_visited_during_emit (fuel loops : nat) (h : list obj) (t : list event)
  (e l x : ref) (l1 l2 l3 : list ref) lnk cb ctx lnkL cbL ctxL (args : list value) :
  2 <= fuel ->
  length (l1 ++ x :: l2 ++ l :: l3) <= loops ->
  ring h e (l1 ++ x :: l2 ++ l :: l3) ->
  h !! e = Some (Emitter lnk cb ctx) ->
  (forall b, fn_body cb ctx [VBool b] = []) ->
  h !! l = Some (Listener lnkL e cbL ctxL) ->
  fn_body cbL ctxL args = [CDispose x] ->
  listener_of h x e ->
  (forall y, y ∈ l1 ++ x :: l2 ++ l3 -> quiet h args y) ->
  exists h',
    emit (exec fuel) loops e args (mkState h t)
    = Ret tt (mkState h'
                (t ++ map (call_event h args) (l1 ++ x :: l2)
                   ++ [ECall l ctxL args; EChange e ctx true]
                   ++ map (call_event h args) l3)) /\
    same_shape h h' /\
    null_at h' x /\
    ring h' e (l1 ++ l2 ++ l :: l3).
Proof.
  intros Hfuel Hloops Hr He Hcb Hl Hbody Hx Hq.
  destruct fuel as [|[|fuel]]; [lia..|].
  assert (forall h0 y, quiet h0 args y -> silent (exec (S (S fuel))) h0 args y) as Hqs.
  { intros h0 y. apply quiet_silent, exec_nil. }
  assert (ring h e ((l1 ++ x :: l2) ++ l :: l3)) as Hr2.
  { by rewrite <- app_assoc. }
  assert (length (l1 ++ x :: l2) + S (length l3) <= loops) as Hloops'.
  { rewrite !length_app in *. cbn [length] in *. rewrite length_app in Hloops.
    cbn [length] in Hloops. lia. }
  replace loops with (length (l1 ++ x :: l2) + S (loops - length (l1 ++ x :: l2) - 1))
    by lia.
  rewrite (emit_prefix_step _ e args h t (l1 ++ x :: l2) l _ _ lnkL e cbL ctxL Hr2);
    [|intros y Hy; apply Hqs, Hq; set_solver|done].
  rewrite Hbody.
  destruct (exec_dispose_linked fuel h
              (t ++ map (call_event h args) (l1 ++ x :: l2) ++ [ECall l ctxL args])
              e l1 x (l2 ++ l :: l3) lnk cb ctx Hr He Hx Hcb)
    as (h' & Hrun & Hsh & Hr' & Hnull).
  rewrite bool_decide_eq_false_2 in Hrun by (by destruct l1, l2).
  exists h'. split; [|done].
  erewrite bind_ret by exact Hrun.
  assert (ring h' e ((l1 ++ l2) ++ l :: l3)) as Hr3 by by rewrite <- app_assoc.
  destruct (ring_neighbours _ _ _ _ _ Hr3) as [_ [Hln _]].
  erewrite bind_ret by by apply get_next_ok; eapply nextOf_valid.
  replace (nextOf h' l) with (nextOf h' (lastOf e ((l1 ++ l2) ++ [l])))
    by (by rewrite lastOf_snoc).
  rewrite (callAll_rest_silent _ e args h' _ ((l1 ++ l2) ++ [l]) l3).
  - rewrite (call_events_shape h h') by (intros; apply Hsh).
    by rewrite <- !app_assoc.
  - by rewrite <- !app_assoc.
  - intros y Hy. apply Hqs. eapply quiet_shape; [apply Hsh|]. apply Hq. set_solver.
  - lia.
Qed.

Lemma dispose_visited_during_emit_witness :
  exists h',
    emit (exec 2) 3 0 [] (mkState visited_disposer_heap [])
    = Ret tt (mkState h'
                ([] ++ map (call_event visited_disposer_heap []) ([] ++ 1 :: [])
                   ++ [ECall 2 (VStr "b") []; EChange 0 VUndefined true]
                   ++ map (call_event visited_disposer_heap []) [])) /\
    same_shape visited_disposer_heap h' /\
    null_at h' 1 /\
    ring h' 0 ([] ++ [] ++ 2 :: []).
Proof.
  apply (dispose_visited_during_emit 2 3 visited_disposer_heap [] 0 2 1 [] [] []
           (mkLLink (Some 1) (Some 2)) _noop VUndefined
           (mkLLink (Some 0) (Some 1)) (Fn (fun _ _ => [CDispose 1])) (VStr "b") []).
  - lia.
  - simpl. lia.
  - ring_by_computation.
  - reflexivity.
  - reflexivity.
  - reflexivity.
  - reflexivity.
  - by exists (mkLLink (Some 2) (Some 0)), recorder, (VStr "a").
  - intros y Hy. assert (y = 1) as -> by set_solver.
    by exists (mkLLink (Some 2) (Some 0)), 0, recorder, (VStr "a").
Defined.

(** X15: an emission started from a listener callback runs to its end
    before the outer emission goes on.  With the listeners [l1 ++ l :: l2]
    of [e], where the callback of [l] emits [args2] on another emitter [e2]
    whose listeners [ls2], like the other listeners of [e], do nothing, the
    calls are: [l1], [l], all of [ls2] with [args2], then [l2]; the heap is
    unchanged. *)
Theorem nested_emit_runs_first (fuel loops : nat) (h : list obj) (t : list event)
  (e e2 l : ref) (l1 l2 ls2 : list ref) lnk2 cb2 ctx2 lnkL em cbL ctxL
  (args args2 : list value) :
  2 <= fuel ->
  length ls2 < fuel ->
  length (l1 ++ l :: l2) <= loops ->
  ring h e (l1 ++ l :: l2) ->
  ring h e2 ls2 ->
  h !! e2 = Some (Emitter lnk2 cb2 ctx2) ->
  h !! l = Some (Listener lnkL em cbL ctxL) ->
  fn_body cbL ctxL args = [CEmit e2 args2] ->
  (forall y, y ∈ l1 ++ l2 -> quiet h args y) ->
  (forall y, y ∈ ls2 -> quiet h args2 y) ->
  emit (exec fuel) loops e args (mkState h t)
  = Ret tt (mkState h
              (t ++ map (call_event h args) l1 ++ [ECall l ctxL args]
                 ++ map (call_event h args2) ls2
                 ++ map (call_event h args) l2)).
Proof.
  intros Hfuel Hfuel2 Hloops Hr Hr2 He2 Hl Hbody Hq Hq2.
  destruct fuel as [|[|fuel]]; [lia..|].
  rewrite length_app in Hloops. cbn [length] in Hloops.
  replace loops with (length l1 + S (loops - length l1 - 1)) by lia.
  rewrite (emit_prefix_step _ e args h t l1 l _ _ lnkL em cbL ctxL Hr);
    [|intros; apply quiet_silent; [apply exec_nil | apply Hq; set_solver]|done].
  rewrite Hbody. erewrite bind_ret.
  2: { cbn [exec run_script run_cmd]. erewrite bind_ret; [reflexivity|].
       erewrite bind_ret by by apply deref_ok. cbv beta iota.
       apply (emit_silent _ _ e2 args2 h _ ls2 Hr2); [lia|].
       intros y Hy. apply quiet_silent; [by intros s | by apply Hq2]. }
  destruct (ring_neighbours _ _ _ _ _ Hr) as [_ [Hln _]].
  erewrite bind_ret by by apply get_next_ok; eapply nextOf_valid.
  replace (nextOf h l) with (nextOf h (lastOf e (l1 ++ [l])))
    by (by rewrite lastOf_snoc).
  rewrite (callAll_rest_silent _ e args h _ (l1 ++ [l]) l2).
  - by rewrite <- !app_assoc.
  - by rewrite <- app_assoc.
  - intros y Hy. apply quiet_silent; [apply exec_nil | apply Hq; set_solver].
  - lia.
Qed.

Lemma nested_emit_runs_first_witness :
  emit (exec 2) 1 0 [VNum 7] (mkState relay_heap [])
  = Ret tt (mkState relay_heap
              ([] ++ map (call_event relay_heap [VNum 7]) []
                 ++ [ECall 2 (VStr "relay") [VNum 7]]
                 ++ map (call_event relay_heap [VNum 7]) [3]
                 ++ map (call_event relay_heap [VNum 7]) [])).
Proof.
  apply (nested_emit_runs_first 2 1 relay_heap [] 0 1 2 [] [] [3]
           (mkLLink (Some 3) (Some 3)) _noop VUndefined
           (mkLLink (Some 0) (Some 0)) 0 (Fn (fun _ a => [CEmit 1 a])) (VStr "relay")
           [VNum 7] [VNum 7]).
  - lia.
  - simpl. lia.
  - simpl. lia.
  - ring_by_computation.
  - ring_by_computation.
  - reflexivity.
  - reflexivity.
  - reflexivity.
  - intros y Hy. set_solver.
  - intros y Hy. assert (y = 3) as -> by set_solver.
    by exists (mkLLink (Some 1) (Some 1)), 1, recorder, (VStr "sink").
Defined.

(** ** Replacing the change callback *)

(** X13: [setChangeCB] replaces the callback and its context without
    calling anything or touching the list: the next [addListener] notifies
    the new callback, with the new context, and not the old one; [null]
    installs [_noop]. *)
Theorem setChangeCB_replaces call (h : list obj) (t : list event) (e : ref)
  (ls : list ref) lnk cb0 ctx0 (newCB : option ChangeCB) (ctx' : value)
  (cbN : ListenerCB) (ctxN : value) :
  ring h e ls ->
  h !! e = Some (Emitter lnk cb0 ctx0) ->
  (forall s, call (fn_body (match newCB with Some f => f | None => _noop end) ctx'
                     [VBool true]) s = Ret tt s) ->
  exists h' lnk',
    (setChangeCB e newCB ctx' >> addListener call e cbN ctxN) (mkState h t)
    = Ret (length h) (mkState h' (t ++ [EChange e ctx' true])) /\
    ring h' e (ls ++ [length h]) /\
    h' !! e = Some (Emitter lnk' (match newCB with Some f => f | None => _noop end) ctx').
Proof.
  intros Hr He Hcb.
  set (cb' := match newCB with Some f => f | None => _noop end) in *.
  destruct (set_cb_views h e lnk cb0 ctx0 cb' ctx' He) as (_ & Hlen & Hv).
  set (h1 := alter (fun _ => Emitter lnk cb' ctx') e h) in *.
  assert (h1 !! e = Some (Emitter lnk cb' ctx')) as He1.
  { unfold h1. by rewrite list_lookup_alter_eq, He. }
  assert (ring h1 e ls) as Hr1.
  { eapply ring_frame; [done|]. intros r _. apply Hv. }
  destruct (addListener_to_trigger call h1 t e ls lnk cb' ctx' cbN ctxN Hr1 He1)
    as (h' & Hrun & Hr' & _ & Hsh & _).
  rewrite <- Hlen in *.
  assert (e <> length h) as Hen by (apply valid_ne_length; eauto).
  destruct (shape_emitter_at h1 h' e lnk cb' ctx' (Hsh e Hen) He1) as [lnk' He'].
  exists h', lnk'. split; [|done].
  erewrite bind_ret.
  2: { unfold setChangeCB. erewrite bind_ret by by apply deref_ok. cbv beta iota.
       apply modify_ok. eauto. }
  fold cb'. fold h1. rewrite Hrun. by erewrite bind_ret by apply Hcb.
Qed.

Lemma setChangeCB_replaces_witness :
  exists h' lnk',
    (setChangeCB 0 (Some recorder) (VStr "ctx") >> addListener (exec 1) 0 recorder VUndefined)
      (mkState thrower_heap [])
    = Ret (length thrower_heap) (mkState h' ([] ++ [EChange 0 (VStr "ctx") true])) /\
    ring h' 0 ([1] ++ [length thrower_heap]) /\
    h' !! 0 = Some (Emitter lnk' recorder (VStr "ctx")).
Proof.
  apply (setChangeCB_replaces (exec 1) thrower_heap [] 0 [1]
           (mkLLink (Some 1) (Some 1)) thrower VUndefined (Some recorder) (VStr "ctx")).
  - ring_by_computation.
  - reflexivity.
  - intros s. reflexivity.
Defined.

(** ** The binders with a missing argument *)

(** X14: called without an argument, the closures of [bindUB] and [bindBU]
    pass [undefined] in the place of the unbound argument, for every length
    of the bound array, whatever the array holds at the call; with an empty
    bound array the two binders agree. *)
Theorem bind_missing_argument {T : Type} (func : list value -> T)
  (st st' : arrays) (b : ref) (a : list value) :
  bindUB func st b st [] = func (VUndefined :: st b) /\
  bindBU func st b st [] = func (st b ++ [VUndefined]) /\
  bindUB func (fun _ => []) b st' a = bindBU func (fun _ => []) b st' a /\
  bindUB func st b st' [] = bindUB func st b st' [VUndefined] /\
  bindBU func st b st' [] = bindBU func st b st' [VUndefined].
Proof.
  assert (forall x : list value,
             st b = x ->
             bindUB func st b st [] = func (VUndefined :: x) /\
             bindBU func st b st [] = func (x ++ [VUndefined])) as Hsame.
  { intros x E. unfold bindUB, bindBU. rewrite E.
    split;
      (do 9 (destruct x as [|? x];
             [cbv beta iota delta [length]; unfold elt; by rewrite ?E|]));
      cbv beta iota delta [length]; by rewrite ?E. }
  destruct (Hsame _ eq_refl) as [H1 H2].
  split; [done|]. split; [done|]. split; [done|].
  unfold bindUB, bindBU. generalize (st b). intros x.
  split; (do 9 (destruct x as [|? x]; [reflexivity|])); reflexivity.
Qed.
